(** * renitest2.js: landing-page script, rate limiters, viewport activation,
      typewriter, pointer effects and the application root.

    Shallow embedding of the parts of [src/renitest2.js] whose behaviour is
    specified, followed by the properties proved about them.  Mutable
    closure variables and object fields become record fields threaded
    through the functions; the browser services the script calls
    ([setTimeout], [clearTimeout], [IntersectionObserver], [matchMedia], the
    console) are modelled as explicit state. *)

From stdpp Require Import gmap strings list.

(** * JavaScript values the script branches on *)

Module Js.

(** The value of a [let timeout;] variable: [undefined] until first
    assigned, then a timer id returned by [setTimeout] or [null]. *)
Inductive handle := Undefined | Null | Id (n : nat).

(** [!timeout] is [true] for [undefined], [null] and the number [0]. *)
Definition truthy (h : handle) : bool :=
  match h with
  | Id (S _) => true
  | _ => false
  end.

(** The value of a [let inThrottle;] variable. *)
Inductive flag := FUndefined | FBool (b : bool).

Definition flag_truthy (f : flag) : bool :=
  match f with
  | FBool b => b
  | FUndefined => false
  end.

End Js.

(** * The browser's timer queue and event loop

    [setTimeout] never runs its callback synchronously: the callback is
    queued with a due time and runs in a later turn of the event loop, once
    the running task has returned.  A callback is kept as a value of type
    [K] (the closure, defunctionalised); what running it does is given by
    the program that registered it. *)

Module Timers.

Section Queue.
Context {K : Type}.

Record timer := Timer { tid : nat; due : nat; job : K }.

Record loop := Loop { now : nat; next_id : nat; pending : list timer }.

(** Timer ids are integers greater than zero. *)
Definition start : loop := Loop 0 1 [].

(** The timer is queued [delay] after the present time, [delay] being the
    delay as the host has converted it (see [long] below); the literal
    delays of the script are their own conversion. *)
Definition setTimeout (k : K) (delay : nat) (l : loop) : nat * loop :=
  (next_id l,
   Loop (now l) (S (next_id l))
        (pending l ++ [Timer (next_id l) (now l + delay) k])).

Fixpoint remove_id (n : nat) (ts : list timer) : list timer :=
  match ts with
  | [] => []
  | t :: r => if tid t =? n then remove_id n r else t :: remove_id n r
  end.

(** [clearTimeout(undefined)] and [clearTimeout(null)] do nothing. *)
Definition clearTimeout (h : Js.handle) (l : loop) : loop :=
  match h with
  | Js.Id n => Loop (now l) (next_id l) (remove_id n (pending l))
  | _ => l
  end.

Fixpoint ripe (limit : nat) (ts : list timer) : list timer :=
  match ts with
  | [] => []
  | t :: r => if due t <=? limit then t :: ripe limit r else ripe limit r
  end.

Fixpoint unripe (limit : nat) (ts : list timer) : list timer :=
  match ts with
  | [] => []
  | t :: r => if due t <=? limit then unripe limit r else t :: unripe limit r
  end.

Fixpoint enqueue (t : timer) (ts : list timer) : list timer :=
  match ts with
  | [] => [t]
  | u :: r => if due t <=? due u then t :: u :: r else u :: enqueue t r
  end.

(** Ripe timers run by due time, registration order breaking ties. *)
Fixpoint by_due (ts : list timer) : list timer :=
  match ts with
  | [] => []
  | t :: r => enqueue t (by_due r)
  end.

(** The running task ends and [d] time units pass, in which every timer
    that falls due runs, at its due time: when the span is over, no timer
    that is due is left.  [fire k t s] is the effect on the
    program's variables [s] of running closure [k] at time [t]; the
    callbacks of this script register no timer of their own. *)
Definition elapse {S : Type} (fire : K → nat → S → S) (d : nat)
    (st : S * loop) : S * loop :=
  let limit := now st.2 + d in
  (fold_left (λ s t, fire (job t) (Nat.max (now st.2) (due t)) s)
             (by_due (ripe limit (pending st.2))) st.1,
   Loop limit (next_id st.2) (unripe limit (pending st.2))).

End Queue.

Arguments timer : clear implicits.
Arguments loop : clear implicits.

(** What the host makes of the delay a caller passes to [setTimeout].  In
    a browser the argument is a WebIDL [long]: it is reduced modulo 2^32
    into the signed 32-bit range, and a negative result counts as 0 (HTML
    Standard, timer initialisation steps).  A delay below 2^31 is kept;
    2^31 itself becomes 0.  Hosts agree on the delays below 2^31, which are
    the ones the properties below are stated for; from 2^31 on they differ
    (Node.js takes 1 for every such delay), but none waits that long. *)
Definition long (delay : nat) : nat :=
  let r := (Z.of_nat delay mod 2 ^ 32)%Z in
  if (r <? 2 ^ 31)%Z then Z.to_nat r else 0.
Arguments long : simpl never.

(** The delays the host keeps as they are. *)
Definition honoured (delay : nat) : Prop := (Z.of_nat delay < 2 ^ 31)%Z.

(** The least delay the host does not keep. *)
Definition overflow : nat := Z.to_nat (2 ^ 31).

(** What happens to a wrapped function over time: it is invoked with some
    arguments, or the task ends and time passes in which the timers that
    fall due run. *)
Inductive event (A : Type) :=
| Invoke (a : A)
| Elapse (d : nat).
Arguments Invoke {A} a.
Arguments Elapse {A} d.

(** The invocations of a trace started at time [t], with their times. *)
Fixpoint stamps {A : Type} (tr : list (event A)) (t : nat) : list (nat * A) :=
  match tr with
  | [] => []
  | Invoke a :: r => (t, a) :: stamps r t
  | Elapse d :: r => stamps r (t + d)
  end.

(** The time at which a trace started at time [t] ends. *)
Fixpoint horizon {A : Type} (tr : list (event A)) (t : nat) : nat :=
  match tr with
  | [] => t
  | Invoke _ :: r => horizon r t
  | Elapse d :: r => horizon r (t + d)
  end.

End Timers.

(** * Rate limiters (lines 423-450)

    The underlying callback [func] is observed through the log of its real
    calls: the time of the call and the arguments it received. *)

Module Debounce.
Import Timers.

Section Wrapper.
Context {A : Type}.
Variable wait : nat.
Variable immediate : bool.

(** The closure [later] captures the arguments of the invocation that
    created it. *)
Inductive closure := Later (args : A).

Record vars := Vars { timeout : Js.handle; calls : list (nat * A) }.

Definition state : Type := vars * loop closure.

(** [debounce(func, wait, immediate)]: [let timeout;] *)
Definition debounce : state := (Vars Js.Undefined [], start).

(** [const later = () => { timeout = null; if (!immediate) func.apply(this, args); }] *)
Definition later (k : closure) (t : nat) (v : vars) : vars :=
  match k with
  | Later args =>
      Vars Js.Null (if negb immediate then calls v ++ [(t, args)] else calls v)
  end.

(** [executedFunction(...args)] *)
Definition executedFunction (args : A) (st : state) : state :=
  let callNow := immediate && negb (Js.truthy (timeout st.1)) in
  let l1 := clearTimeout (timeout st.1) st.2 in
  let '(id, l2) := setTimeout (Later args) (long wait) l1 in
  (Vars (Js.Id id)
        (if callNow then calls st.1 ++ [(now l2, args)] else calls st.1),
   l2).

Definition step (e : event A) (st : state) : state :=
  match e with
  | Invoke a => executedFunction a st
  | Elapse d => elapse later d st
  end.

Definition run (tr : list (event A)) (st : state) : state :=
  fold_left (λ s e, step e s) tr st.

(** Every timer has run before the next invocation is made, and the last
    one before the trace ends: no invocation of the trace finds a timer
    pending, and none is pending at the end. *)
Fixpoint unhurried (tr : list (event A)) (st : state) : bool :=
  match tr with
  | [] => match pending st.2 with [] => true | _ => false end
  | e :: r =>
      match e, pending st.2 with
      | Invoke _, _ :: _ => false
      | _, _ => unhurried r (step e st)
      end
  end.

(** No timer is pending and [timeout] is falsy. *)
Definition idle (st : state) : Prop :=
  pending st.2 = [] ∧ Js.truthy (timeout st.1) = false.

(** Exactly one timer is pending: the one [timeout] names, registered by
    the invocation made at time [t0] with arguments [a]. *)
Definition armed (t0 : nat) (a : A) (st : state) : Prop :=
  ∃ id, pending st.2 = [Timer id (t0 + wait) (Later a)]
        ∧ timeout st.1 = Js.Id id ∧ 0 < id < next_id st.2
        ∧ t0 ≤ now st.2 ≤ t0 + wait
        ∧ (now st.2 = t0 + wait → wait = 0).

Definition consistent (st : state) : Prop :=
  0 < next_id st.2 ∧ (idle st ∨ ∃ t0 a, armed t0 a st).

(** The invocations still waiting for their timer. *)
Definition backlog (st : state) : list (nat * A) :=
  map (λ t, (due t - wait, match job t with Later a => a end)) (pending st.2).

End Wrapper.

(** What the specification says a trailing debounce of window [w] does to
    a timeline of invocations observed until time [T]: an invocation is
    followed by a real call, [w] later and with its arguments, exactly
    when no other invocation arrives before that. *)
Fixpoint quiet_calls {A : Type} (w : nat) (inv : list (nat * A)) (T : nat)
    : list (nat * A) :=
  match inv with
  | [] => []
  | (t, a) :: rest =>
      let settled :=
        match rest with
        | [] => t + w <=? T
        | (t', _) :: _ => t + w <=? t'
        end in
      (if settled then [(t + w, a)] else []) ++ quiet_calls w rest T
  end.

(** What a leading-edge debounce of window [w] does to a timeline of
    invocations: an invocation is a real call exactly when the invocation
    before it, real call or not, is at least [w] old. *)
Fixpoint leading_calls {A : Type} (w : nat) (last : option nat)
    (inv : list (nat * A)) : list (nat * A) :=
  match inv with
  | [] => []
  | (t, a) :: rest =>
      let quiet :=
        match last with
        | None => true
        | Some t0 => t0 + w <=? t
        end in
      (if quiet then [(t, a)] else []) ++ leading_calls w (Some t) rest
  end.

(** The state agrees with [last] being the time of the latest invocation. *)
Definition follows {A : Type} (w : nat) (last : option nat) (st : state (A:=A)) : Prop :=
  (idle st ∧ ∀ t, last = Some t → t + w ≤ now st.2)
  ∨ (∃ t0 a, armed w t0 a st ∧ last = Some t0).

(** Pass-through: in every reachable state an invocation calls the
    callback at once, with its arguments. *)
Definition pass_through (w : nat) : Prop :=
  ∀ (tr : list (event nat)) (a : nat),
    let st := run w false tr debounce in
    calls (executedFunction w false a st).1 = calls st.1 ++ [(now st.2, a)].

(** The quiet-period rule for a window [w]: whatever the invocations, the
    real calls are those of [quiet_calls]. *)
Definition quiet_period (w : nat) : Prop :=
  ∀ tr : list (event nat),
    calls (run w false tr debounce).1 = quiet_calls w (stamps tr 0) (horizon tr 0).

End Debounce.

Module Throttle.
Import Timers.

Section Wrapper.
Context {A : Type}.
Variable limit : nat.

(** [() => inThrottle = false] *)
Inductive closure := Release.

Record vars := Vars { inThrottle : Js.flag; calls : list (nat * A) }.

Definition state : Type := vars * loop closure.

(** [throttle(func, limit)]: [let inThrottle;] *)
Definition throttle : state := (Vars Js.FUndefined [], start).

Definition release (k : closure) (t : nat) (v : vars) : vars :=
  match k with
  | Release => Vars (Js.FBool false) (calls v)
  end.

(** The returned [function() { ... }] *)
Definition wrapped (args : A) (st : state) : state :=
  if negb (Js.flag_truthy (inThrottle st.1)) then
    let v1 := Vars (Js.FBool true) (calls st.1 ++ [(now st.2, args)]) in
    (v1, (setTimeout Release (long limit) st.2).2)
  else st.

Definition step (e : event A) (st : state) : state :=
  match e with
  | Invoke a => wrapped a st
  | Elapse d => elapse release d st
  end.

Definition run (tr : list (event A)) (st : state) : state :=
  fold_left (λ s e, step e s) tr st.

(** The cooldown timer has run before the next invocation is made: no
    invocation of the trace finds it pending. *)
Fixpoint unhurried (tr : list (event A)) (st : state) : bool :=
  match tr with
  | [] => true
  | e :: r =>
      match e, pending st.2 with
      | Invoke _, _ :: _ => false
      | _, _ => unhurried r (step e st)
      end
  end.

(** No cooldown is running. *)
Definition ready (st : state) : Prop :=
  pending st.2 = [] ∧ Js.flag_truthy (inThrottle st.1) = false.

(** The cooldown started by the real call made at time [t0] is running. *)
Definition cooling (t0 : nat) (st : state) : Prop :=
  ∃ id, pending st.2 = [Timer id (t0 + limit) Release]
        ∧ inThrottle st.1 = Js.FBool true
        ∧ t0 ≤ now st.2 ≤ t0 + limit
        ∧ (now st.2 = t0 + limit → limit = 0).

(** The state agrees with [last] being the time of the latest real call. *)
Definition follows (last : option nat) (st : state) : Prop :=
  (ready st ∧ ∀ t, last = Some t → t + limit ≤ now st.2)
  ∨ (∃ t0, cooling t0 st ∧ last = Some t0).

End Wrapper.

(** What the specification says a throttle of window [w] does to a
    timeline of invocations: an invocation is a real call when none was
    made before or the last real call is at least [w] old; any other is
    dropped. *)
Fixpoint spaced_calls {A : Type} (w : nat) (last : option nat)
    (inv : list (nat * A)) : list (nat * A) :=
  match inv with
  | [] => []
  | (t, a) :: rest =>
      let free :=
        match last with
        | None => true
        | Some t0 => t0 + w <=? t
        end in
      if free then (t, a) :: spaced_calls w (Some t) rest
      else spaced_calls w last rest
  end.

(** Successive entries of a call log are at least [w] apart. *)
Fixpoint apart {A : Type} (w : nat) (log : list (nat * A)) : Prop :=
  match log with
  | [] => True
  | (t, _) :: rest =>
      match rest with
      | [] => True
      | (t', _) :: _ => t + w ≤ t'
      end ∧ apart w rest
  end.

(** Pass-through: in every reachable state an invocation calls the
    callback at once, with its arguments. *)
Definition pass_through (w : nat) : Prop :=
  ∀ (tr : list (event nat)) (a : nat),
    let st := run w tr throttle in
    calls (wrapped w a st).1 = calls st.1 ++ [(now st.2, a)].

(** The cooldown rule for a window [w]: whatever the invocations, the real
    calls are those of [spaced_calls], at least [w] apart. *)
Definition cooldown (w : nat) : Prop :=
  ∀ tr : list (event nat),
    let log := calls (run w tr throttle).1 in
    log = spaced_calls w None (stamps tr 0) ∧ apart w log.

(** [n] invocations, one every [period] time units. *)
Fixpoint steady (period n : nat) : list (event nat) :=
  match n with
  | 0 => []
  | S n' => Invoke n :: Elapse period :: steady period n'
  end.

End Throttle.

(** * The page: elements, inline styles and the window *)

Module Dom.

(** A DOM node, known by its identity. *)
Definition element := nat.

(** The inline style properties the script writes; a property never
    written is the empty string. *)
Record style := Style {
  opacity : string;
  transform : string;
  transition : string
}.

Definition blank : style := Style EmptyString EmptyString EmptyString.

Definition set_opacity (v : string) (s : style) : style :=
  Style v (transform s) (transition s).
Definition set_transform (v : string) (s : style) : style :=
  Style (opacity s) v (transition s).
Definition set_transition (v : string) (s : style) : style :=
  Style (opacity s) (transform s) v.

(** The globals the script queries: the media query
    [(prefers-reduced-motion: reduce)], whether [IntersectionObserver]
    exists, and the size of the viewport. *)
Record window {num : Type} := Window {
  prefersReducedMotion : bool;
  hasIntersectionObserver : bool;
  innerWidth : num;
  innerHeight : num
}.
Arguments window : clear implicits.
Arguments Window {num} _ _ _ _.

(** An [IntersectionObserverEntry]. *)
Record entry := Entry { target : element; isIntersecting : bool }.

End Dom.

(** * AnimationManager (lines 117-180) *)

Module AnimationManager.
Import Dom.

(** [observer] is [null] ([None]) until [setupObserver] constructs the
    [IntersectionObserver], kept here with the set of targets it
    observes.  [animatedElements] is the manager's [Set].  The last three
    fields record what was done: the calls of [animateElement] in order,
    the number of calls of [observe], and the number of observers built. *)
Record state := State {
  observer : option (gset element);
  animatedElements : gset element;
  doc : gmap element style;
  activations : list element;
  observe_calls : nat;
  observers_built : nat
}.

(** [constructor()] before it calls [init()]. *)
Definition fresh (d : gmap element style) : state :=
  State None ∅ d [] 0 0.

Definition restyle (f : style → style) (e : element) (s : state) : state :=
  State (observer s) (animatedElements s) (alter f e (doc s))
        (activations s) (observe_calls s) (observers_built s).

Definition animateElement (e : element) (s : state) : state :=
  let s1 := restyle (set_transition "opacity 0.6s ease-out, transform 0.6s ease-out") e s in
  let s2 := restyle (set_opacity "1") e s1 in
  let s3 := restyle (set_transform "translateY(0)") e s2 in
  State (observer s3) (animatedElements s3) (doc s3)
        (activations s3 ++ [e]) (observe_calls s3) (observers_built s3).

Definition add (e : element) (s : state) : state :=
  State (observer s) ({[e]} ∪ animatedElements s) (doc s)
        (activations s) (observe_calls s) (observers_built s).

Definition unobserve (e : element) (s : state) : state :=
  State ((λ ts, ts ∖ {[e]}) <$> observer s) (animatedElements s) (doc s)
        (activations s) (observe_calls s) (observers_built s).

Definition observe (e : element) (s : state) : state :=
  State ((λ ts, {[e]} ∪ ts) <$> observer s) (animatedElements s) (doc s)
        (activations s) (S (observe_calls s)) (observers_built s).

(** The body of [entries.forEach(entry => ...)]. *)
Definition on_entry (s : state) (en : entry) : state :=
  if isIntersecting en && negb (bool_decide (target en ∈ animatedElements s))
  then unobserve (target en) (add (target en) (animateElement (target en) s))
  else s.

(** The callback given to [new IntersectionObserver]. *)
Definition callback (entries : list entry) (s : state) : state :=
  fold_left on_entry entries s.

Definition setupObserver (s : state) : state :=
  State (Some ∅) (animatedElements s) (doc s)
        (activations s) (observe_calls s) (S (observers_built s)).

(** [elementsToAnimate] is the result of [querySelectorAll]. *)
Definition observeElements (elementsToAnimate : list element) (s : state) : state :=
  fold_left (λ s e,
      observe e (restyle (set_transform "translateY(30px)") e
                   (restyle (set_opacity "0") e s)))
    elementsToAnimate s.

Definition addFallbackAnimations (elementsToAnimate : list element) (s : state) : state :=
  fold_left (λ s e,
      restyle (set_transform "translateY(0)") e
        (restyle (set_opacity "1") e s))
    elementsToAnimate s.

Definition init {num} (w : window num) (elementsToAnimate : list element)
    (s : state) : state :=
  if prefersReducedMotion w then s
  else if negb (hasIntersectionObserver w) then
    addFallbackAnimations elementsToAnimate s
  else observeElements elementsToAnimate (setupObserver s).

(** The observer's callback runs once per batch of entries. *)
Definition deliver (batches : list (list entry)) (s : state) : state :=
  fold_left (λ s b, callback b s) batches s.

(** An element has the visible presentation [animateElement] and the
    fallback give it. *)
Definition shown (e : element) (s : state) : Prop :=
  ∃ st, doc s !! e = Some st ∧ opacity st = "1" ∧ transform st = "translateY(0)".

(** How many times [animateElement] was called on [e]. *)
Fixpoint activationCount (e : element) (log : list element) : nat :=
  match log with
  | [] => 0
  | x :: r => (if bool_decide (x = e) then 1 else 0) + activationCount e r
  end.

(** Some delivered entry reports [e] as intersecting. *)
Definition crossed (e : element) (batches : list (list entry)) : Prop :=
  ∃ b en, b ∈ batches ∧ en ∈ b ∧ target en = e ∧ isIntersecting en = true.

(** The manager's set and its log agree, the log has no repetition, and
    no animated element is still observed. *)
Definition coherent (s : state) : Prop :=
  (∀ e, e ∈ animatedElements s ↔ e ∈ activations s)
  ∧ NoDup (activations s)
  ∧ (∀ ts e, observer s = Some ts → e ∈ animatedElements s → e ∉ ts).

(** The pre-activation presentation [observeElements] gives. *)
Definition hidden : style := Style "0" "translateY(30px)" EmptyString.

(** The fallback as the specification states it: under reduced motion, or
    without [IntersectionObserver], every target of the document is given
    the visible presentation, nothing is observed and no observer exists. *)
Definition fallback_activates_all : Prop :=
  ∀ (w : window unit) (targets : list element) (d : gmap element style),
    prefersReducedMotion w = true ∨ hasIntersectionObserver w = false →
    let s := init w targets (fresh d) in
    (∀ e, e ∈ targets → e ∈ dom d → shown e s)
    ∧ observe_calls s = 0 ∧ observer s = None.

End AnimationManager.

(** * Typewriter effect (lines 503-543) *)

Module Typewriter.

Definition quote : string := String (Ascii.ascii_of_nat 34) EmptyString.

(** The markup appended to the visible text. *)
Definition cursor_span : string :=
  "<span class=" +:+ quote +:+ "typewriter" +:+ quote +:+ "></span>".

(** [text.substring(0, n)]: a negative end counts as 0 and an end past
    the string as its length. *)
Definition substring0 (n : Z) (text : string) : string :=
  String.substring 0 (Z.to_nat n) text.

(** The three variables of the enclosing function, and the [innerHTML] of
    the [.subtitle] element, [None] when the page has no such element. *)
Record state := State {
  subtitleIndex : nat;
  charIndex : Z;
  isDeleting : bool;
  subtitle : option string
}.

(** What one run of [typeWriter] ends with: it has called
    [setTimeout(typeWriter, delay)], it has returned without scheduling
    anything, or reading [currentText] of an index outside [subtitles]
    has raised a [TypeError]. *)
Inductive outcome :=
| Scheduled (delay : nat) (s : state)
| Returned (s : state)
| TypeError.

(** [let subtitleIndex = 0; let charIndex = 0; let isDeleting = false;] *)
Definition initial (html : option string) : state := State 0 0 false html.

(** The variables are back at their initial values. *)
Definition at_start (s : state) : Prop :=
  subtitleIndex s = 0 ∧ charIndex s = 0%Z ∧ isDeleting s = false.

Section Machine.
Variable subtitles : list string.

Definition typeWriter (s : state) : outcome :=
  match subtitle s with
  | None => Returned s
  | Some _ =>
      match subtitles !! subtitleIndex s with
      | None => TypeError
      | Some currentText =>
          if isDeleting s then
            let html := substring0 (charIndex s - 1) currentText +:+ cursor_span in
            let charIndex' := (charIndex s - 1)%Z in
            if (charIndex' =? 0)%Z then
              Scheduled 500
                (State ((subtitleIndex s + 1) mod length subtitles)
                       charIndex' false (Some html))
            else
              Scheduled 50 (State (subtitleIndex s) charIndex' true (Some html))
          else
            let html := substring0 (charIndex s + 1) currentText +:+ cursor_span in
            let charIndex' := (charIndex s + 1)%Z in
            if (charIndex' =? Z.of_nat (String.length currentText))%Z then
              Scheduled 2000 (State (subtitleIndex s) charIndex' true (Some html))
            else
              Scheduled 100 (State (subtitleIndex s) charIndex' false (Some html))
      end
  end.

(** [n] consecutive timer firings: the state reached and the delays
    asked of [setTimeout], or [None] if the chain broke before. *)
Fixpoint steps (n : nat) (s : state) : option (list nat * state) :=
  match n with
  | 0 => Some ([], s)
  | S n' =>
      match typeWriter s with
      | Scheduled d s' =>
          match steps n' s' with
          | Some (ds, s'') => Some (d :: ds, s'')
          | None => None
          end
      | _ => None
      end
  end.

(** Firings in one full round of sequence [i]. *)
Definition round_length (i : nat) : nat :=
  2 * String.length (default EmptyString (subtitles !! i)).

(** Firings in the rounds of sequences [i], [i+1], ..., [i+n-1]. *)
Fixpoint rounds_length (i n : nat) : nat :=
  match n with
  | 0 => 0
  | S n' => round_length i + rounds_length (S i) n'
  end.

(** The cursor after [k] firings of a round over a text of length [L]:
    up to [L], then back down. *)
Definition cursor_at (L k : nat) : nat := if k <=? L then k else 2 * L - k.

(** The delay asked by firing number [k] (counted from 0) of a round:
    100 between typed characters, 2000 once the text is complete, 50 between
    deleted characters, 500 once it is gone. *)
Definition delay_at (L k : nat) : nat :=
  if S k <? L then 100
  else if S k =? L then 2000
  else if S k <? 2 * L then 50
  else 500.

Definition round_delays (L k : nat) : list nat := map (delay_at L) (seq 0 k).

(** The state [k] firings into the round of sequence [i], begun with
    [innerHTML] [h]: the element shows the first [cursor_at L k] characters
    of the text, followed by the cursor markup. *)
Definition round_state (i : nat) (text h : string) (k : nat) : state :=
  let L := String.length text in
  State (if k <? 2 * L then i else (i + 1) mod length subtitles)
        (Z.of_nat (cursor_at L k))
        ((L <=? k) && (k <? 2 * L))
        (Some (if k =? 0 then h
               else substring0 (Z.of_nat (cursor_at L k)) text +:+ cursor_span)).

(** The cursor lies within the current sequence. *)
Definition in_bounds (s : state) : Prop :=
  ∃ text, subtitles !! subtitleIndex s = Some text
          ∧ (0 ≤ charIndex s ≤ Z.of_nat (String.length text))%Z.

(** What every firing preserves when no sequence is empty. *)
Definition sound (s : state) : Prop :=
  ∃ text, subtitles !! subtitleIndex s = Some text
          ∧ (0 ≤ charIndex s ≤ Z.of_nat (String.length text))%Z
          ∧ (isDeleting s = false → (charIndex s < Z.of_nat (String.length text))%Z)
          ∧ (isDeleting s = true → (0 < charIndex s)%Z)
          ∧ is_Some (subtitle s).

(** The cycle of the specification: the chain of firings never breaks and
    keeps the cursor within the current sequence; a round of sequence [i]
    goes through the states [round_state] with the delays [round_delays]
    and so ends, after twice the length of the sequence, on the next index
    with the cursor at 0, typing; and the rounds of all the sequences bring
    the variables back to their initial values. *)
Definition cycle_holds : Prop :=
  (∀ h n, ∃ ds s, steps n (initial (Some h)) = Some (ds, s) ∧ in_bounds s)
  ∧ (∀ i text h k, subtitles !! i = Some text → k ≤ 2 * String.length text →
       steps k (State i 0 false (Some h))
       = Some (round_delays (String.length text) k, round_state i text h k))
  ∧ (∀ h, ∃ ds s,
       steps (rounds_length 0 (length subtitles)) (initial (Some h)) = Some (ds, s)
       ∧ at_start s).

End Machine.

(** [const subtitles = [...]] *)
Definition subtitles : list string :=
  [ "Building the future of web experiences";
    "Where innovation meets creativity";
    "Transforming ideas into reality";
    "Next-level digital solutions" ].

End Typewriter.

(** * Pointer effects (lines 228-242, 545-570, 663-687)

    Coordinates are JavaScript numbers.  Their arithmetic and their
    conversion to text inside a template literal are taken as given:
    nothing below depends on rounding. *)

Class JsNumber (num : Type) := {
  lit : string → num;            (* a numeric literal of the source *)
  sub : num → num → num;
  mul : num → num → num;
  div : num → num → num;
  show : num → string            (* [${x}] *)
}.

Module PointerEffects.
Import Dom.

Section Handlers.
Context {num : Type} `{JsNumber num}.

(** [getBoundingClientRect()] *)
Record rect := Rect { left : num; top : num; width : num; height : num }.

Record mouse := Mouse { clientX : num; clientY : num }.

(** [.hero-button] [mousemove] *)
Definition magnetic_mousemove (w : window num) (r : rect) (e : mouse)
    (button : style) : style :=
  let x := sub (sub (clientX e) (left r)) (div (width r) (lit "2")) in
  let y := sub (sub (clientY e) (top r)) (div (height r) (lit "2")) in
  set_transform
    ("translate(" +:+ show (mul x (lit "0.1")) +:+ "px, "
      +:+ show (mul y (lit "0.1")) +:+ "px) scale(1.05)")
    button.

(** [.hero-button] [mouseleave] *)
Definition magnetic_mouseleave (button : style) : style :=
  set_transform "translate(0, 0) scale(1)" button.

(** [document] [mousemove]; [heroContent] is [None] when the page has no
    [.hero-content]. *)
Definition parallax_mousemove (w : window num) (e : mouse)
    (heroContent : option style) : option style :=
  let x := div (clientX e) (innerWidth w) in
  let y := div (clientY e) (innerHeight w) in
  match heroContent with
  | Some st =>
      Some (set_transform
              ("translate(" +:+ show (mul (sub x (lit "0.5")) (lit "20")) +:+ "px, "
                +:+ show (mul (sub y (lit "0.5")) (lit "20")) +:+ "px)")
              st)
  | None => None
  end.

Definition newline : string := String (Ascii.ascii_of_nat 10) EmptyString.
Definition indent16 : string := "                ".
Definition indent12 : string := "            ".

(** [.service-item] [mousemove] *)
Definition tilt_mousemove (w : window num) (r : rect) (e : mouse)
    (item : style) : style :=
  let x := sub (clientX e) (left r) in
  let y := sub (clientY e) (top r) in
  let centerX := div (width r) (lit "2") in
  let centerY := div (height r) (lit "2") in
  let rotateX := div (sub y centerY) (lit "20") in
  let rotateY := div (sub centerX x) (lit "20") in
  set_transform
    (newline +:+ indent16 +:+ "perspective(1000px) "
      +:+ newline +:+ indent16 +:+ "rotateX(" +:+ show rotateX +:+ "deg) "
      +:+ newline +:+ indent16 +:+ "rotateY(" +:+ show rotateY +:+ "deg) "
      +:+ newline +:+ indent16 +:+ "translateY(-5px)"
      +:+ newline +:+ indent16 +:+ "scale(1.02)"
      +:+ newline +:+ indent12)
    item.

(** [.service-item] [mouseleave] *)
Definition tilt_mouseleave (item : style) : style :=
  set_transform "perspective(1000px) rotateX(0) rotateY(0) translateY(0) scale(1)" item.

(** [ContactManager.addHoverEffects]: [.btn] [mouseenter] *)
Definition btn_mouseenter (w : window num) (button : style) : style :=
  if negb (prefersReducedMotion w) then set_transform "translateY(-2px)" button
  else button.

(** [ContactManager.addHoverEffects]: [.btn] [mouseleave] *)
Definition btn_mouseleave (button : style) : style :=
  set_transform "translateY(0)" button.

End Handlers.

End PointerEffects.

(** * ReniLandingPage (lines 353-402) *)

Module ReniLandingPage.

Inductive class :=
| ErrorManager | PerformanceMonitor | SmoothScrollManager
| AnimationManager | ContactManager | AccessibilityManager.

Global Instance class_eq_dec : EqDecision class.
Proof. solve_decision. Defined.

(** An object made by [new]: its class and the rank of its construction
    among all constructions so far, which tells two instances apart. *)
Record instance := Instance { of_class : class; serial : nat }.

(** [this.modules], [this.isInitialized], and what the outside sees: the
    objects constructed so far and the lines written to the console. *)
Record state := State {
  modules : gmap string instance;
  isInitialized : bool;
  constructed : list instance;
  console : list string
}.

(** [constructor()] *)
Definition create : state := State ∅ false [] [].

(** The statements of the [try] block either all complete or stop at the
    first exception. *)
Inductive completion := Normal (s : state) | Thrown (s : state).

Section Init.
(** Whether, on this page, the constructor of a class raises. *)
Variable throws : class → bool.

(** [this.modules.<key> = new <c>();] *)
Definition assign_new (key : string) (c : class) (s : state) : completion :=
  if throws c then Thrown s
  else
    let obj := Instance c (length (constructed s)) in
    Normal (State (<[key := obj]> (modules s)) (isInitialized s)
                  (constructed s ++ [obj]) (console s)).

(** The six assignments, in source order. *)
Definition plan : list (string * class) :=
  [ ("errorManager", ErrorManager);
    ("performanceMonitor", PerformanceMonitor);
    ("smoothScrollManager", SmoothScrollManager);
    ("animationManager", AnimationManager);
    ("contactManager", ContactManager);
    ("accessibilityManager", AccessibilityManager) ].

Fixpoint assign_all (p : list (string * class)) (s : state) : completion :=
  match p with
  | [] => Normal s
  | (key, c) :: rest =>
      match assign_new key c s with
      | Normal s' => assign_all rest s'
      | Thrown s' => Thrown s'
      end
  end.

Definition log (line : string) (s : state) : state :=
  State (modules s) (isInitialized s) (constructed s) (console s ++ [line]).

(** [async init()], once the document is ready. *)
Definition init (s : state) : state :=
  match assign_all plan s with
  | Normal s1 =>
      let s2 := State (modules s1) true (constructed s1) (console s1) in
      log "Initialization completed"
        (log "Reni Landing Page initialized successfully" s2)
  | Thrown s1 =>
      log "Failed to initialize Reni Landing Page:" s1
  end.

(** The assignments of a list all complete. *)
Definition clean (p : list (string * class)) : Prop :=
  ∀ key c, (key, c) ∈ p → throws c = false.

End Init.

Definition getModule (name : string) (s : state) : option instance :=
  modules s !! name.

(** [destroy()]; no module of the script has a [destroy] method. *)
Definition destroy (s : state) : state :=
  State ∅ false (constructed s) (console s).

Definition never (c : class) : bool := false.

Definition only (bad : class) (c : class) : bool := bool_decide (c = bad).

(** The same root with [isInitialized] set to [b]. *)
Definition with_flag (b : bool) (s : state) : state :=
  State (modules s) b (constructed s) (console s).

(** [init()] guarded by [isInitialized], as the specification states it: a
    second call changes nothing. *)
Definition second_init_is_noop : Prop :=
  init never (init never create) = init never create.

(** Fault isolation as the specification states it: when one constructor
    raises, every other module is still registered. *)
Definition siblings_survive : Prop :=
  ∀ (bad : class) (key : string) (c : class),
    (key, c) ∈ plan → c ≠ bad → is_Some (getModule key (init (only bad) create)).

End ReniLandingPage.


(** * What the page shows of an animated element (lines 158-171) *)

Module AnimationPresentation.
Import Dom AnimationManager.

(** The presentation [animateElement] writes. *)
Definition revealed (e : element) (s : state) : Prop :=
  ∃ st, doc s !! e = Some st
        ∧ opacity st = "1" ∧ transform st = "translateY(0)"
        ∧ transition st = "opacity 0.6s ease-out, transform 0.6s ease-out".

(** The presentation [observeElements] writes, the transition being the
    one the element had in the document [d] the manager was built on. *)
Definition concealed (d : gmap element style) (e : element) (s : state) : Prop :=
  ∃ st0 st, d !! e = Some st0 ∧ doc s !! e = Some st
            ∧ opacity st = "0" ∧ transform st = "translateY(30px)"
            ∧ transition st = transition st0.

(** Every element [animateElement] was called on is revealed, and every
    other element is as in the state [s0]. *)
Definition tracks (s0 s : state) : Prop :=
  ∀ e, (e ∈ activations s → is_Some (doc s0 !! e) → revealed e s)
       ∧ (e ∉ activations s → doc s !! e = doc s0 !! e).

End AnimationPresentation.

(** * Hover on contact buttons (lines 228-242) *)

Module ContactHover.
Import Dom PointerEffects.

Inductive hover := Enter | Leave.

Definition is_leave (h : hover) : bool :=
  match h with
  | Leave => true
  | Enter => false
  end.

(** The two listeners [addHoverEffects] puts on a [.btn]. *)
Definition on_hover {num : Type} (w : window num) (button : style) (h : hover) : style :=
  match h with
  | Enter => btn_mouseenter w button
  | Leave => btn_mouseleave button
  end.

Definition hovers {num : Type} (w : window num) (hs : list hover) (button : style) : style :=
  fold_left (on_hover w) hs button.

End ContactHover.

(** * A turn of the event loop whose callbacks use the timer queue *)

Module EventLoop.
Import Timers.

Section Turn.
Context {K V : Type}.

(** [fire k st] runs closure [k] on the program's variables and the timer
    queue, from which the timer that carried [k] is already gone and whose
    clock shows the time the timer is run. *)
Variable fire : K → V * loop K → V * loop K.

(** Run the timers that fall due until [limit], earliest first, looking
    at the queue again after each one; [fuel] bounds their number. *)
Fixpoint drain (fuel limit : nat) (st : V * loop K) : V * loop K :=
  match fuel with
  | 0 => st
  | S fuel' =>
      match by_due (ripe limit (pending st.2)) with
      | [] => st
      | t :: _ =>
          drain fuel' limit
            (fire (job t)
               (st.1, Loop (Nat.max (now st.2) (due t)) (next_id st.2)
                           (remove_id (tid t) (pending st.2))))
      end
  end.

(** The running task ends and [d] time units pass.  The callbacks of the
    script only ever cancel timers, so the timers pending at the start
    bound the number of callbacks run. *)
Definition turn (d : nat) (st : V * loop K) : V * loop K :=
  let limit := now st.2 + d in
  let st' := drain (length (pending st.2)) limit st in
  (st'.1, Loop limit (next_id st'.2) (pending st'.2)).

End Turn.

End EventLoop.

(** * The debounce of the services script (lines 987-998) *)

Module ScrollDebounce.
Import Timers EventLoop.

Section Wrapper.
Context {A : Type}.
Variable wait : nat.

Inductive closure := Later (args : A).

Record vars := Vars { timeout : Js.handle; calls : list (nat * A) }.

Definition state : Type := vars * loop closure.

(** [debounce(func, wait)]: [let timeout;] *)
Definition debounce : state := (Vars Js.Undefined [], start).

(** [const later = () => { clearTimeout(timeout); func(...args); }] *)
Definition later (k : closure) (st : state) : state :=
  match k with
  | Later args =>
      let l1 := clearTimeout (timeout st.1) st.2 in
      (Vars (timeout st.1) (calls st.1 ++ [(now l1, args)]), l1)
  end.

(** [executedFunction(...args)] *)
Definition executedFunction (args : A) (st : state) : state :=
  let l1 := clearTimeout (timeout st.1) st.2 in
  let '(id, l2) := setTimeout (Later args) (long wait) l1 in
  (Vars (Js.Id id) (calls st.1), l2).

Definition step (e : event A) (st : state) : state :=
  match e with
  | Invoke a => executedFunction a st
  | Elapse d => turn later d st
  end.

Definition run (tr : list (event A)) (st : state) : state :=
  fold_left (λ s e, step e s) tr st.

Definition exported (k : closure) : Debounce.closure (A:=A) :=
  match k with
  | Later a => Debounce.Later a
  end.

(** The state of this debounce and the state of the exported one agree on
    the clock, the timer queue and the calls made; [timeout] names the
    pending timer when there is one. *)
Definition agrees (st : state) (ex : Debounce.state (A:=A)) : Prop :=
  now st.2 = now ex.2 ∧ next_id st.2 = next_id ex.2
  ∧ pending ex.2 = map (λ t, Timer (tid t) (due t) (exported (job t))) (pending st.2)
  ∧ calls st.1 = Debounce.calls ex.1
  ∧ (pending st.2 = [] ∨ ∃ t, pending st.2 = [t] ∧ timeout st.1 = Js.Id (tid t)).

End Wrapper.

End ScrollDebounce.

(** * Parallax on scroll (lines 775-800) *)

(** Unary minus and the comparison [a < b] of JavaScript numbers. *)
Class JsOrder (num : Type) := {
  neg : num → num;
  ltb : num → num → bool
}.

Module Parallax.

Section Ticks.
Context {num : Type} `{JsNumber num} `{JsOrder num}.

(** What [updateParallax] reads when it runs: [window.pageYOffset],
    [window.innerHeight], and the [top] and [bottom] of the bounding
    rectangle of [.services], [None] when the page has no such element. *)
Record view := View {
  pageYOffset : num;
  viewportHeight : num;
  services : option (num * num)
}.

(** [ticking]; the callbacks handed to [requestAnimationFrame] and not
    yet run, all of them [updateParallax]; the [backgroundPositionY] of the
    section; and the number of runs of [updateParallax]. *)
Record state := State {
  ticking : bool;
  requested : nat;
  backgroundPositionY : string;
  runs : nat
}.

(** [let ticking = false;] *)
Definition initial : state := State false 0 EmptyString 0.

Definition updateParallax (v : view) (s : state) : state :=
  let scrolled := pageYOffset v in
  let position :=
    match services v with
    | Some (top, bottom) =>
        if ltb top (viewportHeight v) && ltb (lit "0") bottom then
          show (neg (mul scrolled (lit "0.5"))) +:+ "px"
        else backgroundPositionY s
    | None => backgroundPositionY s
    end in
  State false (requested s) position (S (runs s)).

Definition requestTick (s : state) : state :=
  if negb (ticking s) then
    State true (S (requested s)) (backgroundPositionY s) (runs s)
  else s.

(** The browser paints a frame: it runs the callbacks requested so far. *)
Definition frame (v : view) (s : state) : state :=
  Nat.iter (requested s) (updateParallax v)
    (State (ticking s) 0 (backgroundPositionY s) (runs s)).

Inductive event := Tick | Frame (v : view).

Definition step (s : state) (e : event) : state :=
  match e with
  | Tick => requestTick s
  | Frame v => frame v s
  end.

Definition run (es : list event) : state := fold_left step es initial.

Definition is_tick (e : event) : bool :=
  match e with
  | Tick => true
  | Frame _ => false
  end.

(** At most one callback is requested, and exactly when [ticking]. *)
Definition settled (s : state) : Prop :=
  (ticking s = false ∧ requested s = 0) ∨ (ticking s = true ∧ requested s = 1).

End Ticks.

Arguments view : clear implicits.
Arguments event : clear implicits.

End Parallax.

(** * The observer of the service items (lines 607-636)

    The script builds this observer without testing for
    [IntersectionObserver]; the model is of a page on which it exists. *)

Module ServiceObserver.
Import Dom Timers.

(** What the script writes of a [.service-item]: inline style and classes. *)
Record item := Item { style : Dom.style; classes : gset string }.

(** The arrow function handed to [setTimeout] captures the entry. *)
Inductive closure := Activate (e : element).

(** The items of the page, the targets [serviceObserver] observes, and the
    runs of the timer callback: when, and on which element. *)
Record vars := Vars {
  items : gmap element item;
  observed : gset element;
  activated : list (nat * element)
}.

Definition state : Type := vars * loop closure.

Definition page (d : gmap element item) : state := (Vars d ∅ [], start).

Definition reveal (it : item) : item :=
  Item (set_transform "translateY(0)" (set_opacity "1" (style it)))
       ({["animate-in"]} ∪ classes it).

(** [() => { entry.target.classList.add('animate-in'); ... }] *)
Definition activate (k : closure) (t : nat) (v : vars) : vars :=
  match k with
  | Activate e => Vars (alter reveal e (items v)) (observed v) (activated v ++ [(t, e)])
  end.

(** The body of [entries.forEach((entry, index) => ...)]. *)
Definition on_entry (index : nat) (en : entry) (st : state) : state :=
  if isIntersecting en then
    (Vars (items st.1) (observed st.1 ∖ {[target en]}) (activated st.1),
     (setTimeout (Activate (target en)) (index * 100) st.2).2)
  else st.

Fixpoint each (index : nat) (entries : list entry) (st : state) : state :=
  match entries with
  | [] => st
  | en :: rest => each (S index) rest (on_entry index en st)
  end.

(** The callback given to [new IntersectionObserver]. *)
Definition callback (entries : list entry) (st : state) : state :=
  each 0 entries st.

(** The initial state of a service item (lines 632-634). *)
Definition conceal (it : item) : item :=
  Item (set_transition "all 0.6s cubic-bezier(0.4, 0, 0.2, 1)"
          (set_transform "translateY(30px)" (set_opacity "0" (style it))))
       (classes it).

(** The activations a batch delivered at time [t] leads to: the entry at
    rank [i], when intersecting, at [t + 100 * i]. *)
Fixpoint staggered (t i : nat) (entries : list entry) : list (nat * element) :=
  match entries with
  | [] => []
  | en :: rest =>
      (if isIntersecting en then [(t + i * 100, target en)] else [])
      ++ staggered t (S i) rest
  end.

(** The timers a batch registers, the first with id [id]. *)
Fixpoint timers_of (id t i : nat) (entries : list entry) : list (timer closure) :=
  match entries with
  | [] => []
  | en :: rest =>
      if isIntersecting en then
        Timer id (t + i * 100) (Activate (target en)) :: timers_of (S id) t (S i) rest
      else timers_of id t (S i) rest
  end.

End ServiceObserver.

(** * Feature detection (lines 452-477) *)

Module FeatureDetection.

(** [localStorage]: its entries, and whether [setItem] raises (storage
    disabled or full). *)
Record storage := Storage { entries : gmap string string; refuses : bool }.

(** What the probes look at: the data URL a canvas gives for an image
    type, whether [IntersectionObserver] is in [window] and [serviceWorker]
    in [navigator], and [localStorage]. *)
Record browser := Browser {
  toDataURL : string → string;
  intersectionObserver : bool;
  serviceWorker : bool;
  localStorage : storage
}.

(** The value returned: a boolean, or, for a name the table only inherits
    from [Object.prototype], whatever calling that inherited property
    gives. *)
Inductive value := Boolean (b : bool) | Inherited (name : string).

Section Probe.
(** Whether [Object.prototype] has a truthy property of that name. *)
Variable inherited : string → bool.

(** [s.indexOf(p) === 0] *)
Definition starts_with (p s : string) : bool := String.prefix p s.

(** The body of the [local-storage] probe: [setItem('test', 'test')],
    [removeItem('test')], [true]; [false] when something raises. *)
Definition probe_storage (b : browser) : value * browser :=
  if refuses (localStorage b) then (Boolean false, b)
  else
    (Boolean true,
     Browser (toDataURL b) (intersectionObserver b) (serviceWorker b)
             (Storage (delete "test" (<["test" := "test"]> (entries (localStorage b))))
                      (refuses (localStorage b)))).

(** [features[feature] ? features[feature]() : false] *)
Definition supportsFeature (feature : string) (b : browser) : value * browser :=
  if String.eqb feature "webp" then
    (Boolean (starts_with "data:image/webp" (toDataURL b "image/webp")), b)
  else if String.eqb feature "avif" then
    (Boolean (starts_with "data:image/avif" (toDataURL b "image/avif")), b)
  else if String.eqb feature "intersection-observer" then
    (Boolean (intersectionObserver b), b)
  else if String.eqb feature "service-worker" then
    (Boolean (serviceWorker b), b)
  else if String.eqb feature "local-storage" then probe_storage b
  else if inherited feature then (Inherited feature, b)
  else (Boolean false, b).

End Probe.

(** The names the table defines itself. *)
Definition own : list string :=
  ["webp"; "avif"; "intersection-observer"; "service-worker"; "local-storage"].

End FeatureDetection.

(** * PerformanceMonitor (lines 14-72) *)

(** Zero, addition, truthiness (neither 0 nor NaN) and [Math.round] of
    JavaScript numbers. *)
Class JsMath (num : Type) := {
  zero : num;
  add : num → num → num;
  nonzero : num → bool;
  round : num → num
}.

Module PerformanceMonitor.

Section Monitor.
Context {num : Type} `{JsNumber num} `{JsMath num}.

(** [window.location.hostname] *)
Variable hostname : string.

(** The entries the three observers receive. *)
Record paint := Paint { renderTime : num; loadTime : num }.
Record input := Input { processingStart : num; startTime : num }.
Record shift := Shift { hadRecentInput : bool; value : num }.

(** [this.metrics]; the local [clsValue] the third callback closes over;
    the entry types observed; the console. *)
Record state := State {
  metrics : gmap string num;
  clsValue : num;
  observing : list string;
  console : list string
}.

Definition log (line : string) (s : state) : state :=
  State (metrics s) (clsValue s) (observing s) (console s ++ [line]).

Definition record (name : string) (v : num) (s : state) : state :=
  State (<[name := v]> (metrics s)) (clsValue s) (observing s) (console s).

Definition logMetric (name : string) (v : num) (s : state) : state :=
  if String.eqb hostname "localhost" || String.eqb hostname "127.0.0.1" then
    log (name +:+ ": "
           +:+ show (round (if String.eqb name "CLS" then mul v (lit "1000") else v))
           +:+ (if String.eqb name "CLS" then EmptyString else "ms"))
        s
  else s.

(** The callback of [lcpObserver]; reading the last of no entries raises
    a [TypeError] ([None]). *)
Definition on_lcp (entries : list paint) (s : state) : option state :=
  match last entries with
  | None => None
  | Some lastEntry =>
      let v := if nonzero (renderTime lastEntry) then renderTime lastEntry
               else loadTime lastEntry in
      Some (logMetric "LCP" v (record "LCP" v s))
  end.

(** The callback of [fidObserver]. *)
Definition on_fid (entries : list input) (s : state) : option state :=
  match entries with
  | [] => None
  | entry :: _ =>
      let v := sub (processingStart entry) (startTime entry) in
      Some (logMetric "FID" v (record "FID" v s))
  end.

(** The callback of [clsObserver]. *)
Definition on_cls (entries : list shift) (s : state) : state :=
  let total :=
    fold_left (λ acc entry, if negb (hadRecentInput entry) then add acc (value entry) else acc)
              entries (clsValue s) in
  logMetric "CLS" total
    (record "CLS" total (State (metrics s) total (observing s) (console s))).

(** Whether, in this browser, [observe] raises for an entry type. *)
Variable raises : string → bool.

Inductive completion := Normal (s : state) | Thrown (s : state).

(** [new PerformanceObserver(...)] then [.observe({ type, buffered: true })] *)
Fixpoint observe_all (types : list string) (s : state) : completion :=
  match types with
  | [] => Normal s
  | type :: rest =>
      if raises type then Thrown s
      else observe_all rest
             (State (metrics s) (clsValue s) (observing s ++ [type]) (console s))
  end.

Definition types : list string :=
  ["largest-contentful-paint"; "first-input"; "layout-shift"].

(** [constructor()]: [this.metrics = {}], then [initializeObservers()]. *)
Definition create (hasPerformanceObserver : bool) : state :=
  let s := State ∅ zero [] [] in
  if negb hasPerformanceObserver then log "PerformanceObserver not supported" s
  else
    match observe_all types s with
    | Normal s' => s'
    | Thrown s' => log "Error setting up performance observers:" s'
    end.

Definition getMetrics (s : state) : gmap string num := metrics s.

(** The layout shifts delivered one batch after the other. *)
Definition shifts (batches : list (list shift)) (s : state) : state :=
  fold_left (λ s b, on_cls b s) batches s.

(** The values of the shifts without recent input. *)
Definition counted (entries : list shift) : list num :=
  map value (filter (λ entry, hadRecentInput entry = false) entries).

(** What the observers deliver. *)
Inductive delivery :=
| Paints (entries : list paint)
| Inputs (entries : list input)
| Shifts (entries : list shift).

Definition deliver (s : state) (d : delivery) : option state :=
  match d with
  | Paints entries => on_lcp entries s
  | Inputs entries => on_fid entries s
  | Shifts entries => Some (on_cls entries s)
  end.

(** Each observer runs its callback on its own.  A callback that raises
    does so before it has written anything, so the monitor is left as it
    was; the exception goes to the browser, and the deliveries that follow
    still run.  The result is the monitor and the number of exceptions
    that went to the browser; what the browser and the error listeners of
    the page then write is none of the monitor's lines in [console]. *)
Fixpoint deliveries (ds : list delivery) (s : state) : state * nat :=
  match ds with
  | [] => (s, 0)
  | d :: rest =>
      match deliver s d with
      | Some s' => deliveries rest s'
      | None => let r := deliveries rest s in (r.1, S r.2)
      end
  end.

(** The deliveries whose callback raises: the first and the second
    observer read a property of an entry that an empty list does not have. *)
Definition raising (d : delivery) : bool :=
  match d with
  | Paints [] | Inputs [] => true
  | _ => false
  end.

End Monitor.

Arguments state : clear implicits.
Arguments delivery : clear implicits.
Arguments shift : clear implicits.

End PerformanceMonitor.

(** * AccessibilityManager (lines 285-310) *)

Module Accessibility.
Import Dom.

(** ** [monitorFocusManagement] *)

Inductive input_event := KeyDown (key : string) | MouseDown.

(** The two listeners on [document], acting on [document.body.classList]. *)
Definition on_input (classes : gset string) (e : input_event) : gset string :=
  match e with
  | KeyDown key =>
      if String.eqb key "Tab" then {["keyboard-navigation"]} ∪ classes else classes
  | MouseDown => classes ∖ {["keyboard-navigation"]}
  end.

Definition inputs (es : list input_event) (classes : gset string) : gset string :=
  fold_left on_input es classes.

(** The events the listeners react to. *)
Definition relevant (e : input_event) : bool :=
  match e with
  | KeyDown key => String.eqb key "Tab"
  | MouseDown => true
  end.

(** ** [addARIAEnhancements] *)

(** A [.btn]: its [aria-label] attribute, if it has one, and its text. *)
Record button := Button { ariaLabel : option string; textContent : string }.

Section Labels.
(** [String.prototype.trim] *)
Variable trim : string → string.

(** [if (!button.hasAttribute('aria-label')) { const text = ...; if (text) ... }] *)
Definition label (b : button) : button :=
  match ariaLabel b with
  | Some _ => b
  | None =>
      let text := trim (textContent b) in
      match text with
      | EmptyString => b
      | _ => Button (Some text) (textContent b)
      end
  end.

(** [iconButtons.forEach(icon => ...)]: for each [svg] inside a [.btn], the
    button [icon.closest('.btn')] gives. *)
Definition addARIAEnhancements (icons : list (option element))
    (d : gmap element button) : gmap element button :=
  fold_left (λ d icon,
      match icon with
      | Some b => alter label b d
      | None => d
      end)
    icons d.

End Labels.

End Accessibility.

(** * Touch listeners of the services script (lines 964-981) *)

Module TouchListeners.
Import Dom.

(** A registered listener: the element, the event type, and the function
    object, told apart by the rank of its creation. *)
Record listener := Listener { on : element; type : string; fn : nat }.

Global Instance listener_eq_dec : EqDecision listener.
Proof. solve_decision. Defined.

Record state := State { listeners : list listener; functions : nat }.

(** [addEventListener] ignores a listener that is already registered with
    the same type and the same function. *)
Definition addEventListener (l : listener) (ls : list listener) : list listener :=
  if bool_decide (l ∈ ls) then ls else ls ++ [l].

(** [checkMobileView()]; each [function() {...}] expression it evaluates
    makes a new function object. *)
Definition checkMobileView (innerWidth : Z) (serviceItems : list element)
    (s : state) : state :=
  if (innerWidth <=? 768)%Z then
    fold_left (λ s item,
        State (addEventListener (Listener item "touchend" (S (functions s)))
                 (addEventListener (Listener item "touchstart" (functions s))
                    (listeners s)))
              (S (S (functions s))))
      serviceItems s
  else s.

(** The call at load and the calls on [resize], with the width of the
    window at each. *)
Definition checks (widths : list Z) (serviceItems : list element) (s : state) : state :=
  fold_left (λ s w, checkMobileView w serviceItems s) widths s.

(** The listeners of a type on an element. *)
Definition registered (e : element) (ty : string) (s : state) : list listener :=
  filter (λ l, on l = e ∧ type l = ty) (listeners s).

(** Every function of a registered listener was created before. *)
Definition fresh (s : state) : Prop :=
  ∀ l, l ∈ listeners s → fn l < functions s.

End TouchListeners.

(** * Pointer moves and leaves on one surface (lines 545-558, 663-687) *)

Module PointerSequences.
Import Dom PointerEffects.

Section Surfaces.
Context {num : Type} `{JsNumber num}.

Inductive pointer := Move (r : rect (num:=num)) (e : mouse (num:=num)) | Away.

(** The two listeners of a [.hero-button]. *)
Definition on_button (w : window num) (st : style) (p : pointer) : style :=
  match p with
  | Move r e => magnetic_mousemove w r e st
  | Away => magnetic_mouseleave st
  end.

(** The [mousemove] and [mouseleave] listeners of a [.service-item]. *)
Definition on_item (w : window num) (st : style) (p : pointer) : style :=
  match p with
  | Move r e => tilt_mousemove w r e st
  | Away => tilt_mouseleave st
  end.

End Surfaces.

Arguments pointer : clear implicits.

End PointerSequences.

(** * Numbers kept as the expressions that compute them

    An instance of the number interfaces that evaluates nothing, on which
    the models run on concrete inputs. *)

Module Symbolic.

Definition binary (op a b : string) : string :=
  "(" +:+ a +:+ " " +:+ op +:+ " " +:+ b +:+ ")".

Definition number : JsNumber string :=
  {| lit := λ s, s;
     sub := binary "-";
     mul := binary "*";
     div := binary "/";
     show := λ s, s |}.

Definition math : JsMath string :=
  {| zero := "0";
     add := binary "+";
     nonzero := λ s, negb (String.eqb s "0");
     round := λ s, "Math.round(" +:+ s +:+ ")" |}.

End Symbolic.

(** * Click ripple on a service item (lines 689-708) *)

(** [Math.max] of two JavaScript numbers. *)
Class JsMax (num : Type) := { max : num → num → num }.

Module Ripple.
Import Timers PointerEffects.

Section Item.
Context {num : Type} `{JsNumber num} `{JsMax num}.

(** A [span] of class [ripple-effect]: the rank of its creation, which
    tells it from the others, and the four style properties the handler
    writes. *)
Record ripple := Span {
  rid : nat;
  width : string;
  height : string;
  left : string;
  top : string
}.

(** [() => { ripple.remove(); }] *)
Inductive closure := Remove (id : nat).

(** The ripples that are children of the item, in document order, and the
    number of spans created. *)
Record vars := Vars { children : list ripple; made : nat }.

Definition state : Type := vars * loop closure.

Definition initial : state := (Vars [] 0, start).

Definition remove (k : closure) (t : nat) (v : vars) : vars :=
  match k with
  | Remove id => Vars (filter (λ c, rid c ≠ id) (children v)) (made v)
  end.

(** The [click] listener. *)
Definition click (r : rect (num:=num)) (e : mouse (num:=num)) (st : state) : state :=
  let size := max (PointerEffects.width r) (PointerEffects.height r) in
  let x := sub (sub (clientX e) (PointerEffects.left r)) (div size (lit "2")) in
  let y := sub (sub (clientY e) (PointerEffects.top r)) (div size (lit "2")) in
  let span := Span (made st.1) (show size +:+ "px") (show size +:+ "px")
                   (show x +:+ "px") (show y +:+ "px") in
  (Vars (children st.1 ++ [span]) (S (made st.1)),
   (setTimeout (Remove (made st.1)) 600 st.2).2).

Inductive event := Click (r : rect (num:=num)) (e : mouse (num:=num)) | Wait (d : nat).

Definition step (st : state) (ev : event) : state :=
  match ev with
  | Click r e => click r e st
  | Wait d => elapse remove d st
  end.

Definition run (es : list event) : state := fold_left step es initial.

Definition removes (t : timer closure) : nat :=
  match job t with
  | Remove id => id
  end.

(** The ripples in the item are those whose removal is pending, in the
    same order; every removal is due within 600. *)
Definition paired (st : state) : Prop :=
  map rid (children st.1) = map removes (pending st.2)
  ∧ NoDup (map removes (pending st.2))
  ∧ Forall (λ t, removes t < made st.1 ∧ due t ≤ now st.2 + 600) (pending st.2).

End Item.

Arguments event : clear implicits.

End Ripple.

(** * The service items under the listeners of the services script
      (lines 613-636, 658-709, 964-981)

    Everything the services script does to a [.service-item]: the observer
    and its timers, the [mousemove], [mouseleave] and [click] listeners,
    and the touch listeners [checkMobileView] adds at load and on
    [resize].  Other components of the page that write to the same
    elements, [AnimationManager] among them, are not part of this model. *)

Module ServiceItems.
Import Dom Timers PointerEffects PointerSequences.

Section Items.
Context {num : Type} `{JsNumber num}.
Variable w : window num.

(** The closures handed to [setTimeout]: by the observer callback (line
    619); by the [click] listener (line 705), to remove the span it has
    appended; by a [touchend] listener (line 972). *)
Inductive closure :=
| Activate (e : element)
| Unripple (e : element)
| Untouch (e : element).

(** The constant [serviceItems]; style and classes of the elements of the
    document; the targets [serviceObserver] observes; the touch listeners
    registered so far. *)
Record vars := Vars {
  serviceItems : list element;
  items : gmap element ServiceObserver.item;
  observed : gset element;
  touch : TouchListeners.state
}.

Definition state : Type := vars * loop closure.

Definition write (f : ServiceObserver.item → ServiceObserver.item) (e : element)
    (v : vars) : vars :=
  Vars (serviceItems v) (alter f e (items v)) (observed v) (touch v).

Definition restyle (f : style → style) (it : ServiceObserver.item)
    : ServiceObserver.item :=
  ServiceObserver.Item (f (ServiceObserver.style it)) (ServiceObserver.classes it).

(** [classList.add(c)] and [classList.remove(c)] *)
Definition add_class (c : string) (it : ServiceObserver.item) : ServiceObserver.item :=
  ServiceObserver.Item (ServiceObserver.style it) ({[c]} ∪ ServiceObserver.classes it).
Definition remove_class (c : string) (it : ServiceObserver.item) : ServiceObserver.item :=
  ServiceObserver.Item (ServiceObserver.style it) (ServiceObserver.classes it ∖ {[c]}).

(** What running a timer callback does.  The callback of the [click]
    listener removes the span, which is no part of the item's style or
    classes. *)
Definition fire (k : closure) (t : nat) (v : vars) : vars :=
  match k with
  | Activate e => write ServiceObserver.reveal e v
  | Unripple e => v
  | Untouch e => write (remove_class "touch-active") e v
  end.

(** The body of [entries.forEach((entry, index) => ...)]. *)
Definition on_entry (index : nat) (en : entry) (st : state) : state :=
  if isIntersecting en then
    (Vars (serviceItems st.1) (items st.1) (observed st.1 ∖ {[target en]}) (touch st.1),
     (setTimeout (Activate (target en)) (index * 100) st.2).2)
  else st.

Fixpoint each (index : nat) (entries : list entry) (st : state) : state :=
  match entries with
  | [] => st
  | en :: rest => each (S index) rest (on_entry index en st)
  end.

(** The callback given to [new IntersectionObserver]. *)
Definition callback (entries : list entry) (st : state) : state :=
  each 0 entries st.

(** The listeners of lines 664-708 are on the elements of [serviceItems]. *)
Definition listens (e : element) (v : vars) : bool :=
  bool_decide (e ∈ serviceItems v).

(** [mousemove] *)
Definition mousemove (e : element) (r : rect) (m : mouse) (st : state) : state :=
  if listens e st.1 then (write (restyle (tilt_mousemove w r m)) e st.1, st.2) else st.

(** [mouseleave] *)
Definition mouseleave (e : element) (st : state) : state :=
  if listens e st.1 then (write (restyle tilt_mouseleave) e st.1, st.2) else st.

(** [click]: the listener styles and appends a new span and asks for its
    removal; it writes neither the style nor the classes of the item. *)
Definition click (e : element) (st : state) : state :=
  if listens e st.1 then (st.1, (setTimeout (Unripple e) 600 st.2).2) else st.

(** [touchstart]: each listener registered on the element runs. *)
Definition touchstart (e : element) (st : state) : state :=
  (fold_left (λ v _, write (add_class "touch-active") e v)
             (TouchListeners.registered e "touchstart" (touch st.1)) st.1,
   st.2).

(** [touchend]: each listener registered on the element asks for the
    removal of the class 300 later. *)
Definition touchend (e : element) (st : state) : state :=
  fold_left (λ st _, (st.1, (setTimeout (Untouch e) 300 st.2).2))
            (TouchListeners.registered e "touchend" (touch st.1)) st.

(** [resize]: [checkMobileView()] *)
Definition resize (innerWidth : Z) (st : state) : state :=
  (Vars (serviceItems st.1) (items st.1) (observed st.1)
        (TouchListeners.checkMobileView innerWidth (serviceItems st.1) (touch st.1)),
   st.2).

Inductive event :=
| Batch (entries : list entry)
| Wait (d : nat)
| MouseMove (e : element) (r : rect (num:=num)) (m : mouse (num:=num))
| MouseLeave (e : element)
| Click (e : element)
| TouchStart (e : element)
| TouchEnd (e : element)
| Resize (innerWidth : Z).

Definition step (st : state) (ev : event) : state :=
  match ev with
  | Batch entries => callback entries st
  | Wait d => elapse fire d st
  | MouseMove e r m => mousemove e r m st
  | MouseLeave e => mouseleave e st
  | Click e => click e st
  | TouchStart e => touchstart e st
  | TouchEnd e => touchend e st
  | Resize width => resize width st
  end.

Definition run (es : list event) (st : state) : state := fold_left step es st.

(** The script at load, on a document [d] whose [.service-item] elements
    are [serviceItems] and in a window [innerWidth] wide: the initial state
    of the items (lines 631-636) and the first [checkMobileView()]. *)
Definition load (d : gmap element ServiceObserver.item) (serviceItems : list element)
    (innerWidth : Z) : state :=
  (Vars serviceItems
        (fold_left (λ m e, alter ServiceObserver.conceal e m) serviceItems d)
        (list_to_set serviceItems)
        (TouchListeners.checkMobileView innerWidth serviceItems
           (TouchListeners.State [] 0)),
   start).

(** What the timer callback of the observer gives an item for good. *)
Definition shown (it : ServiceObserver.item) : Prop :=
  opacity (ServiceObserver.style it) = "1"
  ∧ "animate-in" ∈ ServiceObserver.classes it.

(** What the script at load gives an item, whose classes were those of
    [it0], for as long as the observer does not report it. *)
Definition hidden (it0 it : ServiceObserver.item) : Prop :=
  opacity (ServiceObserver.style it) = "0"
  ∧ transition (ServiceObserver.style it) = "all 0.6s cubic-bezier(0.4, 0, 0.2, 1)"
  ∧ ∀ c, c ≠ "touch-active" →
         (c ∈ ServiceObserver.classes it ↔ c ∈ ServiceObserver.classes it0).

(** The event is no move or leave of the pointer on [e]. *)
Definition away (e : element) (ev : event) : Prop :=
  match ev with
  | MouseMove x _ _ | MouseLeave x => x ≠ e
  | _ => True
  end.

(** The pointer listeners of [e], when the event runs them, keep [Q]. *)
Definition respects (Q : ServiceObserver.item → Prop) (e : element) (ev : event) : Prop :=
  match ev with
  | MouseMove x r m => x = e → ∀ it, Q it → Q (restyle (tilt_mousemove w r m) it)
  | MouseLeave x => x = e → ∀ it, Q it → Q (restyle tilt_mouseleave it)
  | _ => True
  end.

(** No entry of the events reports [e] as intersecting. *)
Definition unreported (e : element) (es : list event) : Prop :=
  ∀ entries en, Batch entries ∈ es → en ∈ entries → target en = e →
                isIntersecting en = false.

(** The item satisfies [Q]. *)
Definition holds (Q : ServiceObserver.item → Prop) (e : element) (v : vars) : Prop :=
  ∃ it, items v !! e = Some it ∧ Q it.

(** The item satisfies [Q], or a timer due by [D] is pending that will
    make it so. *)
Definition on_its_way (Q : ServiceObserver.item → Prop) (D : nat) (e : element)
    (st : state) : Prop :=
  is_Some (items st.1 !! e)
  ∧ (holds Q e st.1 ∨ ∃ t, t ∈ pending st.2 ∧ job t = Activate e ∧ due t ≤ D).

(** No pending timer will activate [e]. *)
Definition dormant (e : element) (st : state) : Prop :=
  ∀ x, x ∈ pending st.2 → job x ≠ Activate e.

End Items.

Arguments event : clear implicits.

End ServiceItems.

(** * Properties *)

(** ** The timer queue with at most one timer pending *)

Module TimersFacts.
Import Timers.

Section Queue.
Context {K S : Type}.
Variable fire : K → nat → S → S.

Lemma elapse_none (d : nat) (s : S) (l : loop K) :
  pending l = [] →
  elapse fire d (s, l) = (s, Loop (now l + d) (next_id l) []).
Proof. intros E. unfold elapse. simpl. rewrite E. reflexivity. Qed.

Lemma elapse_ripe (d : nat) (s : S) (l : loop K) (t : timer K) :
  pending l = [t] → due t ≤ now l + d →
  elapse fire d (s, l)
  = (fire (job t) (Nat.max (now l) (due t)) s, Loop (now l + d) (next_id l) []).
Proof.
  intros E Hd. unfold elapse. simpl. rewrite E. simpl.
  apply Nat.leb_le in Hd. rewrite Hd. reflexivity.
Qed.

Lemma elapse_unripe (d : nat) (s : S) (l : loop K) (t : timer K) :
  pending l = [t] → now l + d < due t →
  elapse fire d (s, l) = (s, Loop (now l + d) (next_id l) [t]).
Proof.
  intros E Hd. unfold elapse. simpl. rewrite E. simpl.
  apply Nat.leb_gt in Hd. rewrite Hd. reflexivity.
Qed.

End Queue.

Lemma long_honoured (d : nat) : honoured d → long d = d.
Proof.
  unfold honoured, long. intros Hd.
  rewrite Z.mod_small by lia.
  destruct (Z.ltb_spec (Z.of_nat d) (2 ^ 31)) as [_|Hge]; [apply Nat2Z.id | lia].
Qed.

Lemma long_range (d : nat) : honoured (long d).
Proof.
  unfold honoured, long. cbv zeta.
  destruct (Z.ltb_spec (Z.of_nat d mod 2 ^ 32) (2 ^ 31)) as [Hlt|_]; [|reflexivity].
  rewrite Z2Nat.id; [exact Hlt | apply Z.mod_pos_bound; lia].
Qed.

Lemma long_idem (d : nat) : long (long d) = long d.
Proof. apply long_honoured, long_range. Qed.

Lemma long_overflow : long overflow = 0.
Proof. unfold long, overflow. rewrite Z2Nat.id by lia. reflexivity. Qed.

Lemma below_overflow (n : nat) : honoured n → n < overflow.
Proof. unfold honoured, overflow. lia. Qed.

Lemma stamps_app {A : Type} (tr1 tr2 : list (event A)) (t : nat) :
  stamps (tr1 ++ tr2) t = stamps tr1 t ++ stamps tr2 (horizon tr1 t).
Proof.
  revert t. induction tr1 as [|[a|d] tr1 IH]; intros t; simpl; auto.
  rewrite IH. reflexivity.
Qed.

Lemma stamps_from {A : Type} (tr : list (event A)) (t : nat) :
  Forall (λ p, t ≤ p.1) (stamps tr t).
Proof.
  revert t. induction tr as [|[a|d] tr IH]; intros t; simpl.
  - constructor.
  - constructor; [simpl; lia | apply IH].
  - eapply Forall_impl; [apply IH | simpl; intros; lia].
Qed.

Lemma horizon_from {A : Type} (tr : list (event A)) (t : nat) :
  t ≤ horizon tr t.
Proof.
  revert t. induction tr as [|[a|d] tr IH]; intros t; simpl; auto.
  specialize (IH (t + d)). lia.
Qed.

End TimersFacts.

(** ** debounce *)

Module DebounceFacts.
Import Timers TimersFacts Debounce.

Section Wrapper.
Context {A : Type}.
Variable wait : nat.
Variable immediate : bool.

Local Abbreviation invoke := (executedFunction (A:=A) wait immediate).
Local Abbreviation consistent := (consistent (A:=A) wait).
Local Abbreviation tick := (elapse (later (A:=A) immediate)).

Lemma debounce_consistent : consistent debounce.
Proof. split; [simpl; lia | left; split; reflexivity]. Qed.

(** The wrapper depends on its window only through the delay the host
    makes of it. *)
Lemma invoke_long (a : A) (st : state) :
  invoke a st = executedFunction (long wait) immediate a st.
Proof. unfold executedFunction. rewrite long_idem. reflexivity. Qed.

Lemma debounce_run_long (tr : list (event A)) (st : state) :
  run wait immediate tr st = run (long wait) immediate tr st.
Proof.
  revert st. induction tr as [|[a|d] tr IH]; intros st; [reflexivity| |].
  - change (run wait immediate (Invoke a :: tr) st)
      with (run wait immediate tr (invoke a st)).
    rewrite invoke_long. apply IH.
  - apply IH.
Qed.

Lemma elapse_idle (d : nat) (st : state) :
  idle st →
  tick d st = (st.1, Loop (now st.2 + d) (next_id st.2) []).
Proof. destruct st as [v l]. intros [Hp _]. apply elapse_none, Hp. Qed.

Lemma elapse_armed_fires (d t0 : nat) (a : A) (st : state) :
  armed wait t0 a st → t0 + wait ≤ now st.2 + d →
  tick d st
  = (Vars Js.Null (if negb immediate then calls st.1 ++ [(t0 + wait, a)] else calls st.1),
     Loop (now st.2 + d) (next_id st.2) []).
Proof.
  destruct st as [v l]. intros (id & Hp & _ & _ & Hn & _) Hd. simpl in *.
  rewrite (elapse_ripe _ d v l _ Hp Hd). simpl.
  replace (Nat.max (now l) (t0 + wait)) with (t0 + wait) by lia. reflexivity.
Qed.

Lemma elapse_armed_waits (d t0 : nat) (a : A) (st : state) :
  armed wait t0 a st → now st.2 + d < t0 + wait →
  tick d st
  = (st.1, Loop (now st.2 + d) (next_id st.2) (pending st.2))
  ∧ armed wait t0 a (tick d st).
Proof.
  destruct st as [v l]. intros (id & Hp & Ht & Hid & Hn & Hz) Hd. simpl in *.
  rewrite (elapse_unripe _ d v l _ Hp Hd). rewrite Hp. split; [reflexivity|].
  exists id. simpl. repeat split; try lia; assumption.
Qed.

Lemma elapse_consistent (d : nat) (st : state) :
  consistent st → consistent (tick d st).
Proof.
  intros [Hi [Hidle|(t0 & a & Ha)]].
  - rewrite (elapse_idle d st Hidle). split; [simpl; lia|]. left. split; [reflexivity|].
    simpl. apply Hidle.
  - destruct (le_lt_dec (t0 + wait) (now st.2 + d)) as [Hd|Hd].
    + rewrite (elapse_armed_fires d t0 a st Ha Hd). split; [simpl; lia|].
      left. split; reflexivity.
    + destruct (elapse_armed_waits d t0 a st Ha Hd) as [E Ha']. split.
      * rewrite E. simpl. lia.
      * right. eauto.
Qed.

Section Kept.
(** The window is a delay the host keeps. *)
Hypothesis kept : long wait = wait.

(** Whatever was pending, an invocation leaves exactly its own timer. *)
Lemma invoke_effect (a : A) (st : state) :
  consistent st →
  invoke a st
  = (Vars (Js.Id (next_id st.2))
          (if immediate && negb (Js.truthy (timeout st.1))
           then calls st.1 ++ [(now st.2, a)] else calls st.1),
     Loop (now st.2) (S (next_id st.2))
          [Timer (next_id st.2) (now st.2 + wait) (Later a)]).
Proof.
  destruct st as [[h cs] [n i ps]]. intros [Hi [[Hp Ht]|(t0 & a0 & id & Hp & Ht & Hid & _)]];
    simpl in *; subst.
  - unfold executedFunction. rewrite kept. simpl. destruct h; reflexivity.
  - unfold executedFunction. rewrite kept. simpl. rewrite Nat.eqb_refl. reflexivity.
Qed.

Lemma invoke_armed (a : A) (st : state) :
  consistent st → armed wait (now st.2) a (invoke a st).
Proof.
  intros Hc. rewrite (invoke_effect a st Hc). destruct Hc as [Hi _].
  exists (next_id st.2). simpl. repeat split; try lia; reflexivity.
Qed.

Lemma invoke_consistent (a : A) (st : state) :
  consistent st → consistent (invoke a st).
Proof.
  intros Hc. split.
  - rewrite (invoke_effect a st Hc). simpl. lia.
  - right. exists (now st.2), a. apply invoke_armed, Hc.
Qed.

Lemma step_consistent (e : event A) (st : state) :
  consistent st → consistent (step wait immediate e st).
Proof. destruct e; simpl; [apply invoke_consistent | apply elapse_consistent]. Qed.

Lemma run_consistent (tr : list (event A)) (st : state) :
  consistent st → consistent (run wait immediate tr st).
Proof.
  revert st. induction tr as [|e tr IH]; intros st Hc; simpl; [assumption|].
  apply IH, step_consistent, Hc.
Qed.

End Kept.

Lemma run_now (tr : list (event A)) (st : state) :
  now (run wait immediate tr st).2 = horizon tr (now st.2).
Proof.
  revert st. induction tr as [|[a|d] tr IH]; intros st; simpl; [reflexivity| |].
  - rewrite IH. destruct st as [[h cs] l]. unfold executedFunction. simpl.
    destruct h; reflexivity.
  - rewrite IH. reflexivity.
Qed.

Lemma run_snoc (tr : list (event A)) (e : event A) (st : state) :
  run wait immediate (tr ++ [e]) st = step wait immediate e (run wait immediate tr st).
Proof. unfold run. rewrite fold_left_app. reflexivity. Qed.

Lemma backlog_idle (st : state (A:=A)) : idle st → backlog wait st = [].
Proof. intros [Hp _]. unfold backlog. rewrite Hp. reflexivity. Qed.

Lemma backlog_armed (t0 : nat) (a : A) (st : state) :
  armed wait t0 a st → backlog wait st = [(t0, a)].
Proof.
  intros (id & Hp & _). unfold backlog. rewrite Hp. simpl.
  replace (t0 + wait - wait) with t0 by lia. reflexivity.
Qed.

End Wrapper.

(** *** Trailing edge: [immediate] falsy *)

Section Trailing.
Context {A : Type}.
Variable wait : nat.
Hypothesis positive : 0 < wait.

Local Abbreviation consistent := (consistent (A:=A) wait).

Lemma quiet_settled (t0 T0 T : nat) (a : A) (inv : list (nat * A)) :
  t0 + wait ≤ T0 → Forall (λ p, T0 ≤ p.1) inv → T0 ≤ T →
  quiet_calls wait ((t0, a) :: inv) T = (t0 + wait, a) :: quiet_calls wait inv T.
Proof.
  intros H0 Hinv HT. simpl. destruct inv as [|[t' a'] inv].
  - replace (t0 + wait <=? T) with true by (symmetry; apply Nat.leb_le; lia).
    reflexivity.
  - inversion Hinv as [|? ? Ht' _]; subst. simpl in Ht'.
    replace (t0 + wait <=? t') with true by (symmetry; apply Nat.leb_le; lia).
    reflexivity.
Qed.

Lemma quiet_superseded (t0 t : nat) (a a' : A) (inv : list (nat * A)) (T : nat) :
  t < t0 + wait →
  quiet_calls wait ((t0, a) :: (t, a') :: inv) T = quiet_calls wait ((t, a') :: inv) T.
Proof.
  intros Hlt. cbn [quiet_calls].
  replace (t0 + wait <=? t) with false by (symmetry; apply Nat.leb_gt; lia).
  reflexivity.
Qed.

Lemma armed_early (t0 : nat) (a : A) (st : state) :
  armed wait t0 a st → now st.2 < t0 + wait.
Proof. intros (id & _ & _ & _ & Hn & Hz). lia. Qed.

(** The window is a delay the host keeps. *)
Hypothesis kept : long wait = wait.

Lemma trailing_calls_from (tr : list (event A)) (st : state) :
  consistent st →
  calls (run wait false tr st).1
  = calls st.1
    ++ quiet_calls wait (backlog wait st ++ stamps tr (now st.2)) (horizon tr (now st.2)).
Proof.
  revert st. induction tr as [|[a|d] tr IH]; intros st Hc.
  - simpl. rewrite app_nil_r. destruct Hc as [_ [Hi|(t0 & a & Ha)]].
    + rewrite (backlog_idle wait st Hi). simpl. rewrite app_nil_r. reflexivity.
    + rewrite (backlog_armed wait t0 a st Ha). simpl.
      pose proof (armed_early t0 a st Ha).
      replace (t0 + wait <=? now st.2) with false by (symmetry; apply Nat.leb_gt; lia).
      rewrite app_nil_r. reflexivity.
  - change (run wait false (Invoke a :: tr) st)
      with (run wait false tr (executedFunction wait false a st)).
    rewrite (IH _ (invoke_consistent wait false kept a st Hc)).
    rewrite (backlog_armed wait _ _ _ (invoke_armed wait false kept a st Hc)).
    rewrite (invoke_effect wait false kept a st Hc). simpl.
    destruct Hc as [_ [Hi|(t0 & a0 & Ha)]].
    + rewrite (backlog_idle wait st Hi). reflexivity.
    + rewrite (backlog_armed wait t0 a0 st Ha).
      pose proof (armed_early t0 a0 st Ha).
      change ([(t0, a0)] ++ (now st.2, a) :: stamps tr (now st.2))
        with ((t0, a0) :: (now st.2, a) :: stamps tr (now st.2)).
      rewrite quiet_superseded by lia. reflexivity.
  - change (run wait false (Elapse d :: tr) st)
      with (run wait false tr (elapse (later false) d st)).
    rewrite (IH _ (elapse_consistent wait false d st Hc)).
    change (stamps (Elapse d :: tr) (now st.2)) with (stamps tr (now st.2 + d)).
    change (horizon (Elapse d :: tr) (now st.2)) with (horizon tr (now st.2 + d)).
    destruct Hc as [_ [Hi|(t0 & a0 & Ha)]].
    + rewrite (backlog_idle wait st Hi).
      rewrite (elapse_idle false d st Hi). reflexivity.
    + rewrite (backlog_armed wait t0 a0 st Ha).
      destruct (le_lt_dec (t0 + wait) (now st.2 + d)) as [Hd|Hd].
      * rewrite (elapse_armed_fires wait false d t0 a0 st Ha Hd). cbn [app fst snd now calls negb].
        rewrite (quiet_settled t0 (now st.2 + d)); auto using stamps_from, horizon_from.
        rewrite <- app_assoc. reflexivity.
      * destruct (elapse_armed_waits wait false d t0 a0 st Ha Hd) as [E Ha'].
        rewrite (backlog_armed wait t0 a0 _ Ha'). rewrite E. reflexivity.
Qed.

End Trailing.

(** C2, as the specification states it, fails for a window of 2^31, which
    the host makes a delay of 0: after one invocation and 50 time units
    the callback has run, where the quiet-period rule has no call yet. *)
Lemma overflowing_window_is_not_waited_for :
  0 < overflow
  ∧ calls (run overflow false [Invoke 1; Elapse 50] debounce).1 = [(0, 1)]
  ∧ quiet_calls overflow (stamps [Invoke 1; Elapse 50] 0) (horizon [Invoke 1; Elapse 50] 0)
    = []
  ∧ ¬ quiet_period overflow.
Proof.
  assert (calls (run overflow false [Invoke 1; Elapse 50] debounce).1 = [(0, 1)]) as Hrun
    by (rewrite debounce_run_long, long_overflow; reflexivity).
  assert (quiet_calls overflow (stamps [Invoke 1; Elapse 50] 0)
            (horizon [Invoke 1; Elapse 50] 0) = [(0, 1)] → False) as Hrule.
  { pose proof (below_overflow 50 eq_refl) as Hbig. revert Hbig.
    generalize overflow. intros w Hbig. cbn [stamps horizon quiet_calls].
    replace (0 + w <=? 0 + 50) with false by (symmetry; apply Nat.leb_gt; lia).
    discriminate. }
  split; [apply below_overflow; reflexivity|]. split; [exact Hrun|]. split.
  - pose proof (below_overflow 50 eq_refl) as Hbig. revert Hbig.
    generalize overflow. intros w Hbig. cbn [stamps horizon quiet_calls].
    replace (0 + w <=? 0 + 50) with false by (symmetry; apply Nat.leb_gt; lia).
    reflexivity.
  - intros Hq. apply Hrule. rewrite <- (Hq [Invoke 1; Elapse 50]). exact Hrun.
Qed.

(** C2, amended.  With [immediate] falsy and a window [0 < wait < 2^31], in
    every state the wrapper can reach: the real calls made so far are
    exactly those the quiet-period rule gives (one call per invocation that
    was followed by [wait] time units without another invocation, made
    [wait] after it and with its arguments); and an invocation calls
    nothing itself, forgets whatever timer was pending and leaves a single
    timer due [wait] later that carries its own arguments. *)
Theorem debounce_trailing_edge {A : Type} (wait : nat) (tr : list (event A)) :
  0 < wait → honoured wait →
  let st := run wait false tr debounce in
  calls st.1 = quiet_calls wait (stamps tr 0) (horizon tr 0)
  ∧ ∀ a : A,
      let st' := executedFunction wait false a st in
      pending st'.2 = [Timer (next_id st.2) (now st.2 + wait) (Later a)]
      ∧ timeout st'.1 = Js.Id (next_id st.2)
      ∧ calls st'.1 = calls st.1.
Proof.
  intros Hw Hk st. apply long_honoured in Hk. split.
  - unfold st.
    rewrite (trailing_calls_from wait Hw Hk tr debounce (debounce_consistent wait)).
    reflexivity.
  - intros a st'. unfold st'.
    rewrite (invoke_effect wait false Hk a st
               (run_consistent wait false Hk tr _ (debounce_consistent wait))).
    simpl. auto.
Qed.

Lemma debounce_trailing_edge_witness :
  0 < 100 ∧ honoured 100
  ∧ calls (run 100 false
             [Invoke 1; Elapse 20; Invoke 2; Elapse 30; Invoke 3; Elapse 100;
              Invoke 4; Elapse 99] debounce).1
    = [(150, 3)].
Proof.
  split; [lia|]. split; [reflexivity|].
  exact (proj1 (debounce_trailing_edge 100
    [Invoke 1; Elapse 20; Invoke 2; Elapse 30; Invoke 3; Elapse 100;
     Invoke 4; Elapse 99] ltac:(lia) eq_refl)).
Defined.

(** The specification's example: ten invocations within 50 time units under
    a window of 100 give one real call, 100 after the last invocation. *)
Example debounce_burst_of_ten :
  calls (run 100 false
           [Invoke 1; Elapse 5; Invoke 2; Elapse 5; Invoke 3; Elapse 5; Invoke 4;
            Elapse 5; Invoke 5; Elapse 5; Invoke 6; Elapse 5; Invoke 7; Elapse 5;
            Invoke 8; Elapse 5; Invoke 9; Elapse 5; Invoke 10; Elapse 200]
           debounce).1
  = [(145, 10)].
Proof. vm_compute. reflexivity. Qed.

(** *** Leading edge: [immediate] truthy *)

Section Leading.
Context {A : Type}.
Variable wait : nat.

Local Abbreviation consistent := (consistent (A:=A) wait).

Lemma follows_start : follows (A:=A) wait None debounce.
Proof. left. split; [split; reflexivity | discriminate]. Qed.

Lemma pending_idle (st : state (A:=A)) :
  consistent st → pending st.2 = [] → idle st.
Proof.
  intros [_ [Hi|(t0 & a & id & Hp & _)]] E; [assumption|congruence].
Qed.

Lemma pending_armed (st : state (A:=A)) :
  consistent st → pending st.2 ≠ [] → ∃ t0 a, armed wait t0 a st.
Proof.
  intros [_ [[Hp _]|Ha]] E; [congruence|assumption].
Qed.

Lemma armed_truthy (t0 : nat) (a : A) (st : state) :
  armed wait t0 a st → Js.truthy (timeout st.1) = true.
Proof.
  intros (id & _ & Ht & Hid & _). rewrite Ht. destruct id; [lia|reflexivity].
Qed.

Lemma leading_tick_silent (d : nat) (st : state (A:=A)) :
  consistent st → calls (elapse (later true) d st).1 = calls st.1.
Proof.
  intros [_ [Hi|(t0 & a & Ha)]].
  - rewrite (elapse_idle true d st Hi). reflexivity.
  - destruct (le_lt_dec (t0 + wait) (now st.2 + d)) as [Hd|Hd].
    + rewrite (elapse_armed_fires wait true d t0 a st Ha Hd). reflexivity.
    + destruct (elapse_armed_waits wait true d t0 a st Ha Hd) as [E _].
      rewrite E. reflexivity.
Qed.

Lemma leading_calls_from (tr : list (event A)) (st : state) (last : option nat) :
  0 < wait → long wait = wait → consistent st → follows wait last st →
  calls (run wait true tr st).1
  = calls st.1 ++ leading_calls wait last (stamps tr (now st.2)).
Proof.
  intros Hw Hk. revert st last. induction tr as [|[a|d] tr IH]; intros st last Hc Hf.
  - simpl. rewrite app_nil_r. reflexivity.
  - change (run wait true (Invoke a :: tr) st)
      with (run wait true tr (executedFunction wait true a st)).
    pose proof (invoke_armed wait true Hk a st Hc) as Ha'.
    rewrite (IH _ (Some (now st.2)) (invoke_consistent wait true Hk a st Hc))
      by (right; eauto).
    rewrite (invoke_effect wait true Hk a st Hc). cbn [fst snd now calls stamps leading_calls].
    destruct Hf as [[Hi Hl]|(t0 & a0 & Ha & ->)].
    + destruct Hi as [_ Ht]. rewrite Ht. cbn [andb negb].
      replace (match last with Some t0 => t0 + wait <=? now st.2 | None => true end)
        with true.
      * rewrite <- app_assoc. reflexivity.
      * destruct last as [t|]; [|reflexivity].
        symmetry. apply Nat.leb_le. apply Hl. reflexivity.
    + rewrite (armed_truthy t0 a0 st Ha). cbn [andb negb].
      destruct Ha as (id & _ & _ & _ & Hn & Hz).
      replace (t0 + wait <=? now st.2) with false by (symmetry; apply Nat.leb_gt; lia).
      reflexivity.
  - change (run wait true (Elapse d :: tr) st)
      with (run wait true tr (elapse (later true) d st)).
    change (stamps (Elapse d :: tr) (now st.2)) with (stamps tr (now st.2 + d)).
    assert (now (elapse (later (A:=A) true) d st).2 = now st.2 + d) as En by reflexivity.
    rewrite (IH _ last (elapse_consistent wait true d st Hc)).
    + rewrite (leading_tick_silent d st Hc), En. reflexivity.
    + destruct Hf as [[Hi Hl]|(t0 & a0 & Ha & ->)].
      * left. rewrite (elapse_idle true d st Hi). split.
        -- split; [reflexivity | apply Hi].
        -- intros t Ht. simpl. specialize (Hl t Ht). lia.
      * destruct (le_lt_dec (t0 + wait) (now st.2 + d)) as [Hd|Hd].
        -- left. rewrite (elapse_armed_fires wait true d t0 a0 st Ha Hd). split.
           ++ split; reflexivity.
           ++ intros t [= <-]. simpl. lia.
        -- right. exists t0, a0. split; [|reflexivity].
           apply (elapse_armed_waits wait true d t0 a0 st Ha Hd).
Qed.

End Leading.

(** The state-based part of the leading edge, for a window the host keeps. *)
Lemma leading_edge_kept {A : Type} (wait : nat) (tr : list (event A)) :
  long wait = wait →
  let st := run wait true tr debounce in
  (∀ a : A, pending st.2 = [] →
     calls (executedFunction wait true a st).1 = calls st.1 ++ [(now st.2, a)])
  ∧ (∀ a : A, pending st.2 ≠ [] →
       calls (executedFunction wait true a st).1 = calls st.1
       ∧ pending (executedFunction wait true a st).2
         = [Timer (next_id st.2) (now st.2 + wait) (Later a)])
  ∧ (∀ d : nat, calls (elapse (later true) d st).1 = calls st.1).
Proof.
  intros Hk st.
  assert (consistent wait st) as Hc
    by apply (run_consistent wait true Hk tr _ (debounce_consistent wait)).
  split; [|split].
  - intros a Hp. rewrite (invoke_effect wait true Hk a st Hc).
    destruct (pending_idle wait st Hc Hp) as [_ Ht]. rewrite Ht. reflexivity.
  - intros a Hp. rewrite (invoke_effect wait true Hk a st Hc).
    destruct (pending_armed wait st Hc Hp) as (t0 & a0 & Ha).
    rewrite (armed_truthy wait t0 a0 st Ha). split; reflexivity.
  - intros d. apply leading_tick_silent with (wait := wait), Hc.
Qed.

(** C10. With [immediate = true], for every window and in every state the
    wrapper can reach: an invocation made while no timer is pending calls
    the callback at once with its own arguments; an invocation made while a
    timer is pending calls nothing and only replaces the timer by a new one
    carrying its arguments, due [wait] later when [wait < 2^31]; the
    passing of time, timers firing included, never calls the callback; and
    for [0 < wait < 2^31] the real calls are exactly the invocations that
    no other invocation preceded by less than [wait], the leading edge of
    each quiet period. *)
Theorem debounce_leading_edge {A : Type} (wait : nat) (tr : list (event A)) :
  let st := run wait true tr debounce in
  (∀ a : A, pending st.2 = [] →
     calls (executedFunction wait true a st).1 = calls st.1 ++ [(now st.2, a)])
  ∧ (∀ a : A, pending st.2 ≠ [] →
       calls (executedFunction wait true a st).1 = calls st.1
       ∧ ∃ due, pending (executedFunction wait true a st).2
                = [Timer (next_id st.2) due (Later a)]
                ∧ (honoured wait → due = now st.2 + wait))
  ∧ (∀ d : nat, calls (elapse (later true) d st).1 = calls st.1)
  ∧ (0 < wait → honoured wait → calls st.1 = leading_calls wait None (stamps tr 0)).
Proof.
  intros st.
  pose proof (leading_edge_kept (long wait) tr (long_idem wait)) as Hkept.
  cbv zeta in Hkept. rewrite <- debounce_run_long in Hkept. fold st in Hkept.
  destruct Hkept as (Hfree & Hbusy & Hsilent).
  split; [|split; [|split]].
  - intros a Hp. rewrite invoke_long. apply Hfree, Hp.
  - intros a Hp. rewrite invoke_long. destruct (Hbusy a Hp) as [Hcalls Hpend].
    split; [exact Hcalls|]. eexists. split; [exact Hpend|].
    intros Hk. rewrite (long_honoured wait Hk). reflexivity.
  - exact Hsilent.
  - intros Hw Hk. apply long_honoured in Hk. unfold st.
    rewrite (leading_calls_from wait tr debounce None Hw Hk
               (debounce_consistent _) (follows_start _)).
    reflexivity.
Qed.

Lemma debounce_leading_edge_witness :
  0 < 100 ∧ honoured 100
  ∧ calls (run 100 true
             [Invoke 1; Elapse 20; Invoke 2; Elapse 100; Invoke 3; Elapse 99;
              Invoke 4] debounce).1
    = [(0, 1); (120, 3)].
Proof.
  split; [lia|]. split; [reflexivity|].
  exact (proj2 (proj2 (proj2 (debounce_leading_edge 100
    [Invoke 1; Elapse 20; Invoke 2; Elapse 100; Invoke 3; Elapse 99;
     Invoke 4]))) ltac:(lia) eq_refl).
Defined.

End DebounceFacts.

(** ** throttle *)

Module ThrottleFacts.
Import Timers TimersFacts Throttle.

Section Wrapper.
Context {A : Type}.
Variable limit : nat.

Local Abbreviation call := (wrapped (A:=A) limit).
Local Abbreviation tick := (elapse (release (A:=A))).
Local Abbreviation follows := (follows (A:=A) limit).

Lemma throttle_follows : follows None throttle.
Proof. left. split; [split; reflexivity | discriminate]. Qed.

(** The wrapper depends on its window only through the delay the host
    makes of it. *)
Lemma call_long (a : A) (st : state) : call a st = wrapped (long limit) a st.
Proof. unfold wrapped. rewrite long_idem. reflexivity. Qed.

Lemma throttle_run_long (tr : list (event A)) (st : state) :
  run limit tr st = run (long limit) tr st.
Proof.
  revert st. induction tr as [|[a|d] tr IH]; intros st; [reflexivity| |].
  - change (run limit (Invoke a :: tr) st) with (run limit tr (call a st)).
    rewrite call_long. apply IH.
  - apply IH.
Qed.

Lemma call_cooling (a : A) (t0 : nat) (st : state) :
  cooling limit t0 st → call a st = st.
Proof.
  destruct st as [[f cs] l]. intros (id & _ & Hf & _). simpl in *. subst.
  reflexivity.
Qed.

Lemma tick_ready (d : nat) (st : state) :
  ready st → tick d st = (st.1, Loop (now st.2 + d) (next_id st.2) []).
Proof. destruct st as [v l]. intros [Hp _]. apply elapse_none, Hp. Qed.

Lemma tick_expires (d t0 : nat) (st : state) :
  cooling limit t0 st → t0 + limit ≤ now st.2 + d →
  tick d st
  = (Vars (Js.FBool false) (calls st.1), Loop (now st.2 + d) (next_id st.2) []).
Proof.
  destruct st as [v l]. intros (id & Hp & _) Hd. simpl in *.
  rewrite (elapse_ripe _ d v l _ Hp Hd). reflexivity.
Qed.

Lemma tick_continues (d t0 : nat) (st : state) :
  cooling limit t0 st → now st.2 + d < t0 + limit →
  tick d st = (st.1, Loop (now st.2 + d) (next_id st.2) (pending st.2))
  ∧ cooling limit t0 (tick d st).
Proof.
  destruct st as [v l]. intros (id & Hp & Hf & Hn & Hz) Hd. simpl in *.
  rewrite (elapse_unripe _ d v l _ Hp Hd). rewrite Hp. split; [reflexivity|].
  exists id. simpl. repeat split; try lia; assumption.
Qed.

Lemma tick_follows (d : nat) (last : option nat) (st : state) :
  follows last st → follows last (tick d st).
Proof.
  intros [[Hr Hl]|(t0 & Hc & ->)].
  - left. rewrite (tick_ready d st Hr). split.
    + split; [reflexivity | apply Hr].
    + intros t Ht. simpl. specialize (Hl t Ht). lia.
  - destruct (le_lt_dec (t0 + limit) (now st.2 + d)) as [Hd|Hd].
    + left. rewrite (tick_expires d t0 st Hc Hd). split.
      * split; reflexivity.
      * intros t [= <-]. simpl. lia.
    + right. exists t0. split; [|reflexivity].
      apply (tick_continues d t0 st Hc Hd).
Qed.

Lemma tick_calls (d : nat) (last : option nat) (st : state) :
  follows last st → calls (tick d st).1 = calls st.1.
Proof.
  intros [[Hr Hl]|(t0 & Hc & ->)].
  - rewrite (tick_ready d st Hr). reflexivity.
  - destruct (le_lt_dec (t0 + limit) (now st.2 + d)) as [Hd|Hd].
    + rewrite (tick_expires d t0 st Hc Hd). reflexivity.
    + destruct (tick_continues d t0 st Hc Hd) as [E _]. rewrite E. reflexivity.
Qed.

Section Kept.
(** The window is a delay the host keeps. *)
Hypothesis kept : long limit = limit.

Lemma call_ready (a : A) (st : state) :
  ready st →
  call a st
  = (Vars (Js.FBool true) (calls st.1 ++ [(now st.2, a)]),
     Loop (now st.2) (S (next_id st.2)) [Timer (next_id st.2) (now st.2 + limit) Release]).
Proof.
  destruct st as [[f cs] [n i ps]]. intros [Hp Hf]. simpl in *. subst.
  unfold wrapped. rewrite kept. simpl. rewrite Hf. reflexivity.
Qed.

Lemma call_starts_cooldown (a : A) (st : state) :
  ready st → cooling limit (now st.2) (call a st).
Proof.
  intros Hr. rewrite (call_ready a st Hr). exists (next_id st.2). simpl.
  repeat split; lia.
Qed.

(** Some [last] always describes a reachable state. *)
Lemma run_follows (tr : list (event A)) (st : state) (last : option nat) :
  follows last st → ∃ last', follows last' (run limit tr st).
Proof.
  revert st last. induction tr as [|[a|d] tr IH]; intros st last Hf.
  - exists last. assumption.
  - change (run limit (Invoke a :: tr) st) with (run limit tr (call a st)).
    destruct Hf as [[Hr Hl]|(t0 & Hc & ->)].
    + apply (IH _ (Some (now st.2))). right. exists (now st.2).
      split; [apply call_starts_cooldown, Hr | reflexivity].
    + rewrite (call_cooling a t0 st Hc). apply (IH _ (Some t0)). right. eauto.
  - change (run limit (Elapse d :: tr) st) with (run limit tr (tick d st)).
    apply (IH _ last), tick_follows, Hf.
Qed.

Lemma spaced_calls_from (tr : list (event A)) (st : state) (last : option nat) :
  0 < limit → follows last st →
  calls (run limit tr st).1
  = calls st.1 ++ spaced_calls limit last (stamps tr (now st.2)).
Proof.
  intros Hw. revert st last. induction tr as [|[a|d] tr IH]; intros st last Hf.
  - simpl. rewrite app_nil_r. reflexivity.
  - change (run limit (Invoke a :: tr) st) with (run limit tr (call a st)).
    cbn [stamps spaced_calls].
    destruct Hf as [[Hr Hl]|(t0 & Hc & ->)].
    + replace (match last with Some t0 => t0 + limit <=? now st.2 | None => true end)
        with true.
      * rewrite (IH _ (Some (now st.2))).
        -- rewrite (call_ready a st Hr). cbn [fst snd now calls].
           rewrite <- app_assoc. reflexivity.
        -- right. exists (now st.2). split; [apply call_starts_cooldown, Hr | reflexivity].
      * destruct last as [t|]; [|reflexivity].
        symmetry. apply Nat.leb_le, Hl. reflexivity.
    + rewrite (call_cooling a t0 st Hc).
      destruct Hc as (id & Hp & Hf & Hn & Hz).
      replace (t0 + limit <=? now st.2) with false by (symmetry; apply Nat.leb_gt; lia).
      apply IH. right. exists t0. split; [exists id; auto | reflexivity].
  - change (run limit (Elapse d :: tr) st) with (run limit tr (tick d st)).
    change (stamps (Elapse d :: tr) (now st.2)) with (stamps tr (now st.2 + d)).
    rewrite (IH _ last (tick_follows d last st Hf)).
    rewrite (tick_calls d last st Hf). reflexivity.
Qed.

End Kept.

Lemma spaced_calls_apart (last : option nat) (inv : list (nat * A)) :
  apart limit (spaced_calls limit last inv)
  ∧ ∀ t0 t a rest, last = Some t0 →
      spaced_calls limit last inv = (t, a) :: rest → t0 + limit ≤ t.
Proof.
  revert last. induction inv as [|[t a] inv IH]; intros last.
  - split; [exact I | discriminate].
  - cbn [spaced_calls].
    destruct (match last with Some t0 => t0 + limit <=? t | None => true end) eqn:E.
    + split.
      * cbn [apart]. destruct (IH (Some t)) as [Hap Hhd]. split; [|assumption].
        destruct (spaced_calls limit (Some t) inv) as [|[t' a'] rest] eqn:E'; [exact I|].
        apply (Hhd t t' a' rest); reflexivity.
      * intros t0 t1 a1 rest -> [= <- <- <-]. apply Nat.leb_le, E.
    + apply IH.
Qed.

End Wrapper.

(** C3, as the specification states it, fails for a window of 2^31, which
    the host makes a delay of 0: an invocation made 50 time units after
    the first is a real call too, so the real calls are not 2^31 apart. *)
Lemma overflowing_window_has_no_cooldown :
  0 < overflow
  ∧ calls (run overflow [Invoke 1; Elapse 50; Invoke 2] throttle).1 = [(0, 1); (50, 2)]
  ∧ ¬ apart overflow [(0, 1); (50, 2)]
  ∧ ¬ cooldown overflow.
Proof.
  assert (calls (run overflow [Invoke 1; Elapse 50; Invoke 2] throttle).1
          = [(0, 1); (50, 2)]) as Hrun
    by (rewrite throttle_run_long, long_overflow; reflexivity).
  assert (¬ apart overflow [(0, 1); (50, 2)]) as Hclose.
  { pose proof (below_overflow 50 eq_refl) as Hbig. revert Hbig.
    generalize overflow. intros w Hbig. cbn [apart]. lia. }
  split; [apply below_overflow; reflexivity|]. split; [exact Hrun|].
  split; [exact Hclose|].
  intros Hc. destruct (Hc [Invoke 1; Elapse 50; Invoke 2]) as [_ Hap].
  rewrite Hrun in Hap. exact (Hclose Hap).
Qed.

(** C3, amended.  With a window [0 < limit < 2^31]: the first invocation
    calls the callback at once and starts a cooldown, a timer due [limit]
    later; in every state the wrapper can reach, an invocation made while
    the cooldown timer is pending changes nothing at all (no call, nothing
    queued), and an invocation made once it has run calls the callback at
    once with its arguments and starts a new cooldown; the real calls are
    exactly the invocations at least [limit] after the real call before
    them, so successive real calls are at least [limit] apart. *)
Theorem throttle_cooldown {A : Type} (limit : nat) (tr : list (event A)) :
  0 < limit → honoured limit →
  let st := run limit tr throttle in
  (∀ a : A,
     wrapped limit a throttle
     = (Vars (Js.FBool true) [(0, a)], Loop 0 2 [Timer 1 (0 + limit) Release]))
  ∧ (∀ a : A, pending st.2 ≠ [] → wrapped limit a st = st)
  ∧ (∀ a : A, pending st.2 = [] →
       wrapped limit a st
       = (Vars (Js.FBool true) (calls st.1 ++ [(now st.2, a)]),
          Loop (now st.2) (S (next_id st.2))
               [Timer (next_id st.2) (now st.2 + limit) Release]))
  ∧ calls st.1 = spaced_calls limit None (stamps tr 0)
  ∧ apart limit (calls st.1).
Proof.
  intros Hw Hk st. apply long_honoured in Hk.
  destruct (run_follows limit Hk tr throttle None (throttle_follows limit)) as [last Hf].
  fold st in Hf.
  assert (calls st.1 = spaced_calls limit None (stamps tr 0)) as Hcalls.
  { unfold st.
    rewrite (spaced_calls_from limit Hk tr throttle None Hw (throttle_follows limit)).
    reflexivity. }
  split; [|split; [|split; [|split]]].
  - intros a. apply (call_ready limit Hk a throttle). split; reflexivity.
  - intros a Hp. destruct Hf as [[[Hr _] _]|(t0 & Hc & _)]; [congruence|].
    apply (call_cooling limit a t0 st Hc).
  - intros a Hp. destruct Hf as [[Hr _]|(t0 & (id & Hq & _) & _)]; [|congruence].
    apply (call_ready limit Hk a st Hr).
  - exact Hcalls.
  - rewrite Hcalls. apply spaced_calls_apart.
Qed.

Lemma throttle_cooldown_witness :
  0 < 100 ∧ honoured 100
  ∧ calls (run 100
             [Invoke 1; Elapse 10; Invoke 2; Elapse 89; Invoke 3; Elapse 1;
              Invoke 4; Elapse 250; Invoke 5] throttle).1
    = [(0, 1); (100, 4); (350, 5)].
Proof.
  split; [lia|]. split; [reflexivity|].
  exact (proj1 (proj2 (proj2 (proj2 (throttle_cooldown 100
    [Invoke 1; Elapse 10; Invoke 2; Elapse 89; Invoke 3; Elapse 1;
     Invoke 4; Elapse 250; Invoke 5] ltac:(lia) eq_refl))))).
Defined.

(** The specification's example: invoked every 10 time units for 1000 under
    a window of 100, the callback runs ten times, every 100. *)
Example throttle_steady_stream :
  map fst (calls (run 100 (steady 10 100) throttle).1)
  = [0; 100; 200; 300; 400; 500; 600; 700; 800; 900].
Proof. vm_compute. reflexivity. Qed.

End ThrottleFacts.

(** ** A window of zero *)

Module ZeroWindow.
Import Timers TimersFacts.

Section Traces.
Context {A : Type}.

Lemma debounce_zero_from (tr : list (event A)) (st : Debounce.state) :
  Debounce.consistent 0 st → Debounce.unhurried 0 false tr st = true →
  Debounce.calls (Debounce.run 0 false tr st).1
  = Debounce.calls st.1 ++ Debounce.backlog 0 st ++ stamps tr (now st.2).
Proof.
  revert st. induction tr as [|[a|d] tr IH]; intros st Hc Hu.
  - destruct Hc as [_ [Hi|(t0 & a & id & Hp & _)]].
    + rewrite (DebounceFacts.backlog_idle 0 st Hi). simpl. rewrite app_nil_r. reflexivity.
    + simpl in Hu. rewrite Hp in Hu. discriminate.
  - assert (Debounce.idle st) as Hi.
    { destruct Hc as [_ [Hi|(t0 & a0 & id & Hp & _)]]; [assumption|].
      simpl in Hu. rewrite Hp in Hu. discriminate. }
    assert (Debounce.unhurried 0 false tr (Debounce.executedFunction 0 false a st) = true)
      as Hu'.
    { cbn [Debounce.unhurried] in Hu. destruct Hi as [Hp _]. rewrite Hp in Hu. exact Hu. }
    change (Debounce.run 0 false (Invoke a :: tr) st)
      with (Debounce.run 0 false tr (Debounce.executedFunction 0 false a st)).
    rewrite (IH _ (DebounceFacts.invoke_consistent 0 false eq_refl a st Hc) Hu').
    rewrite (DebounceFacts.backlog_armed 0 _ _ _
               (DebounceFacts.invoke_armed 0 false eq_refl a st Hc)).
    rewrite (DebounceFacts.backlog_idle 0 st Hi).
    rewrite (DebounceFacts.invoke_effect 0 false eq_refl a st Hc). reflexivity.
  - assert (Debounce.unhurried 0 false tr (elapse (Debounce.later false) d st) = true)
      as Hu' by (cbn [Debounce.unhurried] in Hu; destruct (pending st.2); exact Hu).
    change (Debounce.run 0 false (Elapse d :: tr) st)
      with (Debounce.run 0 false tr (elapse (Debounce.later false) d st)).
    change (stamps (Elapse d :: tr) (now st.2)) with (stamps tr (now st.2 + d)).
    rewrite (IH _ (DebounceFacts.elapse_consistent 0 false d st Hc) Hu').
    destruct Hc as [Hn [Hi|(t0 & a & Ha)]].
    + rewrite (DebounceFacts.elapse_idle false d st Hi).
      rewrite (DebounceFacts.backlog_idle 0 st Hi). reflexivity.
    + assert (t0 + 0 ≤ now st.2 + d) as Hd by (destruct Ha as (id & _ & _ & _ & Hb & _); lia).
      rewrite (DebounceFacts.elapse_armed_fires 0 false d t0 a st Ha Hd).
      rewrite (DebounceFacts.backlog_armed 0 t0 a st Ha).
      cbn [fst snd now Debounce.calls negb Debounce.backlog pending map app].
      rewrite Nat.add_0_r, <- app_assoc. reflexivity.
Qed.

Lemma throttle_zero_from (tr : list (event A)) (st : Throttle.state) (last : option nat) :
  Throttle.follows 0 last st → Throttle.unhurried 0 tr st = true →
  Throttle.calls (Throttle.run 0 tr st).1
  = Throttle.calls st.1 ++ stamps tr (now st.2).
Proof.
  revert st last. induction tr as [|[a|d] tr IH]; intros st last Hf Hu.
  - simpl. rewrite app_nil_r. reflexivity.
  - assert (Throttle.ready st) as Hr.
    { destruct Hf as [[Hr _]|(t0 & (id & Hp & _) & _)]; [assumption|].
      simpl in Hu. rewrite Hp in Hu. discriminate. }
    assert (Throttle.unhurried 0 tr (Throttle.wrapped 0 a st) = true) as Hu'.
    { cbn [Throttle.unhurried] in Hu. destruct Hr as [Hp _]. rewrite Hp in Hu. exact Hu. }
    change (Throttle.run 0 (Invoke a :: tr) st)
      with (Throttle.run 0 tr (Throttle.wrapped 0 a st)).
    rewrite (IH _ (Some (now st.2))); [| |exact Hu'].
    + rewrite (ThrottleFacts.call_ready 0 eq_refl a st Hr).
      cbn [fst snd now Throttle.calls stamps]. rewrite <- app_assoc. reflexivity.
    + right. exists (now st.2). split; [|reflexivity].
      apply (ThrottleFacts.call_starts_cooldown 0 eq_refl), Hr.
  - assert (Throttle.unhurried 0 tr (elapse Throttle.release d st) = true)
      as Hu' by (cbn [Throttle.unhurried] in Hu; destruct (pending st.2); exact Hu).
    change (Throttle.run 0 (Elapse d :: tr) st)
      with (Throttle.run 0 tr (elapse Throttle.release d st)).
    change (stamps (Elapse d :: tr) (now st.2)) with (stamps tr (now st.2 + d)).
    rewrite (IH _ last (ThrottleFacts.tick_follows 0 d last st Hf) Hu').
    rewrite (ThrottleFacts.tick_calls 0 d last st Hf). reflexivity.
Qed.

End Traces.

(** C4, as the specification states it, fails for both wrappers: with a
    window of 0 the first invocation of a debounced function calls nothing,
    and the second of two invocations of a throttled function made in one
    task is dropped. *)
Lemma zero_window_not_pass_through :
  ¬ Debounce.pass_through 0 ∧ ¬ Throttle.pass_through 0.
Proof.
  split.
  - intros Hp. specialize (Hp [] 7). vm_compute in Hp. discriminate.
  - intros Hp. specialize (Hp [Invoke 7] 8). vm_compute in Hp. discriminate.
Qed.

(** C4, amended.  With a window of 0, in every state the wrappers can
    reach: a debounced invocation never calls the callback itself (the
    call is left to the zero-delay timer); a throttled invocation made
    while the zero-delay timer is pending changes nothing, and one made
    while none is pending calls the callback at once; when the timer of
    every debounced invocation has run before the next invocation and
    before the end of the trace, the debounced function has made exactly
    one real call per invocation, with its arguments; and when the timer of
    every real call of the throttled function has run before the next
    invocation, the throttled function has made exactly one real call per
    invocation, with its arguments. *)
Theorem zero_window_needs_the_timer_to_run {A : Type} (tr : list (event A)) :
  let d := Debounce.run 0 false tr Debounce.debounce in
  let t := Throttle.run 0 tr Throttle.throttle in
  (∀ a : A, Debounce.calls (Debounce.executedFunction 0 false a d).1 = Debounce.calls d.1)
  ∧ (∀ a : A, pending t.2 ≠ [] → Throttle.wrapped 0 a t = t)
  ∧ (∀ a : A, pending t.2 = [] →
       Throttle.calls (Throttle.wrapped 0 a t).1 = Throttle.calls t.1 ++ [(now t.2, a)])
  ∧ (Debounce.unhurried 0 false tr Debounce.debounce = true →
       Debounce.calls d.1 = stamps tr 0)
  ∧ (Throttle.unhurried 0 tr Throttle.throttle = true →
       Throttle.calls t.1 = stamps tr 0).
Proof.
  intros d t. split; [|split; [|split; [|split]]].
  - intros a.
    rewrite (DebounceFacts.invoke_effect 0 false eq_refl a d
               (DebounceFacts.run_consistent 0 false eq_refl tr _
                  (DebounceFacts.debounce_consistent 0))).
    reflexivity.
  - intros a Hp.
    destruct (ThrottleFacts.run_follows 0 eq_refl tr Throttle.throttle None
                (ThrottleFacts.throttle_follows 0)) as [last Hf].
    fold t in Hf. destruct Hf as [[[Hr _] _]|(t0 & Hc & _)]; [congruence|].
    apply (ThrottleFacts.call_cooling 0 a t0 t Hc).
  - intros a Hp.
    destruct (ThrottleFacts.run_follows 0 eq_refl tr Throttle.throttle None
                (ThrottleFacts.throttle_follows 0)) as [last Hf].
    fold t in Hf. destruct Hf as [[Hr _]|(t0 & (id & Hq & _) & _)]; [|congruence].
    rewrite (ThrottleFacts.call_ready 0 eq_refl a t Hr). reflexivity.
  - intros Hu. unfold d.
    rewrite (debounce_zero_from tr Debounce.debounce
               (DebounceFacts.debounce_consistent 0) Hu).
    reflexivity.
  - intros Hu. unfold t.
    rewrite (throttle_zero_from tr Throttle.throttle None
               (ThrottleFacts.throttle_follows 0) Hu).
    reflexivity.
Qed.

Lemma zero_window_needs_the_timer_to_run_witness :
  Debounce.unhurried 0 false
    [Invoke 1; Elapse 1; Invoke 2; Elapse 3; Invoke 3; Elapse 4] Debounce.debounce = true
  ∧ Throttle.unhurried 0
      [Invoke 1; Elapse 1; Invoke 2; Elapse 3; Invoke 3; Elapse 4] Throttle.throttle = true
  ∧ Debounce.calls (Debounce.run 0 false
        [Invoke 1; Elapse 1; Invoke 2; Elapse 3; Invoke 3; Elapse 4] Debounce.debounce).1
    = [(0, 1); (1, 2); (4, 3)]
  ∧ Throttle.calls (Throttle.run 0
        [Invoke 1; Elapse 1; Invoke 2; Elapse 3; Invoke 3; Elapse 4] Throttle.throttle).1
    = [(0, 1); (1, 2); (4, 3)].
Proof.
  split; [reflexivity|]. split; [reflexivity|].
  pose proof (zero_window_needs_the_timer_to_run
    [Invoke 1; Elapse 1; Invoke 2; Elapse 3; Invoke 3; Elapse 4])
    as (_ & _ & _ & Hd & Ht).
  split; [exact (Hd eq_refl) | exact (Ht eq_refl)].
Defined.

End ZeroWindow.

(** ** AnimationManager *)

Module AnimationFacts.
Import Dom AnimationManager.

Lemma on_entry_skip (s : state) (en : entry) :
  isIntersecting en && negb (bool_decide (target en ∈ animatedElements s)) = false →
  on_entry s en = s.
Proof. intros E. unfold on_entry. rewrite E. reflexivity. Qed.

Lemma on_entry_fire (s : state) (en : entry) :
  isIntersecting en = true → target en ∉ animatedElements s →
  activations (on_entry s en) = activations s ++ [target en]
  ∧ animatedElements (on_entry s en) = {[target en]} ∪ animatedElements s
  ∧ observer (on_entry s en) = (λ ts, ts ∖ {[target en]}) <$> observer s.
Proof.
  intros Hi Hn. unfold on_entry. rewrite Hi, bool_decide_eq_false_2 by assumption.
  simpl. auto.
Qed.

Lemma on_entry_cases (s : state) (en : entry) :
  (on_entry s en = s
   ∧ (isIntersecting en = false ∨ target en ∈ animatedElements s))
  ∨ (isIntersecting en = true ∧ target en ∉ animatedElements s).
Proof.
  destruct (isIntersecting en) eqn:Hi.
  - destruct (decide (target en ∈ animatedElements s)) as [Hin|Hout].
    + left. split; [|auto]. apply on_entry_skip.
      rewrite Hi, bool_decide_eq_true_2 by assumption. reflexivity.
    + right. auto.
  - left. split; [|auto]. apply on_entry_skip. rewrite Hi. reflexivity.
Qed.

Lemma on_entry_coherent (s : state) (en : entry) :
  coherent s → coherent (on_entry s en).
Proof.
  intros (Hset & Hnd & Hobs).
  destruct (on_entry_cases s en) as [[E _]|[Hi Hout]].
  { rewrite E. repeat split; auto; apply Hset. }
  destruct (on_entry_fire s en Hi Hout) as (Ea & Es & Eo).
  split; [|split].
  - intros e. rewrite Ea, Es, elem_of_app, list_elem_of_singleton, <- Hset.
    rewrite elem_of_union, elem_of_singleton. tauto.
  - rewrite Ea. apply NoDup_app. split; [assumption|]. split; [|apply NoDup_singleton].
    intros x Hx. rewrite list_elem_of_singleton. intros ->. apply Hout, Hset, Hx.
  - intros ts e. rewrite Eo, Es. destruct (observer s) as [ts0|]; [|discriminate].
    intros [= <-] He. specialize (Hobs ts0 e eq_refl).
    rewrite elem_of_difference, elem_of_singleton.
    apply elem_of_union in He. rewrite elem_of_singleton in He. tauto.
Qed.

Lemma callback_coherent (entries : list entry) (s : state) :
  coherent s → coherent (callback entries s).
Proof.
  revert s. induction entries as [|en entries IH]; intros s Hc; [assumption|].
  apply IH, on_entry_coherent, Hc.
Qed.

Lemma deliver_coherent (batches : list (list entry)) (s : state) :
  coherent s → coherent (deliver batches s).
Proof.
  revert s. induction batches as [|b batches IH]; intros s Hc; [assumption|].
  apply IH, callback_coherent, Hc.
Qed.

(** An element is in the log after an entry exactly if it was before or
    the entry reports it intersecting. *)
Lemma on_entry_log (s : state) (en : entry) (e : element) :
  coherent s →
  e ∈ activations (on_entry s en)
  ↔ e ∈ activations s ∨ (target en = e ∧ isIntersecting en = true).
Proof.
  intros (Hset & _).
  destruct (on_entry_cases s en) as [[E Hwhy]|[Hi Hout]].
  - rewrite E. split; [auto|]. intros [H|[<- Hi]]; [assumption|].
    destruct Hwhy as [Hf|Hin]; [congruence | apply Hset, Hin].
  - destruct (on_entry_fire s en Hi Hout) as (Ea & _).
    rewrite Ea, elem_of_app, list_elem_of_singleton.
    split; (intros [H|H]; [left; exact H | right]);
      [split; [symmetry; exact H | exact Hi] | symmetry; apply H].
Qed.

Lemma callback_log (entries : list entry) (s : state) (e : element) :
  coherent s →
  e ∈ activations (callback entries s)
  ↔ e ∈ activations s ∨ ∃ en, en ∈ entries ∧ target en = e ∧ isIntersecting en = true.
Proof.
  revert s. induction entries as [|en entries IH]; intros s Hc.
  - simpl. split; [auto|]. intros [H|(en & Hin & _)]; [assumption|].
    apply elem_of_nil in Hin as [].
  - change (callback (en :: entries) s) with (callback entries (on_entry s en)).
    rewrite (IH _ (on_entry_coherent s en Hc)), (on_entry_log s en e Hc).
    split.
    + intros [[H|[Ht Hi]]|(en' & Hin & Ht & Hi)]; [auto| |].
      * right. exists en. rewrite elem_of_cons. auto.
      * right. exists en'. rewrite elem_of_cons. auto.
    + intros [H|(en' & Hin & Ht & Hi)]; [auto|].
      apply elem_of_cons in Hin as [->|Hin]; [auto|]. right. eauto.
Qed.

Lemma deliver_log (batches : list (list entry)) (s : state) (e : element) :
  coherent s →
  e ∈ activations (deliver batches s) ↔ e ∈ activations s ∨ crossed e batches.
Proof.
  revert s. induction batches as [|b batches IH]; intros s Hc.
  - simpl. split; [auto|]. intros [H|(b & en & Hin & _)]; [assumption|].
    apply elem_of_nil in Hin as [].
  - change (deliver (b :: batches) s) with (deliver batches (callback b s)).
    rewrite (IH _ (callback_coherent b s Hc)), (callback_log b s e Hc).
    unfold crossed. split.
    + intros [[H|(en & Hin & Ht & Hi)]|(b' & en & Hb & Hin & Ht & Hi)]; [auto| |].
      * right. exists b, en. rewrite elem_of_cons. auto.
      * right. exists b', en. rewrite elem_of_cons. auto.
    + intros [H|(b' & en & Hb & Hin & Ht & Hi)]; [auto|].
      apply elem_of_cons in Hb as [->|Hb]; [left; right; eauto|].
      right. exists b', en. auto.
Qed.

Lemma count_NoDup (e : element) (log : list element) :
  NoDup log → activationCount e log = if bool_decide (e ∈ log) then 1 else 0.
Proof.
  induction 1 as [|x l Hx Hnd IH]; [reflexivity|].
  simpl. rewrite IH. destruct (decide (x = e)) as [->|Hne].
  - rewrite bool_decide_eq_true_2 by reflexivity.
    rewrite (bool_decide_eq_false_2 (e ∈ l)) by assumption.
    rewrite bool_decide_eq_true_2 by (apply elem_of_cons; auto). reflexivity.
  - rewrite (bool_decide_eq_false_2 (x = e)) by assumption. simpl.
    apply (f_equal (λ b : bool, if b then 1 else 0)).
    apply bool_decide_ext. rewrite elem_of_cons.
    split; [auto | intros [E|H]; [exfalso; apply Hne; symmetry; exact E | exact H]].
Qed.

Lemma observeElements_keeps (targets : list element) (s : state) :
  animatedElements (observeElements targets s) = animatedElements s
  ∧ activations (observeElements targets s) = activations s
  ∧ (is_Some (observer s) → is_Some (observer (observeElements targets s))).
Proof.
  revert s. induction targets as [|x targets IH]; intros s; [simpl; auto|].
  unfold observeElements in *. simpl fold_left.
  destruct (IH (observe x (restyle (set_transform "translateY(30px)") x
                  (restyle (set_opacity "0") x s)))) as (E1 & E2 & E3).
  rewrite E1, E2. simpl. repeat split. intros Hs. apply E3. simpl.
  destruct (observer s); [eauto | destruct Hs; discriminate].
Qed.

Lemma init_coherent {num : Type} (w : window num) (targets : list element)
    (d : gmap element style) :
  coherent (init w targets (fresh d))
  ∧ activations (init w targets (fresh d)) = [].
Proof.
  assert (∀ s, animatedElements s = ∅ → activations s = [] → coherent s) as Hstart.
  { intros s Es Ea. unfold coherent. rewrite Es, Ea. repeat split.
    - intros H. apply elem_of_empty in H as [].
    - intros H. apply elem_of_nil in H as [].
    - apply NoDup_nil_2.
    - intros ts e _ H. apply elem_of_empty in H as []. }
  unfold init. destruct (prefersReducedMotion w); [split; [apply Hstart|]; reflexivity|].
  destruct (hasIntersectionObserver w); simpl.
  - destruct (observeElements_keeps targets (setupObserver (fresh d))) as (E1 & E2 & _).
    split; [apply Hstart|]; rewrite ?E1, ?E2; reflexivity.
  - assert (∀ l s, animatedElements (addFallbackAnimations l s) = animatedElements s
                   ∧ activations (addFallbackAnimations l s) = activations s) as Hk.
    { induction l as [|x l IH]; intros s; [auto|].
      unfold addFallbackAnimations in *. simpl fold_left.
      destruct (IH (restyle (set_transform "translateY(0)") x
                      (restyle (set_opacity "1") x s))) as [E1 E2].
      rewrite E1, E2. auto. }
    destruct (Hk targets (fresh d)) as [E1 E2].
    split; [apply Hstart|]; rewrite ?E1, ?E2; reflexivity.
Qed.

(** C1. When the manager observes (no reduced motion, [IntersectionObserver]
    present), then after any sequence of callback batches, whatever entries
    they carry: [animateElement] has been called at most once on every
    element, exactly once on those some entry reported intersecting and
    never on the others, and an element it was called on is no longer among
    the observer's targets. *)
Theorem activation_at_most_once {num : Type} (w : window num)
    (targets : list element) (d : gmap element style)
    (batches : list (list entry)) (e : element) :
  prefersReducedMotion w = false → hasIntersectionObserver w = true →
  let s := deliver batches (init w targets (fresh d)) in
  activationCount e (activations s) ≤ 1
  ∧ (crossed e batches → activationCount e (activations s) = 1)
  ∧ (¬ crossed e batches → activationCount e (activations s) = 0)
  ∧ (e ∈ activations s → ∃ ts, observer s = Some ts ∧ e ∉ ts).
Proof.
  intros Hrm Hio s.
  destruct (init_coherent w targets d) as [Hc0 Ha0].
  pose proof (deliver_coherent batches _ Hc0) as Hc. fold s in Hc.
  pose proof (deliver_log batches _ e Hc0) as Hlog. fold s in Hlog.
  rewrite Ha0 in Hlog.
  destruct Hc as (Hset & Hnd & Hobs).
  rewrite (count_NoDup e _ Hnd).
  split; [case_bool_decide; lia|]. split; [|split].
  - intros Hx. rewrite bool_decide_eq_true_2; [reflexivity|]. apply Hlog. auto.
  - intros Hx. rewrite bool_decide_eq_false_2; [reflexivity|]. rewrite Hlog.
    intros [H|H]; [apply elem_of_nil in H as [] | auto].
  - intros He.
    assert (is_Some (observer s)) as [ts Hts].
    { unfold s, init. rewrite Hrm, Hio. simpl.
      clear. generalize (observeElements_keeps targets (setupObserver (fresh d))).
      intros (_ & _ & Hsome). specialize (Hsome ltac:(simpl; eauto)).
      revert Hsome. generalize (observeElements targets (setupObserver (fresh d))).
      induction batches as [|b batches IH]; intros s0 Hs; [exact Hs|].
      apply IH. clear IH. revert s0 Hs.
      induction b as [|en b IHb]; intros s0 Hs; [exact Hs|].
      apply IHb. unfold on_entry.
      destruct (isIntersecting en && negb (bool_decide (target en ∈ animatedElements s0)));
        [|exact Hs].
      simpl. destruct (observer s0); [eauto | destruct Hs; discriminate]. }
    exists ts. split; [assumption|]. apply (Hobs ts e Hts), Hset, He.
Qed.

Lemma activation_at_most_once_witness :
  activationCount 2
    (activations
       (deliver [[Entry 1 false; Entry 2 true]; [Entry 2 false]; [Entry 2 true; Entry 2 true]]
          (init (Window false true tt tt) [1; 2; 3]
             (fresh (<[1 := blank]> (<[2 := blank]> (<[3 := blank]> ∅)))))))
  ≤ 1.
Proof.
  exact (proj1 (activation_at_most_once (Window false true tt tt) [1; 2; 3]
    (<[1 := blank]> (<[2 := blank]> (<[3 := blank]> ∅)))
    [[Entry 1 false; Entry 2 true]; [Entry 2 false]; [Entry 2 true; Entry 2 true]]
    2 eq_refl eq_refl)).
Defined.

(** *** Reduced motion and the fallback *)

Lemma restyle_lookup (f : style → style) (x e : element) (s : state) :
  doc (restyle f x s) !! e = if decide (x = e) then f <$> doc s !! e else doc s !! e.
Proof.
  unfold restyle. simpl. destruct (decide (x = e)) as [->|Hne].
  - apply lookup_alter_eq.
  - apply lookup_alter_ne, Hne.
Qed.

Lemma fallback_step_shown (x e : element) (s : state) :
  is_Some (doc s !! e) → x = e ∨ shown e s →
  shown e (restyle (set_transform "translateY(0)") x (restyle (set_opacity "1") x s)).
Proof.
  intros [st Hst] Hwhy. unfold shown. rewrite !restyle_lookup.
  destruct (decide (x = e)) as [->|Hne].
  - rewrite Hst. simpl. eexists. split; [reflexivity|]. split; reflexivity.
  - destruct Hwhy as [?|Hs]; [contradiction | exact Hs].
Qed.

Lemma fallback_step_dom (x e : element) (s : state) :
  is_Some (doc s !! e) →
  is_Some (doc (restyle (set_transform "translateY(0)") x
                  (restyle (set_opacity "1") x s)) !! e).
Proof.
  intros [st Hst]. rewrite !restyle_lookup.
  destruct (decide (x = e)); rewrite Hst; simpl; eauto.
Qed.

Lemma addFallbackAnimations_shown (targets : list element) (s : state) (e : element) :
  is_Some (doc s !! e) → e ∈ targets ∨ shown e s →
  shown e (addFallbackAnimations targets s).
Proof.
  revert s. induction targets as [|x targets IH]; intros s Hdom Hwhy.
  - destruct Hwhy as [Hin|Hs]; [apply elem_of_nil in Hin as [] | exact Hs].
  - unfold addFallbackAnimations in *. simpl fold_left.
    apply IH; [apply fallback_step_dom, Hdom|].
    destruct Hwhy as [Hin|Hs].
    + apply elem_of_cons in Hin as [->|Hin]; [|auto].
      right. apply fallback_step_shown; auto.
    + right. apply fallback_step_shown; auto.
Qed.

Lemma addFallbackAnimations_quiet (targets : list element) (s : state) :
  observer (addFallbackAnimations targets s) = observer s
  ∧ observe_calls (addFallbackAnimations targets s) = observe_calls s
  ∧ observers_built (addFallbackAnimations targets s) = observers_built s
  ∧ activations (addFallbackAnimations targets s) = activations s.
Proof.
  revert s. induction targets as [|x targets IH]; intros s; [auto|].
  unfold addFallbackAnimations in *. simpl fold_left.
  destruct (IH (restyle (set_transform "translateY(0)") x
                  (restyle (set_opacity "1") x s))) as (E1 & E2 & E3 & E4).
  rewrite E1, E2, E3, E4. auto.
Qed.

(** C6, as the specification states it, fails: under reduced motion an
    element that carries the hidden presentation keeps it. *)
Lemma reduced_motion_does_not_activate : ¬ fallback_activates_all.
Proof.
  intros Hclaim.
  destruct (Hclaim (Window true true tt tt) [1] {[1 := hidden]} (or_introl eq_refl))
    as [Hshown _].
  destruct (Hshown 1) as (st & Hst & Hop & _).
  - apply list_elem_of_singleton. reflexivity.
  - apply elem_of_dom. exists hidden. apply lookup_singleton_eq.
  - simpl in Hst. rewrite lookup_singleton_eq in Hst. injection Hst as <-. discriminate.
Qed.

(** C6, amended.  Under reduced motion [init] returns at once: the manager
    is exactly as constructed, so no presentation is written (no target is
    hidden and none is activated), no observer is built and nothing is
    observed.  Without reduced motion and without [IntersectionObserver],
    every target of the document gets opacity 1 and no offset at once, and
    again no observer is built and nothing is observed. *)
Theorem reduced_motion_or_fallback {num : Type} (w : window num)
    (targets : list element) (d : gmap element style) :
  let s := init w targets (fresh d) in
  (prefersReducedMotion w = true → s = fresh d)
  ∧ (prefersReducedMotion w = false → hasIntersectionObserver w = false →
       (∀ e, e ∈ targets → e ∈ dom d → shown e s)
       ∧ observer s = None ∧ observe_calls s = 0 ∧ observers_built s = 0).
Proof.
  intros s. unfold s, init. split.
  - intros ->. reflexivity.
  - intros -> ->. simpl.
    destruct (addFallbackAnimations_quiet targets (fresh d)) as (E1 & E2 & E3 & _).
    rewrite E1, E2, E3. split; [|auto].
    intros e Hin Hdom. apply addFallbackAnimations_shown; [|auto].
    apply elem_of_dom, Hdom.
Qed.

Lemma reduced_motion_or_fallback_witness :
  init (Window true true tt tt) [1] (fresh {[1 := hidden]}) = fresh {[1 := hidden]}
  ∧ shown 1 (init (Window false false tt tt) [1] (fresh {[1 := hidden]})).
Proof.
  split.
  - exact (proj1 (reduced_motion_or_fallback (Window true true tt tt) [1]
                    {[1 := hidden]}) eq_refl).
  - refine (proj1 (proj2 (reduced_motion_or_fallback (Window false false tt tt) [1]
                    {[1 := hidden]}) eq_refl eq_refl) 1 _ _).
    + apply list_elem_of_singleton. reflexivity.
    + apply elem_of_dom. exists hidden. apply lookup_singleton_eq.
Defined.

End AnimationFacts.

(** ** Typewriter *)

Module TypewriterFacts.
Import Typewriter.

Section Machine.
Variable subtitles : list string.

Local Abbreviation typeWriter := (typeWriter subtitles).
Local Abbreviation steps := (steps subtitles).
Local Abbreviation round_state := (round_state subtitles).

Lemma steps_snoc (n : nat) (s : state) :
  steps (S n) s
  = match steps n s with
    | Some (ds, s') =>
        match typeWriter s' with
        | Scheduled d s'' => Some (ds ++ [d], s'')
        | _ => None
        end
    | None => None
    end.
Proof.
  revert s. induction n as [|n IH]; intros s.
  - simpl. destruct (typeWriter s); reflexivity.
  - change (steps (S (S n)) s)
      with (match typeWriter s with
            | Scheduled d s' =>
                match steps (S n) s' with
                | Some (ds, s'') => Some (d :: ds, s'')
                | None => None
                end
            | _ => None
            end).
    destruct (typeWriter s) as [d s'| |] eqn:E.
    + rewrite IH. simpl. rewrite E.
      destruct (Typewriter.steps subtitles n s') as [[ds s'']|]; [|reflexivity].
      destruct (typeWriter s''); reflexivity.
    + simpl. rewrite E. reflexivity.
    + simpl. rewrite E. reflexivity.
Qed.

Lemma steps_add (n m : nat) (s : state) :
  steps (n + m) s
  = match steps n s with
    | Some (ds, s') =>
        match steps m s' with
        | Some (ds', s'') => Some (ds ++ ds', s'')
        | None => None
        end
    | None => None
    end.
Proof.
  revert s. induction n as [|n IH]; intros s.
  - simpl. destruct (Typewriter.steps subtitles m s) as [[ds s']|]; reflexivity.
  - simpl. destruct (typeWriter s) as [d s'| |]; try reflexivity.
    rewrite IH. destruct (Typewriter.steps subtitles n s') as [[ds s'']|]; [|reflexivity].
    destruct (Typewriter.steps subtitles m s'') as [[ds' s3]|]; reflexivity.
Qed.

Ltac split_tests :=
  repeat match goal with
    | |- context [?a <=? ?b] => destruct (Nat.leb_spec a b)
    | |- context [?a <? ?b] => destruct (Nat.ltb_spec a b)
    | |- context [?a =? ?b] => destruct (Nat.eqb_spec a b)
    | |- context [(?a =? ?b)%Z] => destruct (Z.eqb_spec a b)
    end.

(** One firing moves the round one state forward and asks for the delay of
    its rank. *)
Lemma typeWriter_round (i : nat) (text h : string) (k : nat) :
  subtitles !! i = Some text → k < 2 * String.length text →
  typeWriter (round_state i text h k)
  = Scheduled (delay_at (String.length text) k) (round_state i text h (S k)).
Proof.
  intros Hi Hk. unfold Typewriter.typeWriter, Typewriter.round_state.
  cbn [subtitle subtitleIndex charIndex isDeleting].
  replace (k <? 2 * String.length text) with true by (symmetry; apply Nat.ltb_lt, Hk).
  rewrite Hi, andb_true_r. unfold delay_at, cursor_at.
  set (L := String.length text) in *.
  change (S k =? 0) with false. cbv iota.
  split_tests; cbn [andb]; try lia;
    repeat (f_equal; try lia).
Qed.

Lemma round_closed_form (i : nat) (text h : string) (k : nat) :
  subtitles !! i = Some text → 0 < String.length text →
  k ≤ 2 * String.length text →
  steps k (State i 0 false (Some h))
  = Some (round_delays (String.length text) k, round_state i text h k).
Proof.
  intros Hi Hpos. induction k as [|k IH]; intros Hk.
  - simpl. unfold Typewriter.round_state, cursor_at. simpl.
    destruct (String.length text); [lia | reflexivity].
  - rewrite steps_snoc, IH by lia. rewrite (typeWriter_round i text h k Hi) by lia.
    unfold round_delays. rewrite seq_S, map_app. reflexivity.
Qed.

Section NoEmptySequence.
Hypothesis some : subtitles ≠ [].
Hypothesis no_empty : Forall (λ t, t ≠ EmptyString) subtitles.

Lemma length_positive (i : nat) (text : string) :
  subtitles !! i = Some text → 0 < String.length text.
Proof.
  intros Hi. assert (text ≠ EmptyString) as Hne.
  { eapply Forall_forall in no_empty; [exact no_empty|].
    apply list_elem_of_lookup. eauto. }
  destruct text; [contradiction | simpl; lia].
Qed.

Lemma next_index_valid (i : nat) :
  ∃ text, subtitles !! ((i + 1) mod length subtitles) = Some text.
Proof.
  apply lookup_lt_is_Some. apply Nat.mod_upper_bound.
  clear no_empty. destruct subtitles; [contradiction | simpl; lia].
Qed.

Lemma typeWriter_sound (s : state) :
  sound subtitles s → ∃ d s', typeWriter s = Scheduled d s' ∧ sound subtitles s'.
Proof.
  destruct s as [i c del sub].
  intros (text & Hi & Hb & Ht & Hd & [h Hsub]). simpl in *. subst sub.
  unfold Typewriter.typeWriter. simpl. rewrite Hi.
  destruct del.
  - specialize (Hd eq_refl). destruct (Z.eqb_spec (c - 1) 0) as [E|E].
    + eexists _, _. split; [reflexivity|].
      destruct (next_index_valid i) as [text' Hi'].
      exists text'. simpl. pose proof (length_positive _ _ Hi').
      repeat split; try lia; eauto; try discriminate.
    + eexists _, _. split; [reflexivity|].
      exists text. simpl. repeat split; try lia; eauto; try discriminate.
  - specialize (Ht eq_refl).
    destruct (Z.eqb_spec (c + 1) (Z.of_nat (String.length text))) as [E|E].
    + eexists _, _. split; [reflexivity|].
      exists text. simpl. repeat split; try lia; eauto; try discriminate.
    + eexists _, _. split; [reflexivity|].
      exists text. simpl. repeat split; try lia; eauto; try discriminate.
Qed.

Lemma steps_sound (n : nat) (s : state) :
  sound subtitles s → ∃ ds s', steps n s = Some (ds, s') ∧ sound subtitles s'.
Proof.
  revert s. induction n as [|n IH]; intros s Hs.
  - exists [], s. auto.
  - destruct (typeWriter_sound s Hs) as (d & s1 & E & Hs1).
    destruct (IH s1 Hs1) as (ds & s2 & E2 & Hs2).
    exists (d :: ds), s2. simpl. rewrite E, E2. auto.
Qed.

Lemma initial_sound (h : string) : sound subtitles (initial (Some h)).
Proof.
  assert (0 < length subtitles) as Hlen.
  { clear no_empty. destruct subtitles; [contradiction | simpl; lia]. }
  destruct (lookup_lt_is_Some_2 subtitles 0 Hlen) as [t Ht].
  exists t. simpl. pose proof (length_positive 0 t Ht).
  repeat split; try lia; eauto; try discriminate.
Qed.

Lemma rounds_closed_form (n i : nat) (h : string) :
  i + n ≤ length subtitles → i < length subtitles →
  ∃ ds h',
    steps (rounds_length subtitles i n) (State i 0 false (Some h))
    = Some (ds, State ((i + n) mod length subtitles) 0 false (Some h')).
Proof.
  revert i h. induction n as [|n IH]; intros i h Hn Hi.
  - exists [], h. simpl. rewrite Nat.add_0_r, Nat.mod_small by lia. reflexivity.
  - destruct (lookup_lt_is_Some_2 subtitles i Hi) as [text Ht].
    pose proof (length_positive i text Ht) as Hpos.
    cbn [rounds_length]. rewrite steps_add.
    unfold round_length. rewrite Ht.
    change (default EmptyString (Some text)) with text.
    rewrite (round_closed_form i text h _ Ht Hpos) by lia.
    unfold Typewriter.round_state, cursor_at.
    replace (2 * String.length text <? 2 * String.length text) with false
      by (symmetry; apply Nat.ltb_ge; lia).
    replace (2 * String.length text <=? String.length text) with false
      by (symmetry; apply Nat.leb_gt; lia).
    replace (2 * String.length text =? 0) with false
      by (symmetry; apply Nat.eqb_neq; lia).
    rewrite andb_false_r, Nat.sub_diag.
    destruct (decide (S i < length subtitles)) as [Hlt|Hge].
    + rewrite (Nat.mod_small (i + 1)) by lia.
      replace (i + 1) with (S i) by lia.
      destruct (IH (S i) (substring0 (Z.of_nat 0) text +:+ cursor_span)) as (ds & h' & E);
        [lia | lia |].
      change (Z.of_nat 0) with 0%Z in *.
      rewrite E. replace (i + S n) with (S i + n) by lia. eauto.
    + assert (n = 0) as -> by lia. simpl.
      replace (i + 1) with (length subtitles) by lia. eauto.
Qed.

Lemma cycle_of_nonempty : cycle_holds subtitles.
Proof.
  split; [|split].
  - intros h n. destruct (steps_sound n _ (initial_sound h)) as (ds & s & E & Hs).
    exists ds, s. split; [exact E|]. destruct Hs as (text & Hi & Hb & _). exists text. auto.
  - intros i text h k Hi Hk. apply round_closed_form; eauto using length_positive.
  - intros h.
    destruct (rounds_closed_form (length subtitles) 0 h) as (ds & h' & E).
    + lia.
    + clear no_empty. destruct subtitles; [contradiction | simpl; lia].
    + unfold initial. rewrite E. eexists _, _. split; [reflexivity|].
      unfold at_start. simpl. rewrite Nat.Div0.mod_same. auto.
Qed.

End NoEmptySequence.

End Machine.

(** The specification's example: over [ab] and [cd], two firings type [ab],
    two more delete it, and the machine is ready to type [cd]. *)
Example typewriter_ab_cd :
  steps ["ab"; "cd"] 2 (initial (Some EmptyString))
  = Some ([100; 2000], State 0 2 true (Some ("ab" +:+ cursor_span)))
  ∧ steps ["ab"; "cd"] 4 (initial (Some EmptyString))
    = Some ([100; 2000; 50; 500], State 1 0 false (Some cursor_span))
  ∧ steps ["ab"; "cd"] 6 (initial (Some EmptyString))
    = Some ([100; 2000; 50; 500; 100; 2000], State 1 2 true (Some ("cd" +:+ cursor_span))).
Proof. repeat split; vm_compute; reflexivity. Qed.

(** The list must hold no empty string: over the one empty sequence the
    first firing already leaves the cursor at 1, past the end of the text.
    The script never has such a list: [subtitles] is a constant of four
    sequences, none of them empty. *)
Remark empty_sequence_never_completes :
  ¬ (∀ subtitles : list string, subtitles ≠ [] → cycle_holds subtitles).
Proof.
  intros Hclaim. destruct (Hclaim [EmptyString]) as [Hb _]; [discriminate|].
  destruct (Hb EmptyString 1) as (ds & s & E & text & Ht & Hc).
  vm_compute in E. injection E as <- <-. simpl in Ht.
  injection Ht as <-. simpl in Hc. lia.
Qed.

(** C5.  For a non-empty list of sequences none of which is empty, as is
    the constant list of four sequences the script has, the cycle of the
    specification holds: the chain of firings never breaks and keeps the
    cursor between 0 and the length of the current sequence; [k] firings
    into the round of sequence [i] the element shows the first [cursor_at]
    characters; the round ends, after the pause of 2000 and the pause of
    500, on index [(i + 1) mod N] with the cursor at 0, typing; and after
    the rounds of all [N] sequences the variables have their initial
    values again. *)
Theorem typewriter_cycle (subtitles : list string) :
  subtitles ≠ [] → Forall (λ t, t ≠ EmptyString) subtitles →
  cycle_holds subtitles.
Proof. intros Hne Hall. apply cycle_of_nonempty; assumption. Qed.

Lemma typewriter_cycle_witness :
  Typewriter.subtitles ≠ []
  ∧ Forall (λ t, t ≠ EmptyString) Typewriter.subtitles
  ∧ cycle_holds Typewriter.subtitles.
Proof.
  assert (Typewriter.subtitles ≠ []) as H1 by discriminate.
  assert (Forall (λ t, t ≠ EmptyString) Typewriter.subtitles) as H2
    by (repeat constructor; discriminate).
  exact (conj H1 (conj H2 (typewriter_cycle Typewriter.subtitles H1 H2))).
Defined.

End TypewriterFacts.

(** ** Pointer effects *)

Module PointerFacts.
Import Dom PointerEffects.

Ltac peel H s :=
  repeat (destruct s as [|? s];
          [simpl in H; discriminate H | simpl in H; injection H as _ H]);
  destruct s; simpl in H; discriminate H.

Lemma magnetic_not_resting (a b : string) :
  "translate(" +:+ a +:+ "px, " +:+ b +:+ "px) scale(1.05)" ≠ "translate(0, 0) scale(1)".
Proof. intros E. simpl in E. injection E as E. peel E a. Qed.

(** C7 does not hold of the script.  With the reduced-motion query
    matching, every [mousemove] still makes the magnetic button, the
    parallax and the tilt handlers compute and write their transform, which
    is neither the unset value nor the resting value their [mouseleave]
    writes; the [.btn] hover of [ContactManager], which does consult the
    query, leaves the style alone. *)
Theorem pointer_effects_ignore_reduced_motion {num : Type} `{JsNumber num}
    (io : bool) (iw ih : num) (r : rect) (e : mouse) (st : style) :
  let w := Window true io iw ih in
  let x := sub (sub (clientX e) (left r)) (div (width r) (lit "2")) in
  let y := sub (sub (clientY e) (top r)) (div (height r) (lit "2")) in
  transform (magnetic_mousemove w r e st)
  = "translate(" +:+ show (mul x (lit "0.1")) +:+ "px, "
      +:+ show (mul y (lit "0.1")) +:+ "px) scale(1.05)"
  ∧ transform (magnetic_mousemove w r e st) ≠ transform (magnetic_mouseleave st)
  ∧ transform (magnetic_mousemove w r e st) ≠ EmptyString
  ∧ transform (tilt_mousemove w r e st) ≠ transform (tilt_mouseleave st)
  ∧ transform (tilt_mousemove w r e st) ≠ EmptyString
  ∧ (∃ st', parallax_mousemove w e (Some st) = Some st' ∧ transform st' ≠ EmptyString)
  ∧ btn_mouseenter w st = st.
Proof.
  intros w x y. split; [reflexivity|]. split; [apply magnetic_not_resting|].
  split; [discriminate|]. split; [discriminate|]. split; [discriminate|].
  split; [|reflexivity]. eexists. split; [reflexivity | discriminate].
Qed.

End PointerFacts.

(** ** ReniLandingPage *)

Module RootFacts.
Import ReniLandingPage.

Section Init.
Variable throws : class → bool.

Lemma assign_all_app (p q : list (string * class)) (s : state) :
  assign_all throws (p ++ q) s
  = match assign_all throws p s with
    | Normal s' => assign_all throws q s'
    | Thrown s' => Thrown s'
    end.
Proof.
  revert s. induction p as [|[key c] p IH]; intros s; [reflexivity|].
  simpl. destruct (assign_new throws key c s); [apply IH | reflexivity].
Qed.

(** Assignments that all complete do what they do when nothing raises:
    they register their keys and touch no other. *)
Lemma assign_all_clean (p : list (string * class)) (s : state) :
  clean throws p →
  ∃ s1, assign_all throws p s = Normal s1
        ∧ assign_all never p s = Normal s1
        ∧ isInitialized s1 = isInitialized s
        ∧ console s1 = console s
        ∧ length (constructed s1) = length (constructed s) + length p
        ∧ (∀ key c, (key, c) ∈ p → ∃ obj, modules s1 !! key = Some obj)
        ∧ (∀ key, key ∉ p.*1 → modules s1 !! key = modules s !! key).
Proof.
  revert s. induction p as [|[key c] p IH]; intros s Hc.
  - exists s. simpl. repeat split; auto. intros key c Hin. apply elem_of_nil in Hin as [].
  - assert (throws c = false) as Hk by (apply (Hc key); left).
    assert (clean throws p) as Hp by (intros k' c' Hin; apply (Hc k'); right; exact Hin).
    simpl. unfold assign_new, never. rewrite Hk.
    destruct (IH (State (<[key:=Instance c (length (constructed s))]> (modules s))
                        (isInitialized s)
                        (constructed s ++ [Instance c (length (constructed s))])
                        (console s)) Hp)
      as (s1 & E1 & E2 & Ei & Eo & El & Hreg & Hother).
    exists s1. simpl in *. rewrite length_app in El. simpl in El.
    split; [exact E1|]. split; [exact E2|]. split; [exact Ei|]. split; [exact Eo|].
    split; [lia|]. split.
    + intros k' c' Hin. apply elem_of_cons in Hin as [[= -> ->]|Hin]; [|eauto].
      destruct (decide (key ∈ p.*1)) as [Hdup|Hnew].
      * apply list_elem_of_fmap in Hdup as ([k2 c2] & -> & Hin). eauto.
      * rewrite (Hother key Hnew), lookup_insert_eq. eauto.
    + intros k' Hk'. apply not_elem_of_cons in Hk' as [Hne Hk'].
      rewrite (Hother k' Hk'), lookup_insert_ne; auto.
Qed.

(** The assignments neither read nor write [isInitialized]. *)
Lemma assign_all_flag (p : list (string * class)) (s : state) (b : bool) :
  assign_all throws p (with_flag b s)
  = match assign_all throws p s with
    | Normal s1 => Normal (with_flag b s1)
    | Thrown s1 => Thrown (with_flag b s1)
    end.
Proof.
  revert s. induction p as [|[key c] p IH]; intros s; [reflexivity|].
  destruct s as [m i cs co]. cbn [assign_all]. unfold assign_new, with_flag.
  cbn [modules isInitialized constructed console].
  destruct (throws c); [reflexivity|].
  exact (IH (State (<[key:=Instance c (length cs)]> m) i
                   (cs ++ [Instance c (length cs)]) co)).
Qed.

End Init.

Lemma plan_keys_distinct : NoDup (plan.*1).
Proof.
  compute_done.
Qed.

(** Fault-free assignments register, under each key, the object built at
    the rank of the key in the list. *)
Lemma assign_all_lookup (p : list (string * class)) (s : state) :
  NoDup (p.*1) →
  ∃ s1, assign_all never p s = Normal s1
        ∧ constructed s1
          = constructed s ++ imap (λ i kc, Instance kc.2 (length (constructed s) + i)) p
        ∧ (∀ i key c, p !! i = Some (key, c) →
             modules s1 !! key = Some (Instance c (length (constructed s) + i)))
        ∧ (∀ key, key ∉ p.*1 → modules s1 !! key = modules s !! key).
Proof.
  revert s. induction p as [|[key c] p IH]; intros s Hnd.
  - exists s. simpl. rewrite app_nil_r. repeat split; auto. intros i k c' H. discriminate.
  - rewrite fmap_cons in Hnd. apply NoDup_cons in Hnd as [Hnew Hnd]. cbn [fst] in Hnew.
    cbn [assign_all]. unfold assign_new, never.
    set (s' := State (<[key:=Instance c (length (constructed s))]> (modules s))
                     (isInitialized s)
                     (constructed s ++ [Instance c (length (constructed s))])
                     (console s)).
    destruct (IH s' Hnd) as (s1 & E & Hcons & Hreg & Hother).
    assert (length (constructed s') = S (length (constructed s))) as Hlen
      by (unfold s'; simpl; rewrite length_app; simpl; lia).
    exists s1. split; [exact E|]. split; [|split].
    + rewrite Hcons. unfold s' at 1. cbn [constructed]. rewrite <- app_assoc.
      cbn [imap app]. rewrite Nat.add_0_r. f_equal. f_equal.
      apply imap_ext. intros i x _. unfold compose. rewrite Hlen. f_equal. lia.
    + intros [|i] k c' Hi.
      * injection Hi as <- <-. rewrite (Hother key Hnew). unfold s'. simpl.
        rewrite lookup_insert_eq, Nat.add_0_r. reflexivity.
      * simpl in Hi. rewrite (Hreg i k c' Hi), Hlen. do 2 f_equal. lia.
    + intros k Hk. rewrite fmap_cons in Hk. apply not_elem_of_cons in Hk as [Hne Hk].
      rewrite (Hother k Hk). unfold s'. simpl. apply lookup_insert_ne. auto.
Qed.

Lemma getModule_init_lookup (s : state) :
  (∀ i key c, plan !! i = Some (key, c) →
     getModule key (init never s) = Some (Instance c (length (constructed s) + i)))
  ∧ (∀ name, name ∉ plan.*1 → getModule name (init never s) = getModule name s).
Proof.
  destruct (assign_all_lookup plan s plan_keys_distinct) as (s1 & E & _ & Hreg & Hother).
  unfold init, getModule. rewrite E. simpl. split; [exact Hreg | exact Hother].
Qed.

(** C8, as the specification states it, fails: a second [init()] on the
    initialized root constructs the six modules once more. *)
Lemma second_init_constructs_again : ¬ second_init_is_noop.
Proof.
  unfold second_init_is_noop. intros E.
  apply (f_equal (λ s, length (constructed s))) in E. vm_compute in E. discriminate.
Qed.

(** C8, amended.  When no constructor raises, [init()] ends with
    [isInitialized] set to true but never reads it.  A second call on the
    initialized root builds six more objects, those of ranks [n + 6] to
    [n + 11] when [n] objects existed before the first call, none of which
    existed after the first call; under the key at rank [i] of the plan,
    where the first call had registered the object of rank [n + i], it
    registers the new object of rank [n + 6 + i] in its place; and it does
    the same whatever value [isInitialized] has. *)
Theorem init_sets_flag_without_reading_it (s : state) (b : bool) :
  let s1 := init never s in
  let s2 := init never s1 in
  let n := length (constructed s) in
  isInitialized s1 = true ∧ isInitialized s2 = true
  ∧ length (constructed s1) = n + 6
  ∧ length (constructed s2) = n + 12
  ∧ (∀ i key c, plan !! i = Some (key, c) →
       getModule key s1 = Some (Instance c (n + i))
       ∧ getModule key s2 = Some (Instance c (n + 6 + i))
       ∧ getModule key s2 ≠ getModule key s1
       ∧ constructed s1 !! (n + 6 + i) = None
       ∧ constructed s2 !! (n + 6 + i) = Some (Instance c (n + 6 + i)))
  ∧ init never (with_flag b s) = s1
  ∧ init never (with_flag b s1) = s2.
Proof.
  intros s1 s2 n.
  assert (∀ s0, isInitialized (init never s0) = true
                ∧ constructed (init never s0)
                  = constructed s0
                    ++ imap (λ i kc, Instance kc.2 (length (constructed s0) + i)) plan)
    as Hinit.
  { intros s0. destruct (assign_all_lookup plan s0 plan_keys_distinct)
      as (s' & E & Hcons & _).
    unfold init. rewrite E. simpl. split; [reflexivity | exact Hcons]. }
  destruct (Hinit s) as [Hf1 Hc1]. destruct (Hinit s1) as [Hf2 Hc2].
  fold s1 in Hf1, Hc1. fold s2 in Hf2, Hc2.
  assert (length (constructed s1) = n + 6) as Hl1
    by (rewrite Hc1, length_app, length_imap; reflexivity).
  rewrite Hl1 in Hc2.
  split; [exact Hf1|]. split; [exact Hf2|]. split; [exact Hl1|]. split.
  { rewrite Hc2, length_app, length_imap, Hl1. simpl. lia. }
  split.
  - intros i key c Hi.
    pose proof (proj1 (getModule_init_lookup s) i key c Hi) as H1.
    pose proof (proj1 (getModule_init_lookup s1) i key c Hi) as H2.
    fold s1 in H1. fold s2 in H2. rewrite Hl1 in H2.
    split; [exact H1|]. split; [exact H2|]. split.
    + rewrite H1, H2. intros [= E]. lia.
    + split.
      * apply lookup_ge_None. lia.
      * rewrite Hc2, lookup_app_r by lia.
        replace (n + 6 + i - length (constructed s1)) with i by lia.
        rewrite list_lookup_imap, Hi. reflexivity.
  - assert (∀ s0, init never (with_flag b s0) = init never s0) as Hflag.
    { intros s0. destruct (assign_all_lookup plan s0 plan_keys_distinct) as (s' & E & _).
      unfold init. rewrite assign_all_flag, E. reflexivity. }
    split; apply Hflag.
Qed.

(** C9, as the specification states it, fails: when the constructor of
    [PerformanceMonitor] raises, [smoothScrollManager] is never registered. *)
Lemma fault_aborts_later_siblings : ¬ siblings_survive.
Proof.
  intros Hclaim.
  destruct (Hclaim PerformanceMonitor "smoothScrollManager" SmoothScrollManager)
    as [obj Hobj].
  - compute_done.
  - discriminate.
  - vm_compute in Hobj. discriminate.
Qed.

(** C9, amended.  When the constructor of a module raises and those before
    it in the plan do not, [init()] returns normally with the failure
    logged on the console and [isInitialized] as it was; the modules before
    the faulty one are constructed and registered as in a run without
    fault; the faulty module and every module after it in the plan are not
    constructed, and their keys are left as they were. *)
Theorem fault_is_caught_and_stops_the_rest (throws : class → bool) (s : state)
    (before after : list (string * class)) (key : string) (bad : class) :
  plan = before ++ (key, bad) :: after → clean throws before → throws bad = true →
  ∃ s1,
    assign_all never before s = Normal s1
    ∧ init throws s = log "Failed to initialize Reni Landing Page:" s1
    ∧ isInitialized (init throws s) = isInitialized s
    ∧ length (constructed (init throws s)) = length (constructed s) + length before
    ∧ (∀ k c, (k, c) ∈ before → ∃ obj, getModule k (init throws s) = Some obj)
    ∧ (∀ k c, (k, c) ∈ (key, bad) :: after →
         getModule k (init throws s) = getModule k s).
Proof.
  intros Hplan Hclean Hbad.
  destruct (assign_all_clean throws before s Hclean)
    as (s1 & E & En & Ei & Eo & El & Hreg & Hother).
  assert (init throws s = log "Failed to initialize Reni Landing Page:" s1) as Einit.
  { unfold init. rewrite Hplan, assign_all_app, E. simpl.
    unfold assign_new. rewrite Hbad. reflexivity. }
  exists s1. rewrite Einit. simpl. unfold getModule. simpl.
  split; [exact En|]. split; [reflexivity|]. split; [exact Ei|]. split; [exact El|].
  split; [exact Hreg|].
  intros k c Hin. apply Hother.
  pose proof plan_keys_distinct as Hnd. rewrite Hplan, fmap_app in Hnd.
  apply NoDup_app in Hnd as (_ & Hdisj & _).
  intros Hk. apply (Hdisj k Hk).
  apply list_elem_of_fmap. exists (k, c). auto.
Qed.

Lemma fault_is_caught_and_stops_the_rest_witness :
  console (init (only PerformanceMonitor) create)
  = ["Failed to initialize Reni Landing Page:"]
  ∧ getModule "smoothScrollManager" (init (only PerformanceMonitor) create) = None.
Proof.
  destruct (fault_is_caught_and_stops_the_rest (only PerformanceMonitor) create
              [("errorManager", ErrorManager)]
              [("smoothScrollManager", SmoothScrollManager);
               ("animationManager", AnimationManager);
               ("contactManager", ContactManager);
               ("accessibilityManager", AccessibilityManager)]
              "performanceMonitor" PerformanceMonitor eq_refl)
    as (s1 & E1 & E2 & _ & _ & _ & Hrest).
  - intros k c Hin. apply list_elem_of_singleton in Hin as [= -> ->]. reflexivity.
  - reflexivity.
  - split.
    + rewrite E2. injection E1 as <-. reflexivity.
    + rewrite (Hrest "smoothScrollManager" SmoothScrollManager); [reflexivity|].
      right. left.
Defined.

End RootFacts.

(** ** What the page shows of an animated element *)

Module AnimationPresentationFacts.
Import Dom AnimationManager AnimationFacts AnimationPresentation.

Lemma on_entry_tracks (s0 s : state) (en : entry) :
  coherent s → tracks s0 s → tracks s0 (on_entry s en).
Proof.
  intros Hc Ht.
  destruct (on_entry_cases s en) as [[E _]|[Hi Hout]]; [rewrite E; exact Ht|].
  destruct (on_entry_fire s en Hi Hout) as (Ea & _).
  assert (target en ∉ activations s) as Hnew by (intros H; apply Hout, Hc, H).
  assert (∀ e, doc (on_entry s en) !! e
               = if decide (target en = e)
                 then (λ st, set_transform "translateY(0)"
                               (set_opacity "1"
                                  (set_transition
                                     "opacity 0.6s ease-out, transform 0.6s ease-out" st)))
                      <$> doc s !! e
                 else doc s !! e) as Hdoc.
  { intros e. unfold on_entry. rewrite Hi, bool_decide_eq_false_2 by assumption.
    cbn -[alter]. unfold animateElement. cbn -[alter].
    destruct (decide (target en = e)) as [->|Hne].
    - rewrite !lookup_alter_eq. destruct (doc s !! e); reflexivity.
    - rewrite !lookup_alter_ne by assumption. reflexivity. }
  intros e. unfold revealed. rewrite Ea, Hdoc, elem_of_app, list_elem_of_singleton. split.
  - intros Hin [st0 Hst0]. destruct (decide (target en = e)) as [<-|Hne].
    + destruct (Ht (target en)) as [_ Hsame]. rewrite (Hsame Hnew), Hst0.
      eexists. split; [reflexivity|]. repeat split.
    + destruct Hin as [Hin| ->]; [|contradiction].
      destruct (Ht e) as [Hrev _]. apply Hrev; eauto.
  - intros Hout'. destruct (decide (target en = e)) as [<-|Hne].
    + exfalso. apply Hout'. auto.
    + apply Ht. intros Hin. apply Hout'. auto.
Qed.

Lemma deliver_tracks (batches : list (list entry)) (s0 s : state) :
  coherent s → tracks s0 s → tracks s0 (deliver batches s).
Proof.
  revert s. induction batches as [|b batches IH]; intros s Hc Ht; [exact Ht|].
  change (deliver (b :: batches) s) with (deliver batches (callback b s)).
  apply IH; [apply callback_coherent, Hc|].
  clear IH. revert s Hc Ht. induction b as [|en b IHb]; intros s Hc Ht; [exact Ht|].
  apply IHb; [apply on_entry_coherent, Hc | apply on_entry_tracks; assumption].
Qed.

Lemma observe_step_doc (x e : element) (s : state) :
  doc (observe x (restyle (set_transform "translateY(30px)") x
                    (restyle (set_opacity "0") x s))) !! e
  = if decide (x = e)
    then (λ st, set_transform "translateY(30px)" (set_opacity "0" st)) <$> doc s !! e
    else doc s !! e.
Proof.
  cbn -[alter]. destruct (decide (x = e)) as [->|Hne].
  - rewrite !lookup_alter_eq. destruct (doc s !! e); reflexivity.
  - rewrite !lookup_alter_ne by assumption. reflexivity.
Qed.

(** [observeElements] hides the targets and touches nothing else. *)
Lemma observeElements_doc (targets : list element) (s : state) (e : element) :
  (e ∉ targets → doc (observeElements targets s) !! e = doc s !! e)
  ∧ (e ∈ targets → ∀ st0, doc s !! e = Some st0 →
       ∃ st, doc (observeElements targets s) !! e = Some st
             ∧ opacity st = "0" ∧ transform st = "translateY(30px)"
             ∧ transition st = transition st0).
Proof.
  assert (∀ l s0, (∀ st0, doc s0 !! e = Some st0 →
                     (e ∈ l ∨ (opacity st0 = "0" ∧ transform st0 = "translateY(30px)")) →
                     ∃ st, doc (observeElements l s0) !! e = Some st
                           ∧ opacity st = "0" ∧ transform st = "translateY(30px)"
                           ∧ transition st = transition st0)
                  ∧ (e ∉ l → doc (observeElements l s0) !! e = doc s0 !! e)) as Hgen.
  { induction l as [|x l IH]; intros s0.
    - split; [|reflexivity]. intros st0 Hst0 [Hin|Hhid]; [apply elem_of_nil in Hin as []|].
      exists st0. simpl. tauto.
    - unfold observeElements in *. cbn [fold_left].
      set (s1 := observe x (restyle (set_transform "translateY(30px)") x
                              (restyle (set_opacity "0") x s0))).
      destruct (IH s1) as [IHin IHout]. split.
      + intros st0 Hst0 Hwhy.
        pose proof (observe_step_doc x e s0) as Hdoc. fold s1 in Hdoc.
        destruct (decide (x = e)) as [->|Hne].
        * rewrite Hst0 in Hdoc. simpl in Hdoc.
          destruct (IHin _ Hdoc) as (st & Hst & Ho & Ht & Htr); [right; split; reflexivity|].
          exists st. auto.
        * rewrite Hst0 in Hdoc.
          destruct (IHin _ Hdoc) as (st & Hst & Hrest); [|eauto].
          destruct Hwhy as [Hin|Hhid]; [|auto].
          apply elem_of_cons in Hin as [->|Hin]; [contradiction | auto].
      + intros Hout. apply not_elem_of_cons in Hout as [Hne Hout].
        rewrite (IHout Hout). pose proof (observe_step_doc x e s0) as Hdoc. fold s1 in Hdoc.
        rewrite Hdoc. destruct (decide (x = e)); [congruence | reflexivity]. }
  destruct (Hgen targets s) as [Hin Hout]. split; [exact Hout|].
  intros He st0 Hst0. apply (Hin st0 Hst0). auto.
Qed.

(** X1. When the manager observes, then after any batches of entries a
    target of the document that some entry reported intersecting has
    opacity 1, no offset and the fade transition, and a target that no entry
    reported intersecting still has opacity 0 and the offset of 30px, with
    the transition it had before. *)
Theorem observed_target_presentation {num : Type} (w : window num)
    (targets : list element) (d : gmap element style)
    (batches : list (list entry)) (e : element) :
  prefersReducedMotion w = false → hasIntersectionObserver w = true →
  e ∈ targets → e ∈ dom d →
  let s := deliver batches (init w targets (fresh d)) in
  (crossed e batches → revealed e s)
  ∧ (¬ crossed e batches → concealed d e s).
Proof.
  intros Hrm Hio Hin Hdom s.
  destruct (init_coherent w targets d) as [Hc0 Ha0].
  set (s0 := init w targets (fresh d)) in *.
  assert (tracks s0 s) as Ht.
  { apply deliver_tracks; [exact Hc0|]. intros x. split; [|reflexivity].
    rewrite Ha0. intros H. apply elem_of_nil in H as []. }
  pose proof (deliver_log batches s0 e Hc0) as Hlog. fold s in Hlog. rewrite Ha0 in Hlog.
  apply elem_of_dom in Hdom as [st0 Hst0].
  assert (∃ st, doc s0 !! e = Some st ∧ opacity st = "0"
                ∧ transform st = "translateY(30px)" ∧ transition st = transition st0)
    as (st1 & Hst1 & Hhid).
  { unfold s0, init. rewrite Hrm, Hio. simpl.
    apply (observeElements_doc targets (setupObserver (fresh d)) e); assumption. }
  split.
  - intros Hx. apply (Ht e); [apply Hlog; auto | eauto].
  - intros Hx. exists st0, st1. split; [exact Hst0|]. split; [|exact Hhid].
    destruct (Ht e) as [_ Hsame]. rewrite Hsame; [exact Hst1|].
    rewrite Hlog. intros [H|H]; [apply elem_of_nil in H as [] | auto].
Qed.

Lemma observed_target_presentation_witness :
  revealed 2
    (deliver [[Entry 1 false; Entry 2 true]; [Entry 2 false]]
       (init (Window false true tt tt) [1; 2] (fresh {[1 := blank; 2 := blank]}))).
Proof.
  refine (proj1 (observed_target_presentation (Window false true tt tt) [1; 2]
            {[1 := blank; 2 := blank]} [[Entry 1 false; Entry 2 true]; [Entry 2 false]]
            2 eq_refl eq_refl _ _) _).
  - apply elem_of_cons. right. apply elem_of_cons. left. reflexivity.
  - apply elem_of_dom. exists blank. reflexivity.
  - exists [Entry 1 false; Entry 2 true], (Entry 2 true).
    split; [apply elem_of_cons; left; reflexivity|].
    split; [apply elem_of_cons; right; apply elem_of_cons; left; reflexivity|].
    split; reflexivity.
Defined.

End AnimationPresentationFacts.

(** ** Hover on contact buttons *)

Module ContactHoverFacts.
Import Dom PointerEffects ContactHover.

Lemma hovers_snoc {num : Type} (w : window num) (hs : list hover) (h : hover) (st : style) :
  hovers w (hs ++ [h]) st = on_hover w (hovers w hs st) h.
Proof. unfold hovers. rewrite fold_left_app. reflexivity. Qed.

(** X2. Over any sequence of pointer entries and leaves on a contact
    button, only the transform is ever written.  Under reduced motion the
    lift of 2px is never applied: the transform is [translateY(0)] once the
    pointer has left at least once and untouched before.  Without reduced
    motion the transform is decided by the last event alone. *)
Theorem contact_hover_respects_reduced_motion {num : Type} (w : window num)
    (hs : list hover) (st : style) :
  let st' := hovers w hs st in
  opacity st' = opacity st ∧ transition st' = transition st
  ∧ (prefersReducedMotion w = true →
       transform st' = if existsb is_leave hs then "translateY(0)" else transform st)
  ∧ (prefersReducedMotion w = false →
       transform st' = match last hs with
                       | None => transform st
                       | Some Enter => "translateY(-2px)"
                       | Some Leave => "translateY(0)"
                       end).
Proof.
  induction hs as [|h hs IH] using rev_ind; [simpl; auto|].
  cbn zeta in *. rewrite hovers_snoc, last_snoc, existsb_app.
  destruct IH as (Ho & Ht & Hrm & Hfree).
  destruct h; unfold on_hover, btn_mouseenter, btn_mouseleave.
  - destruct (prefersReducedMotion w); simpl.
    + rewrite orb_false_r. repeat split; auto. discriminate.
    + repeat split; auto. discriminate.
  - simpl. rewrite orb_true_r. repeat split; auto.
Qed.

Lemma contact_hover_respects_reduced_motion_witness :
  transform (hovers (Window true true tt tt) [Enter; Leave; Enter] blank) = "translateY(0)"
  ∧ transform (hovers (Window false true tt tt) [Enter; Leave; Enter] blank) = "translateY(-2px)".
Proof.
  split.
  - exact (proj1 (proj2 (proj2 (contact_hover_respects_reduced_motion
             (Window true true tt tt) [Enter; Leave; Enter] blank))) eq_refl).
  - exact (proj2 (proj2 (proj2 (contact_hover_respects_reduced_motion
             (Window false true tt tt) [Enter; Leave; Enter] blank))) eq_refl).
Defined.

End ContactHoverFacts.

(** ** The registry of the application root *)

Module RegistryFacts.
Import ReniLandingPage RootFacts.

(** X3. After an [init()] in which no constructor raises, [getModule]
    returns, for the key at rank [i] of the plan, the object of the planned
    class built at rank [i] of that call, whatever the root held before. *)
Theorem getModule_after_init (s : state) (i : nat) (key : string) (c : class) :
  plan !! i = Some (key, c) →
  getModule key (init never s) = Some (Instance c (length (constructed s) + i)).
Proof. apply getModule_init_lookup. Qed.

Lemma getModule_after_init_witness :
  getModule "animationManager" (init never create) = Some (Instance AnimationManager (0 + 3)).
Proof. exact (getModule_after_init create 3 "animationManager" AnimationManager eq_refl). Defined.

(** X4. [destroy()] unregisters the six modules and clears the flag, and
    calling it again changes nothing more; it tears nothing down, so the
    objects built so far stay built.  An [init()] after it registers six
    new objects, none of them one of the earlier ones. *)
Theorem destroy_then_init (s : state) :
  (∀ i key c, plan !! i = Some (key, c) → getModule key (destroy s) = None)
  ∧ isInitialized (destroy s) = false
  ∧ constructed (destroy s) = constructed s
  ∧ destroy (destroy s) = destroy s
  ∧ (∀ i key c, plan !! i = Some (key, c) →
       getModule key (init never (destroy (init never s)))
       = Some (Instance c (length (constructed s) + 6 + i)))
  ∧ (∀ i key c obj, plan !! i = Some (key, c) →
       getModule key (init never s) = Some obj →
       getModule key (init never (destroy (init never s))) ≠ Some obj
       ∧ obj ∈ constructed (init never (destroy (init never s)))).
Proof.
  assert (∀ s0, length (constructed (init never s0)) = length (constructed s0) + 6
                ∧ ∃ l, constructed (init never s0) = constructed s0 ++ l) as Hlen.
  { intros s0. destruct (assign_all_lookup plan s0 plan_keys_distinct)
      as (s1 & E & Hcons & _).
    unfold init. rewrite E. simpl. rewrite Hcons, length_app, length_imap.
    split; [reflexivity | eauto]. }
  assert (∀ i key c, plan !! i = Some (key, c) →
       getModule key (init never (destroy (init never s)))
       = Some (Instance c (length (constructed s) + 6 + i))) as Hagain.
  { intros i key c Hi.
    rewrite (proj1 (getModule_init_lookup (destroy (init never s))) i key c Hi).
    unfold destroy at 1. cbn [constructed]. destruct (Hlen s) as [-> _]. reflexivity. }
  split; [intros i key c _; apply lookup_empty|]. split; [reflexivity|].
  split; [reflexivity|]. split; [reflexivity|]. split; [exact Hagain|].
  intros i key c obj Hi Hobj.
  rewrite (proj1 (getModule_init_lookup s) i key c Hi) in Hobj. injection Hobj as <-.
  split.
  - rewrite (Hagain i key c Hi). intros [= E]. lia.
  - destruct (Hlen (destroy (init never s))) as [_ [l ->]].
    unfold destroy. cbn [constructed]. apply elem_of_app. left.
    destruct (assign_all_lookup plan s plan_keys_distinct) as (s1 & E & Hcons & _).
    unfold init. rewrite E. simpl. rewrite Hcons. apply elem_of_app. right.
    apply list_elem_of_lookup. exists i. rewrite list_lookup_imap, Hi. reflexivity.
Qed.

End RegistryFacts.

(** ** The duration of a typewriter round *)

Module TypewriterTiming.
Import Typewriter TypewriterFacts.

Lemma sum_constant (f : nat → nat) (c a n : nat) :
  (∀ k, a ≤ k < a + n → f k = c) → sum_list (map f (seq a n)) = n * c.
Proof.
  revert a. induction n as [|n IH]; intros a Hf; [reflexivity|].
  simpl. rewrite (Hf a) by lia. rewrite (IH (S a)); [lia|].
  intros k Hk. apply Hf. lia.
Qed.

Lemma round_delays_total (L : nat) :
  0 < L → sum_list (round_delays L (2 * L)) = 150 * L + 2350.
Proof.
  intros HL. unfold round_delays. destruct L as [|m]; [lia|]. clear HL.
  replace (2 * S m) with (m + (1 + (m + 1))) by lia.
  rewrite !seq_app, !map_app, !sum_list_with_app.
  rewrite (sum_constant (delay_at (S m)) 100 0 m),
    (sum_constant (delay_at (S m)) 50 (0 + m + 1) m).
  - cbn [seq map sum_list_with].
    assert (delay_at (S m) (0 + m) = 2000) as ->.
    { unfold delay_at.
      destruct (Nat.ltb_spec (S (0 + m)) (S m)); [lia|].
      destruct (Nat.eqb_spec (S (0 + m)) (S m)); [reflexivity | lia]. }
    assert (delay_at (S m) (0 + m + 1 + m) = 500) as ->.
    { unfold delay_at.
      destruct (Nat.ltb_spec (S (0 + m + 1 + m)) (S m)); [lia|].
      destruct (Nat.eqb_spec (S (0 + m + 1 + m)) (S m)); [lia|].
      destruct (Nat.ltb_spec (S (0 + m + 1 + m)) (2 * S m)); [lia | reflexivity]. }
    unfold id. lia.
  - intros k Hk. unfold delay_at.
    destruct (Nat.ltb_spec (S k) (S m)); [lia|].
    destruct (Nat.eqb_spec (S k) (S m)); [lia|].
    destruct (Nat.ltb_spec (S k) (2 * S m)); [reflexivity | lia].
  - intros k Hk. unfold delay_at.
    destruct (Nat.ltb_spec (S k) (S m)); [reflexivity | lia].
Qed.

(** X5. Over a list in which sequence [i] is the non-empty [text], the
    round of that sequence is a chain of twice its length in timer
    firings, none of which breaks, and the delays it asks of [setTimeout]
    add up to 150 per character plus 2350. *)
Theorem typewriter_round_duration (subtitles : list string) (i : nat)
    (text h : string) :
  subtitles !! i = Some text → text ≠ EmptyString →
  ∃ ds s,
    steps subtitles (2 * String.length text) (State i 0 false (Some h)) = Some (ds, s)
    ∧ length ds = 2 * String.length text
    ∧ sum_list ds = 150 * String.length text + 2350.
Proof.
  intros Hi Hne.
  assert (0 < String.length text) as HL by (destruct text; [contradiction | simpl; lia]).
  eexists _, _. split; [apply (round_closed_form subtitles i text h _ Hi HL); lia|].
  split; [|apply round_delays_total, HL].
  unfold round_delays. rewrite length_map, length_seq. reflexivity.
Qed.

Lemma typewriter_round_duration_witness :
  ∃ ds s,
    steps Typewriter.subtitles (2 * 28) (State 3 0 false (Some EmptyString)) = Some (ds, s)
    ∧ length ds = 2 * 28 ∧ sum_list ds = 150 * 28 + 2350.
Proof.
  exact (typewriter_round_duration Typewriter.subtitles 3
           "Next-level digital solutions" EmptyString eq_refl ltac:(discriminate)).
Defined.

End TypewriterTiming.

(** ** The debounce of the services script *)

Module ScrollDebounceFacts.
Import Timers TimersFacts EventLoop ScrollDebounce.

Section Wrapper.
Context {A : Type}.
Variable wait : nat.

Local Abbreviation agrees := (agrees (A:=A)).

Lemma agrees_start : agrees debounce Debounce.debounce.
Proof. repeat split. left. reflexivity. Qed.

(** The wrapper depends on its window only through the delay the host
    makes of it. *)
Lemma scroll_run_long (tr : list (event A)) (st : state) :
  run wait tr st = run (long wait) tr st.
Proof.
  revert st. induction tr as [|[a|d] tr IH]; intros st; [reflexivity| |].
  - change (run wait (Invoke a :: tr) st) with (run wait tr (executedFunction wait a st)).
    change (run (long wait) (Invoke a :: tr) st)
      with (run (long wait) tr (executedFunction (long wait) a st)).
    rewrite IH. unfold executedFunction. rewrite long_idem. reflexivity.
  - apply IH.
Qed.

Lemma turn_agrees (d : nat) (st : state) (ex : Debounce.state) :
  Debounce.consistent wait ex → agrees st ex →
  agrees (turn later d st) (elapse (Debounce.later false) d ex)
  ∧ ripe (now (turn later d st).2) (pending (turn later d st).2) = [].
Proof.
  intros [_ Hc] (Hn & Hi & Hp & Hcalls & Hwhich).
  destruct st as [[h cs] [n i ps]]. simpl in *. subst.
  destruct Hwhich as [->|(t & -> & ->)].
  - simpl in Hp. destruct Hc as [Hidle|(t0 & a & id & Hq & _)]; [|congruence].
    rewrite (DebounceFacts.elapse_idle false d ex Hidle).
    unfold turn. simpl. repeat split; auto.
  - simpl in Hp. destruct Hc as [[Hq _]|(t0 & a & Ha)]; [congruence|].
    assert (t = Timer (tid t) (t0 + wait) (Later a)) as Ht.
    { destruct Ha as (id & Hq & _). rewrite Hq in Hp. injection Hp as -> Hd Hj.
      destruct t as [ti du [a']]. simpl in *. subst. injection Hj as ->. reflexivity. }
    destruct (le_lt_dec (t0 + wait) (now ex.2 + d)) as [Hd|Hd].
    + rewrite (DebounceFacts.elapse_armed_fires wait false d t0 a ex Ha Hd).
      unfold turn. simpl. rewrite Ht. simpl.
      replace (t0 + wait <=? now ex.2 + d) with true by (symmetry; apply Nat.leb_le, Hd).
      simpl. rewrite Nat.eqb_refl. simpl.
      assert (Nat.max (now ex.2) (t0 + wait) = t0 + wait) as ->
        by (destruct Ha as (id & _ & _ & _ & Hb & _); lia).
      repeat split; auto.
    + destruct (DebounceFacts.elapse_armed_waits wait false d t0 a ex Ha Hd) as [E _].
      rewrite E. unfold turn. simpl. rewrite Ht. simpl.
      replace (t0 + wait <=? now ex.2 + d) with false by (symmetry; apply Nat.leb_gt, Hd).
      simpl. rewrite Hp, Ht. simpl. split.
      * repeat split; auto. right. eexists. split; reflexivity.
      * replace (t0 + wait <=? now ex.2 + d) with false by (symmetry; apply Nat.leb_gt, Hd).
        reflexivity.
Qed.

(** The window is a delay the host keeps. *)
Hypothesis kept : long wait = wait.

Lemma invoke_agrees (a : A) (st : state) (ex : Debounce.state) :
  Debounce.consistent wait ex → agrees st ex →
  agrees (executedFunction wait a st) (Debounce.executedFunction wait false a ex).
Proof.
  intros Hc (Hn & Hi & Hp & Hcalls & Hwhich).
  rewrite (DebounceFacts.invoke_effect wait false kept a ex Hc).
  destruct st as [[h cs] [n i ps]]. simpl in *. subst.
  assert (remove_id match h with Js.Id m => m | _ => 0 end ps = []
          ∧ clearTimeout h (Loop (now ex.2) (next_id ex.2) ps)
            = Loop (now ex.2) (next_id ex.2) []) as [_ Hclear].
  { destruct Hwhich as [->|(t & -> & ->)]; simpl.
    - split; [reflexivity|]. destruct h; reflexivity.
    - rewrite Nat.eqb_refl. auto. }
  unfold executedFunction. cbn [fst snd timeout calls]. rewrite Hclear, kept. simpl.
  repeat split. right. eexists. split; reflexivity.
Qed.

Lemma run_agrees (tr : list (event A)) (st : state) (ex : Debounce.state) :
  Debounce.consistent wait ex → agrees st ex →
  agrees (run wait tr st) (Debounce.run wait false tr ex).
Proof.
  revert st ex. induction tr as [|[a|d] tr IH]; intros st ex Hc Hag; [exact Hag| |].
  - apply IH; [apply DebounceFacts.invoke_consistent; assumption
              | apply invoke_agrees; assumption].
  - apply IH; [apply DebounceFacts.elapse_consistent, Hc | apply turn_agrees; assumption].
Qed.

End Wrapper.

(** X6. The debounce of the services script, which only differs from the
    exported one in what its timer callback does to [timeout], makes on
    every trace and for every window exactly the calls the exported
    [debounce(func, wait)] makes; a turn of the event loop never leaves a
    timer that is due; and for a window [0 < wait < 2^31], as is the
    window of 10 the script uses, the calls are those of the quiet-period
    rule. *)
Theorem scroll_debounce_is_trailing_debounce {A : Type} (wait : nat)
    (tr : list (event A)) :
  let st := run wait tr debounce in
  calls st.1 = Debounce.calls (Debounce.run wait false tr Debounce.debounce).1
  ∧ (∀ d, ripe (now (turn later d st).2) (pending (turn later d st).2) = [])
  ∧ (0 < wait → honoured wait →
       calls st.1 = Debounce.quiet_calls wait (stamps tr 0) (horizon tr 0)).
Proof.
  intros st.
  assert (calls st.1 = Debounce.calls (Debounce.run wait false tr Debounce.debounce).1
          ∧ (∀ d, ripe (now (turn later d st).2) (pending (turn later d st).2) = []))
    as [Hcalls Hripe].
  { unfold st. rewrite scroll_run_long, DebounceFacts.debounce_run_long.
    pose proof (long_idem wait) as Hk.
    pose proof (DebounceFacts.run_consistent (long wait) false Hk tr _
                  (DebounceFacts.debounce_consistent (A:=A) (long wait))) as Hc.
    pose proof (run_agrees (long wait) Hk tr _ _
                  (DebounceFacts.debounce_consistent (long wait)) agrees_start) as Hag.
    split; [apply Hag|]. intros d. apply (turn_agrees (long wait) d _ _ Hc Hag). }
  split; [exact Hcalls|]. split; [exact Hripe|].
  intros Hw Hk. apply long_honoured in Hk. rewrite Hcalls.
  rewrite (DebounceFacts.trailing_calls_from wait Hw Hk tr Debounce.debounce
             (DebounceFacts.debounce_consistent wait)).
  reflexivity.
Qed.

Lemma scroll_debounce_is_trailing_debounce_witness :
  0 < 10 ∧ honoured 10
  ∧ calls (run 10 [Invoke 1; Elapse 4; Invoke 2; Elapse 4; Invoke 3; Elapse 10;
                   Invoke 4; Elapse 9] debounce).1
    = [(18, 3)].
Proof.
  split; [lia|]. split; [reflexivity|].
  exact (proj2 (proj2 (scroll_debounce_is_trailing_debounce 10
    [Invoke 1; Elapse 4; Invoke 2; Elapse 4; Invoke 3; Elapse 10;
     Invoke 4; Elapse 9])) ltac:(lia) eq_refl).
Defined.

End ScrollDebounceFacts.

(** ** Parallax on scroll *)

Module ParallaxFacts.
Import Parallax.

Section Ticks.
Context {num : Type} `{JsNumber num} `{JsOrder num}.

Lemma step_settled (s : state) (e : event num) :
  settled s → settled (step s e).
Proof.
  destruct s as [t q b r]. intros [[Ht Hq]|[Ht Hq]]; simpl in *; subst;
    destruct e as [|v]; simpl; unfold settled; simpl; auto.
Qed.

Lemma ticks_snoc (es : list (event num)) (e : event num) :
  run (es ++ [e]) = step (run es) e.
Proof. unfold run. rewrite fold_left_app. reflexivity. Qed.

Lemma run_settled (es : list (event num)) : settled (run es).
Proof.
  induction es as [|e es IH] using rev_ind; [left; split; reflexivity|].
  rewrite ticks_snoc. apply step_settled, IH.
Qed.

Lemma run_counts (es : list (event num)) :
  runs (run es) + requested (run es) ≤ length (filter (λ e, is_tick e = true) es)
  ∧ runs (run es) ≤ length (filter (λ e, is_tick e = false) es).
Proof.
  induction es as [|e es IH] using rev_ind; [simpl; lia|].
  rewrite ticks_snoc, !filter_app, !length_app.
  pose proof (run_settled es) as Hs. destruct (run es) as [t q b r].
  destruct Hs as [[Ht Hq]|[Ht Hq]]; simpl in *; subst; destruct e as [|v]; simpl;
    rewrite ?filter_cons_True, ?filter_cons_False by (simpl; congruence); simpl; lia.
Qed.

End Ticks.

(** X7. Whatever scroll ticks and frames have happened: at most one
    [updateParallax] is requested from the browser, and one is exactly
    when [ticking] is set; [updateParallax] has run no more often than
    frames were painted nor than [requestTick] was called; and a further
    [requestTick] followed by a frame runs [updateParallax] exactly once,
    clears [ticking], and, when [.services] is in view, leaves its
    background position at minus half the scroll offset of that frame. *)
Theorem request_tick_coalesces {num : Type} `{JsNumber num} `{JsOrder num}
    (es : list (event num)) (v : view num) :
  let s := run es in
  let s' := frame v (requestTick s) in
  requested s ≤ 1 ∧ (ticking s = true ↔ requested s = 1)
  ∧ runs s ≤ length (filter (λ e, is_tick e = false) es)
  ∧ runs s ≤ length (filter (λ e, is_tick e = true) es)
  ∧ runs s' = S (runs s) ∧ ticking s' = false ∧ requested s' = 0
  ∧ (∀ top bottom, services v = Some (top, bottom) →
       ltb top (viewportHeight v) = true → ltb (lit "0") bottom = true →
       backgroundPositionY s'
       = show (neg (mul (pageYOffset v) (lit "0.5"))) +:+ "px").
Proof.
  intros s s'. pose proof (run_settled es) as Hs. pose proof (run_counts es) as [Hc1 Hc2].
  fold s in Hs, Hc1, Hc2. unfold s'. clearbody s. destruct s as [t q b r].
  destruct Hs as [[Ht Hq]|[Ht Hq]]; simpl in *; subst; simpl.
  - repeat split; try lia; try discriminate.
    intros top bottom -> -> ->. reflexivity.
  - repeat split; try lia.
    intros top bottom -> -> ->. reflexivity.
Qed.

End ParallaxFacts.

(** ** More on the timer queue *)

Module QueueFacts.
Import Timers.

Section Queue.
Context {K : Type}.

Lemma elem_of_ripe (limit : nat) (ts : list (timer K)) (t : timer K) :
  t ∈ ripe limit ts ↔ t ∈ ts ∧ due t ≤ limit.
Proof.
  induction ts as [|u ts IH]; simpl.
  - rewrite elem_of_nil. tauto.
  - destruct (Nat.leb_spec (due u) limit) as [Hle|Hgt];
      rewrite ?elem_of_cons, IH.
    + split; [intros [->|[Hin Hd]]; auto | intros [[->|Hin] Hd]; auto].
    + split; [intros [Hin Hd]; auto | intros [[->|Hin] Hd]; [lia | auto]].
Qed.

Lemma elem_of_unripe (limit : nat) (ts : list (timer K)) (t : timer K) :
  t ∈ unripe limit ts ↔ t ∈ ts ∧ limit < due t.
Proof.
  induction ts as [|u ts IH]; simpl.
  - rewrite elem_of_nil. tauto.
  - destruct (Nat.leb_spec (due u) limit) as [Hle|Hgt];
      rewrite ?elem_of_cons, IH.
    + split; [intros [Hin Hd]; auto | intros [[->|Hin] Hd]; [lia | auto]].
    + split; [intros [->|[Hin Hd]]; auto | intros [[->|Hin] Hd]; auto].
Qed.

Lemma elem_of_enqueue (x : timer K) (ts : list (timer K)) (t : timer K) :
  t ∈ enqueue x ts ↔ t = x ∨ t ∈ ts.
Proof.
  induction ts as [|u ts IH]; simpl.
  - rewrite list_elem_of_singleton, elem_of_nil. tauto.
  - destruct (due x <=? due u); rewrite !elem_of_cons, ?IH; tauto.
Qed.

Lemma elem_of_by_due (ts : list (timer K)) (t : timer K) :
  t ∈ by_due ts ↔ t ∈ ts.
Proof.
  induction ts as [|u ts IH]; simpl; [tauto|].
  rewrite elem_of_enqueue, elem_of_cons, IH. tauto.
Qed.

Lemma ripe_all (limit : nat) (ts : list (timer K)) :
  Forall (λ t, due t ≤ limit) ts → ripe limit ts = ts ∧ unripe limit ts = [].
Proof.
  induction 1 as [|u ts Hu _ [IH1 IH2]]; [auto|]. simpl.
  apply Nat.leb_le in Hu. rewrite Hu, IH1, IH2. auto.
Qed.

End Queue.

End QueueFacts.

(** ** The observer of the service items *)

Module ServiceObserverFacts.
Import Dom Timers QueueFacts ServiceObserver.

Lemma each_effect (entries : list entry) (i : nat) (st : state) :
  items (each i entries st).1 = items st.1
  ∧ activated (each i entries st).1 = activated st.1
  ∧ now (each i entries st).2 = now st.2
  ∧ pending (each i entries st).2
    = pending st.2 ++ timers_of (next_id st.2) (now st.2) i entries.
Proof.
  revert i st. induction entries as [|en rest IH]; intros i st.
  - simpl. rewrite app_nil_r. auto.
  - cbn [each timers_of]. destruct (IH (S i) (on_entry i en st)) as (E1 & E2 & E3 & E4).
    rewrite E1, E2, E3, E4. unfold on_entry. destruct (isIntersecting en); [|auto].
    destruct st as [v l]. simpl. rewrite <- app_assoc. auto.
Qed.

Lemma timers_of_due (entries : list entry) (id t i : nat) :
  Forall (λ x, t + i * 100 ≤ due x ∧ due x + 100 ≤ t + (i + length entries) * 100)
         (timers_of id t i entries).
Proof.
  revert id i. induction entries as [|en rest IH]; intros id i; [constructor|].
  cbn [timers_of length].
  assert (Forall (λ x, t + i * 100 ≤ due x ∧ due x + 100 ≤ t + (i + S (length rest)) * 100)
                 (timers_of (if isIntersecting en then S id else id) t (S i) rest)) as Hrest.
  { eapply Forall_impl; [apply IH|]. simpl. intros x Hx. lia. }
  destruct (isIntersecting en); [|exact Hrest].
  constructor; [simpl; lia | exact Hrest].
Qed.

Lemma timers_of_in_order (entries : list entry) (id t i : nat) :
  by_due (timers_of id t i entries) = timers_of id t i entries.
Proof.
  revert id i. induction entries as [|en rest IH]; intros id i; [reflexivity|].
  cbn [timers_of]. destruct (isIntersecting en); [|apply IH].
  cbn [by_due]. rewrite IH.
  pose proof (timers_of_due rest (S id) t (S i)) as Hd.
  destruct (timers_of (S id) t (S i) rest) as [|u r]; [reflexivity|].
  inversion Hd as [|? ? [Hu _] _]; subst. simpl.
  replace (t + i * 100 <=? due u) with true by (symmetry; apply Nat.leb_le; lia).
  reflexivity.
Qed.

Lemma fire_timers_of (entries : list entry) (id t i n : nat) (v : vars) :
  n ≤ t →
  activated
    (fold_left (λ s x, activate (job x) (Nat.max n (due x)) s)
               (timers_of id t i entries) v)
  = activated v ++ staggered t i entries.
Proof.
  intros Hn. revert id i v. induction entries as [|en rest IH]; intros id i v.
  - simpl. rewrite app_nil_r. reflexivity.
  - cbn [timers_of staggered]. destruct (isIntersecting en).
    + cbn [fold_left job due]. rewrite IH. simpl.
      replace (Nat.max n (t + i * 100)) with (t + i * 100) by lia.
      rewrite <- app_assoc. reflexivity.
    + apply IH.
Qed.

(** X8. A batch delivered while no timer is pending, followed by a turn
    of the event loop of at least 100 per entry after the first: the timer
    callback has run once for each intersecting entry and for no other, in
    the order of the batch, for the entry at rank [i] at 100 * [i] after
    the delivery; no timer is left. *)
Theorem service_items_appear_staggered (entries : list entry) (d : nat) (st : state) :
  pending st.2 = [] → 100 * (length entries - 1) ≤ d →
  let st' := elapse activate d (callback entries st) in
  activated st'.1 = activated st.1 ++ staggered (now st.2) 0 entries
  ∧ pending st'.2 = [].
Proof.
  intros Hp Hd st'. unfold st', callback, elapse.
  destruct (each_effect entries 0 st) as (_ & Ea & En & Ep).
  rewrite Hp in Ep. simpl in Ep. cbn [fst snd]. rewrite Ep, En.
  assert (Forall (λ x, due x ≤ now st.2 + d)
                 (timers_of (next_id st.2) (now st.2) 0 entries)) as Hall.
  { eapply Forall_impl; [apply timers_of_due|]. simpl. intros x [_ Hx].
    destruct entries; simpl in *; lia. }
  destruct (ripe_all _ _ Hall) as [-> ->]. rewrite timers_of_in_order.
  split; [|reflexivity].
  rewrite (fire_timers_of entries (next_id st.2) (now st.2) 0 (now st.2)
             (each 0 entries st).1 (le_n _)), Ea.
  reflexivity.
Qed.

Lemma service_items_appear_staggered_witness :
  activated
    (elapse activate 200
       (callback [Entry 4 true; Entry 5 false; Entry 6 true] (page ∅))).1
  = [(0, 4); (200, 6)].
Proof.
  exact (proj1 (service_items_appear_staggered
                  [Entry 4 true; Entry 5 false; Entry 6 true] 200 (page ∅)
                  eq_refl ltac:(simpl; lia))).
Defined.

End ServiceObserverFacts.

(** ** Feature detection *)

Module FeatureDetectionFacts.
Import FeatureDetection.

Lemma own_eqb (feature : string) :
  feature ∉ own →
  String.eqb feature "webp" = false ∧ String.eqb feature "avif" = false
  ∧ String.eqb feature "intersection-observer" = false
  ∧ String.eqb feature "service-worker" = false
  ∧ String.eqb feature "local-storage" = false.
Proof.
  intros Hno. unfold own in Hno. repeat rewrite not_elem_of_cons in Hno.
  destruct Hno as (H1 & H2 & H3 & H4 & H5 & _).
  repeat split; apply String.eqb_neq; assumption.
Qed.

(** X11. The [local-storage] probe never raises: it answers [true] when
    [setItem] works and [false] when it raises.  When it answers [true] it
    has removed the entry [test] from the storage, also one that was there
    before the call; every other entry, and the storage when it answers
    [false], is as before. *)
Theorem storage_probe_drops_test_entry (inherited : string → bool) (b : browser) :
  let r := supportsFeature inherited "local-storage" b in
  r.1 = Boolean (negb (refuses (localStorage b)))
  ∧ entries (localStorage r.2) !! "test"
    = (if refuses (localStorage b) then entries (localStorage b) !! "test" else None)
  ∧ (∀ key, key ≠ "test" →
       entries (localStorage r.2) !! key = entries (localStorage b) !! key)
  ∧ refuses (localStorage r.2) = refuses (localStorage b).
Proof.
  intros r. unfold r, supportsFeature. simpl. unfold probe_storage.
  destruct (refuses (localStorage b)) eqn:E; simpl.
  - rewrite E. auto.
  - split; [reflexivity|]. split; [apply lookup_delete_eq|]. split; [|reflexivity].
    intros key Hk. rewrite lookup_delete_ne, lookup_insert_ne by auto. reflexivity.
Qed.

(** X12. Asked for a name that the table neither defines nor inherits,
    [supportsFeature] answers [false]; and whatever the name, only the
    [local-storage] probe changes anything in the browser. *)
Theorem unknown_feature_is_false (inherited : string → bool) (feature : string)
    (b : browser) :
  (feature ∉ own → inherited feature = false →
     supportsFeature inherited feature b = (Boolean false, b))
  ∧ (feature ≠ "local-storage" → (supportsFeature inherited feature b).2 = b).
Proof.
  split.
  - intros Hno Hin. destruct (own_eqb feature Hno) as (E1 & E2 & E3 & E4 & E5).
    unfold supportsFeature. rewrite E1, E2, E3, E4, E5, Hin. reflexivity.
  - intros Hne. apply String.eqb_neq in Hne. unfold supportsFeature. rewrite Hne.
    repeat match goal with |- context [String.eqb feature ?k] => destruct (String.eqb feature k) end;
      try reflexivity.
    destruct (inherited feature); reflexivity.
Qed.

Lemma unknown_feature_is_false_witness :
  supportsFeature (λ name, String.eqb name "toString") "webgl"
    (Browser (λ _, "data:image/png;base64,") true false (Storage ∅ false))
  = (Boolean false,
     Browser (λ _, "data:image/png;base64,") true false (Storage ∅ false)).
Proof.
  refine (proj1 (unknown_feature_is_false (λ name, String.eqb name "toString") "webgl"
                   (Browser (λ _, "data:image/png;base64,") true false (Storage ∅ false)))
            _ eq_refl).
  compute_done.
Defined.

End FeatureDetectionFacts.

(** ** PerformanceMonitor *)

Module PerformanceMonitorFacts.
Import PerformanceMonitor.

Section Monitor.
Context {num : Type} `{JsNumber num} `{JsMath num}.
Variable hostname : string.

Local Abbreviation on_cls := (on_cls hostname).
Local Abbreviation shifts := (shifts hostname).

Lemma cls_fold (entries : list (shift num)) (acc : num) :
  fold_left (λ a entry, if negb (hadRecentInput entry) then add a (value entry) else a)
            entries acc
  = fold_left add (counted entries) acc.
Proof.
  revert acc. induction entries as [|[r v] entries IH]; intros acc; [reflexivity|].
  unfold counted. cbn [fold_left hadRecentInput value]. destruct r; cbn [negb].
  - rewrite filter_cons_False by (simpl; congruence). apply IH.
  - rewrite filter_cons_True by reflexivity. cbn [map fold_left value]. apply IH.
Qed.

Lemma logMetric_keeps (name : string) (v : num) (s : state num) :
  metrics (logMetric hostname name v s) = metrics s
  ∧ clsValue (logMetric hostname name v s) = clsValue s
  ∧ observing (logMetric hostname name v s) = observing s.
Proof.
  unfold logMetric.
  destruct (String.eqb hostname "localhost" || String.eqb hostname "127.0.0.1"); auto.
Qed.

Lemma on_cls_total (entries : list (shift num)) (s : state num) :
  clsValue (on_cls entries s) = fold_left add (counted entries) (clsValue s)
  ∧ metrics (on_cls entries s) !! "CLS" = Some (clsValue (on_cls entries s)).
Proof.
  unfold PerformanceMonitor.on_cls.
  destruct (logMetric_keeps "CLS"
              (fold_left (λ a entry, if negb (hadRecentInput entry)
                                     then add a (value entry) else a)
                         entries (clsValue s))
              (record "CLS"
                 (fold_left (λ a entry, if negb (hadRecentInput entry)
                                        then add a (value entry) else a)
                            entries (clsValue s))
                 (State (metrics s)
                    (fold_left (λ a entry, if negb (hadRecentInput entry)
                                           then add a (value entry) else a)
                               entries (clsValue s))
                    (observing s) (console s)))) as (-> & -> & _).
  simpl. rewrite cls_fold. split; [reflexivity|]. apply lookup_insert_eq.
Qed.

Lemma shifts_total (batches : list (list (shift num))) (s : state num) :
  clsValue (shifts batches s) = fold_left add (counted (concat batches)) (clsValue s)
  ∧ (batches ≠ [] → metrics (shifts batches s) !! "CLS" = Some (clsValue (shifts batches s))).
Proof.
  revert s. induction batches as [|b batches IH] using rev_ind; intros s.
  - split; [reflexivity | congruence].
  - unfold PerformanceMonitor.shifts in *. rewrite fold_left_app. cbn [fold_left].
    destruct (on_cls_total b (fold_left (λ s0 b0, on_cls b0 s0) batches s)) as [E1 E2].
    destruct (IH s) as [IH1 _]. split; [|intros _; exact E2].
    rewrite E1, IH1, concat_app. unfold counted. rewrite filter_app, map_app, fold_left_app.
    simpl. rewrite app_nil_r. reflexivity.
Qed.

End Monitor.

(** X13. After any non-empty run of layout-shift batches on a new
    monitor, the metric [CLS] is the sum, taken from 0 in the order of
    delivery, of the values of the entries without recent input: how the
    entries were split into batches makes no difference and the entries
    with recent input count for nothing.  Before the first batch there is
    no [CLS] metric. *)
Theorem cls_is_running_sum {num : Type} `{JsNumber num} `{JsMath num}
    (hostname : string) (batches : list (list (shift num))) :
  batches ≠ [] →
  getMetrics (shifts hostname batches (create (λ _, false) true)) !! "CLS"
  = Some (fold_left add (counted (concat batches)) zero)
  ∧ getMetrics (create (num:=num) (λ _, false) true) !! "CLS" = None.
Proof.
  intros Hne. unfold getMetrics.
  destruct (shifts_total hostname batches (create (λ _, false) true)) as [E1 E2].
  rewrite (E2 Hne), E1. split; [reflexivity | apply lookup_empty].
Qed.

(** X14. Whatever the observers deliver, deliveries on which a callback
    raises included: on a host other than [localhost] and [127.0.0.1] the
    monitor writes nothing to the console, and the metrics it records and
    the exceptions its callbacks raise, one for each delivery of no entry
    to the first or the second observer, are those of any other host: the
    host only decides what the monitor logs. *)
Theorem metrics_do_not_depend_on_host {num : Type} `{JsNumber num} `{JsMath num}
    (host host' : string) (ds : list (delivery num)) (s : state num) :
  host ≠ "localhost" → host ≠ "127.0.0.1" →
  console (deliveries host ds s).1 = console s
  ∧ metrics (deliveries host ds s).1 = metrics (deliveries host' ds s).1
  ∧ clsValue (deliveries host ds s).1 = clsValue (deliveries host' ds s).1
  ∧ (deliveries host ds s).2 = (deliveries host' ds s).2
  ∧ (deliveries host ds s).2 = length (filter (λ d, raising d = true) ds).
Proof.
  intros H1 H2. apply String.eqb_neq in H1, H2.
  assert (∀ s1 s2 : state num,
            metrics s1 = metrics s2 → clsValue s1 = clsValue s2 →
            console (deliveries host ds s1).1 = console s1
            ∧ metrics (deliveries host ds s1).1 = metrics (deliveries host' ds s2).1
            ∧ clsValue (deliveries host ds s1).1 = clsValue (deliveries host' ds s2).1
            ∧ (deliveries host ds s1).2 = (deliveries host' ds s2).2
            ∧ (deliveries host ds s1).2 = length (filter (λ d, raising d = true) ds))
    as Hgen.
  { induction ds as [|d ds IH]; intros s1 s2 Em Ec; [simpl; auto|].
    assert (∀ name v (x : state num), logMetric host name v x = x) as Hquiet.
    { intros name v x. unfold logMetric. rewrite H1, H2. reflexivity. }
    assert (∀ name v (x : state num),
              metrics (logMetric host' name v x) = metrics x
              ∧ clsValue (logMetric host' name v x) = clsValue x) as Hkeep.
    { intros name v x. destruct (logMetric_keeps host' name v x) as (E1 & E2 & _). auto. }
    assert (∀ s1' s2' : state num,
              console s1' = console s1 → metrics s1' = metrics s2' →
              clsValue s1' = clsValue s2' → raising d = false →
              console (deliveries host ds s1').1 = console s1
              ∧ metrics (deliveries host ds s1').1 = metrics (deliveries host' ds s2').1
              ∧ clsValue (deliveries host ds s1').1 = clsValue (deliveries host' ds s2').1
              ∧ (deliveries host ds s1').2 = (deliveries host' ds s2').2
              ∧ (deliveries host ds s1').2
                = length (filter (λ d, raising d = true) (d :: ds))) as Hnext.
    { intros s1' s2' Eo Hm Hc Hr. destruct (IH s1' s2' Hm Hc) as (I1 & I2 & I3 & I4 & I5).
      rewrite filter_cons_False by (rewrite Hr; discriminate).
      repeat split; congruence. }
    assert (raising d = true →
            console (deliveries host ds s1).1 = console s1
            ∧ metrics (deliveries host ds s1).1 = metrics (deliveries host' ds s2).1
            ∧ clsValue (deliveries host ds s1).1 = clsValue (deliveries host' ds s2).1
            ∧ S (deliveries host ds s1).2 = S (deliveries host' ds s2).2
            ∧ S (deliveries host ds s1).2
              = length (filter (λ d, raising d = true) (d :: ds))) as Hraise.
    { intros Hr. destruct (IH s1 s2 Em Ec) as (I1 & I2 & I3 & I4 & I5).
      rewrite filter_cons_True by exact Hr. simpl. repeat split; congruence. }
    cbn [deliveries]. destruct d as [entries|entries|entries]; cbn [deliver].
    - unfold on_lcp. destruct (last entries) as [e|] eqn:El.
      + rewrite Hquiet.
        set (v := if nonzero (renderTime e) then renderTime e else loadTime e).
        destruct (Hkeep "LCP" v (record "LCP" v s2)) as [K1 K2].
        apply Hnext; [reflexivity | rewrite K1; simpl; rewrite Em; reflexivity
                     | rewrite K2; exact Ec |].
        destruct entries; [discriminate El | reflexivity].
      + cbn [fst snd]. apply Hraise.
        destruct entries as [|x entries]; [reflexivity|].
        rewrite last_cons in El. destruct (last entries); discriminate El.
    - unfold on_fid. destruct entries as [|e entries].
      + cbn [fst snd]. apply Hraise. reflexivity.
      + rewrite Hquiet.
        set (v := sub (processingStart e) (startTime e)).
        destruct (Hkeep "FID" v (record "FID" v s2)) as [K1 K2].
        apply Hnext; [reflexivity | rewrite K1; simpl; rewrite Em; reflexivity
                     | rewrite K2; exact Ec | reflexivity].
    - unfold PerformanceMonitor.on_cls. rewrite Hquiet, Ec.
      set (v := fold_left _ entries (clsValue s2)).
      set (x1 := record "CLS" v (State (metrics s1) v (observing s1) (console s1))).
      set (x2 := record "CLS" v (State (metrics s2) v (observing s2) (console s2))).
      destruct (Hkeep "CLS" v x2) as [K1 K2].
      apply Hnext; [reflexivity | rewrite K1; unfold x1, x2; simpl; rewrite Em; reflexivity
                   | rewrite K2; reflexivity | reflexivity]. }
  apply Hgen; reflexivity.
Qed.

Section Setup.
Context {num : Type} `{JsNumber num} `{JsMath num}.
Variable raises : string → bool.

Lemma observe_all_clean (ts : list string) (s : state num) :
  (∀ t, t ∈ ts → raises t = false) →
  observe_all raises ts s
  = Normal (State (metrics s) (clsValue s) (observing s ++ ts) (console s)).
Proof.
  revert s. induction ts as [|t ts IH]; intros s Hc.
  - simpl. rewrite app_nil_r. destruct s; reflexivity.
  - simpl. rewrite (Hc t) by left. rewrite IH by (intros x Hx; apply Hc; right; exact Hx).
    simpl. rewrite <- app_assoc. reflexivity.
Qed.

Lemma observe_all_stops (before after : list string) (bad : string) (s : state num) :
  (∀ t, t ∈ before → raises t = false) → raises bad = true →
  observe_all raises (before ++ bad :: after) s
  = Thrown (State (metrics s) (clsValue s) (observing s ++ before) (console s)).
Proof.
  revert s. induction before as [|t ts IH]; intros s Hc Hb.
  - simpl. rewrite Hb, app_nil_r. destruct s; reflexivity.
  - simpl. rewrite (Hc t) by left.
    rewrite IH by (auto; intros x Hx; apply Hc; right; exact Hx).
    simpl. rewrite <- app_assoc. reflexivity.
Qed.

End Setup.

(** X15. Setting up never raises.  Without [PerformanceObserver] the
    monitor warns once and observes nothing.  With it, when [observe]
    raises for an entry type and for none before it, the error is logged,
    the types before it are observed, and that type and those after it are
    not; when [observe] raises for none, the three types are observed and
    nothing is logged.  In all cases the metrics start empty. *)
Theorem monitor_setup {num : Type} `{JsNumber num} `{JsMath num}
    (raises : string → bool) :
  (observing (create (num:=num) raises false) = []
   ∧ console (create (num:=num) raises false) = ["PerformanceObserver not supported"])
  ∧ (∀ before bad after,
       types = before ++ bad :: after →
       (∀ t, t ∈ before → raises t = false) → raises bad = true →
       observing (create (num:=num) raises true) = before
       ∧ console (create (num:=num) raises true)
         = ["Error setting up performance observers:"])
  ∧ ((∀ t, t ∈ types → raises t = false) →
       observing (create (num:=num) raises true) = types
       ∧ console (create (num:=num) raises true) = [])
  ∧ (∀ po, getMetrics (create (num:=num) raises po) = ∅).
Proof.
  split; [split; reflexivity|]. split; [|split].
  - intros before bad after Ht Hc Hb. unfold create. simpl negb. cbv iota.
    rewrite Ht, (observe_all_stops raises before after bad _ Hc Hb). split; reflexivity.
  - intros Hc. unfold create. simpl negb. cbv iota.
    rewrite (observe_all_clean raises types _ Hc). split; reflexivity.
  - intros po. unfold create, getMetrics. destruct po; simpl; [|reflexivity].
    repeat (destruct (raises _); simpl; auto).
Qed.

End PerformanceMonitorFacts.

(** ** AccessibilityManager *)

Module AccessibilityFacts.
Import Dom Accessibility.

Lemma inputs_snoc (es : list input_event) (e : input_event) (c : gset string) :
  inputs (es ++ [e]) c = on_input (inputs es c) e.
Proof. unfold inputs. rewrite fold_left_app. reflexivity. Qed.

(** X16. After any keyboard and mouse input, the body carries the class
    [keyboard-navigation] exactly when the last of the [Tab] presses and
    mouse presses was a [Tab] press (or, if there was neither, when it
    carried it before); no other class is added or removed. *)
Theorem keyboard_navigation_follows_last_input (es : list input_event)
    (c : gset string) :
  ("keyboard-navigation" ∈ inputs es c
   ↔ match last (filter (λ e, relevant e = true) es) with
     | Some (KeyDown _) => True
     | Some MouseDown => False
     | None => "keyboard-navigation" ∈ c
     end)
  ∧ (∀ k, k ≠ "keyboard-navigation" → k ∈ inputs es c ↔ k ∈ c).
Proof.
  induction es as [|e es [IH1 IH2]] using rev_ind; [simpl; tauto|].
  rewrite inputs_snoc, filter_app. split.
  - destruct e as [key|]; simpl.
    + destruct (String.eqb key "Tab") eqn:E.
      * rewrite filter_cons_True by (simpl; exact E). rewrite filter_nil, last_snoc.
        rewrite elem_of_union, elem_of_singleton. tauto.
      * rewrite filter_cons_False by (simpl; congruence).
        rewrite filter_nil, app_nil_r. exact IH1.
    + rewrite filter_cons_True by reflexivity. rewrite filter_nil, last_snoc.
      rewrite elem_of_difference, elem_of_singleton. tauto.
  - intros k Hk. rewrite <- (IH2 k Hk). destruct e as [key|]; simpl.
    + destruct (String.eqb key "Tab"); [|tauto].
      rewrite elem_of_union, elem_of_singleton. tauto.
    + rewrite elem_of_difference, elem_of_singleton. tauto.
Qed.

Section Labels.
Variable trim : string → string.

Local Abbreviation label := (label trim).
Local Abbreviation addARIAEnhancements := (addARIAEnhancements trim).

Lemma label_twice (b : button) : label (label b) = label b.
Proof.
  unfold Accessibility.label. destruct b as [[l|] text]; simpl; [reflexivity|].
  destruct (trim text) eqn:E; simpl; [rewrite E|]; reflexivity.
Qed.

Lemma addARIA_lookup (icons : list (option element)) (d : gmap element button)
    (b : element) :
  addARIAEnhancements icons d !! b
  = if bool_decide (Some b ∈ icons) then label <$> d !! b else d !! b.
Proof.
  revert d. induction icons as [|icon icons IH]; intros d; [reflexivity|].
  unfold Accessibility.addARIAEnhancements in *. cbn [fold_left]. rewrite IH.
  destruct icon as [x|].
  - destruct (decide (x = b)) as [->|Hne].
    + rewrite lookup_alter_eq.
      rewrite (bool_decide_eq_true_2 (Some b ∈ Some b :: icons)) by left.
      destruct (bool_decide (Some b ∈ icons)); [|reflexivity].
      destruct (d !! b) as [btn|]; simpl; [rewrite label_twice|]; reflexivity.
    + rewrite lookup_alter_ne by assumption.
      apply (f_equal (λ c : bool, if c then label <$> d !! b else d !! b)).
      apply bool_decide_ext. rewrite elem_of_cons.
      split; [auto | intros [[= ->]|H]; [contradiction | exact H]].
  - apply (f_equal (λ c : bool, if c then label <$> d !! b else d !! b)).
    apply bool_decide_ext. rewrite elem_of_cons.
    split; [auto | intros [E|H]; [discriminate | exact H]].
Qed.

End Labels.

(** X17. [addARIAEnhancements] never changes a button that has an
    [aria-label], be it the empty one, nor a button without an icon; it
    gives a button with an icon and no [aria-label] its trimmed text as
    label when that text is not empty; and running it a second time
    changes nothing. *)
Theorem aria_labels_added_once (trim : string → string)
    (icons : list (option element)) (d : gmap element button) :
  let d' := addARIAEnhancements trim icons d in
  (∀ b btn l, d !! b = Some btn → ariaLabel btn = Some l → d' !! b = Some btn)
  ∧ (∀ b, Some b ∉ icons → d' !! b = d !! b)
  ∧ (∀ b text, Some b ∈ icons → d !! b = Some (Button None text) →
       trim text ≠ EmptyString → d' !! b = Some (Button (Some (trim text)) text))
  ∧ addARIAEnhancements trim icons d' = d'.
Proof.
  intros d'. split; [|split; [|split]].
  - intros b btn l Hb Hl. unfold d'. rewrite addARIA_lookup, Hb.
    destruct (bool_decide (Some b ∈ icons)); [|reflexivity].
    simpl. unfold label. rewrite Hl. reflexivity.
  - intros b Hb. unfold d'. rewrite addARIA_lookup, bool_decide_eq_false_2 by assumption.
    reflexivity.
  - intros b text Hb Hd Ht. unfold d'.
    rewrite addARIA_lookup, bool_decide_eq_true_2, Hd by assumption.
    simpl. unfold label. simpl. destruct (trim text); [contradiction | reflexivity].
  - apply map_eq. intros b. unfold d'. rewrite !addARIA_lookup.
    destruct (bool_decide (Some b ∈ icons)); [|reflexivity].
    destruct (d !! b) as [btn|]; simpl; [rewrite label_twice|]; reflexivity.
Qed.

End AccessibilityFacts.

(** ** Touch listeners of the services script *)

Module TouchListenersFacts.
Import Dom TouchListeners.

Lemma addEventListener_new (l : listener) (ls : list listener) :
  l ∉ ls → addEventListener l ls = ls ++ [l].
Proof. intros Hn. unfold addEventListener. rewrite bool_decide_eq_false_2; auto. Qed.

Lemma item_step (item : element) (s : state) :
  fresh s →
  listeners
    (State (addEventListener (Listener item "touchend" (S (functions s)))
              (addEventListener (Listener item "touchstart" (functions s)) (listeners s)))
           (S (S (functions s))))
  = listeners s ++ [Listener item "touchstart" (functions s);
                    Listener item "touchend" (S (functions s))].
Proof.
  intros Hf. cbn [listeners].
  rewrite (addEventListener_new (Listener item "touchstart" (functions s))).
  - rewrite addEventListener_new; [rewrite <- app_assoc; reflexivity|].
    rewrite elem_of_app, list_elem_of_singleton.
    intros [Hin|[=]]. apply Hf in Hin. simpl in Hin. lia.
  - intros Hin. apply Hf in Hin. simpl in Hin. lia.
Qed.

Lemma items_effect (items : list element) (s : state) (e : element) (ty : string) :
  ty = "touchstart" ∨ ty = "touchend" → fresh s →
  fresh (checkMobileView 0 items s)
  ∧ length (registered e ty (checkMobileView 0 items s))
    = length (registered e ty s) + length (filter (λ x, x = e) items).
Proof.
  intros Hty. unfold checkMobileView. change (0 <=? 768)%Z with true. cbv iota.
  revert s. induction items as [|item items IH]; intros s Hf; [simpl; auto|].
  cbn [fold_left].
  set (s1 := State _ (S (S (functions s)))).
  assert (listeners s1 = listeners s ++ [Listener item "touchstart" (functions s);
                                          Listener item "touchend" (S (functions s))])
    as Hl by (apply item_step, Hf).
  assert (fresh s1) as Hf1.
  { intros l Hin. rewrite Hl in Hin. unfold s1. cbn [functions].
    apply elem_of_app in Hin as [Hin|Hin]; [apply Hf in Hin; lia|].
    apply elem_of_cons in Hin as [->|Hin]; [simpl; lia|].
    apply list_elem_of_singleton in Hin as ->. simpl. lia. }
  destruct (IH s1 Hf1) as [Hf2 Hcount]. split; [exact Hf2|].
  rewrite Hcount. unfold registered. rewrite Hl, filter_app, length_app.
  rewrite <- Nat.add_assoc. f_equal.
  destruct (decide (item = e)) as [->|Hne].
  - rewrite (filter_cons_True (λ x, x = e)) by reflexivity. cbn [length].
    destruct Hty as [->| ->].
    + rewrite filter_cons_True by (split; reflexivity).
      rewrite filter_cons_False by (simpl; intros [_ [=]]). reflexivity.
    + rewrite filter_cons_False by (simpl; intros [_ [=]]).
      rewrite filter_cons_True by (split; reflexivity). reflexivity.
  - rewrite (filter_cons_False (λ x, x = e)) by assumption.
    rewrite !filter_cons_False by (simpl; intros [? _]; contradiction). reflexivity.
Qed.

Lemma never (items : list element) (e : element) :
  e ∉ items → filter (λ x, x = e) items = [].
Proof.
  induction items as [|x l IH]; intros Hn; [reflexivity|].
  apply not_elem_of_cons in Hn as [Hne Hn].
  rewrite filter_cons_False by auto. apply IH, Hn.
Qed.

Lemma once (items : list element) (e : element) :
  NoDup items → e ∈ items → length (filter (λ x, x = e) items) = 1.
Proof.
  induction 1 as [|x l Hx Hnd IH]; intros Hin; [apply elem_of_nil in Hin as []|].
  destruct (decide (x = e)) as [->|Hne].
  - rewrite filter_cons_True by reflexivity. simpl. f_equal.
    rewrite (never l e Hx). reflexivity.
  - rewrite filter_cons_False by assumption. apply IH.
    apply elem_of_cons in Hin as [->|Hin]; [contradiction | exact Hin].
Qed.

Lemma check_effect (w : Z) (items : list element) (s : state) (e : element) (ty : string) :
  ty = "touchstart" ∨ ty = "touchend" → fresh s →
  fresh (checkMobileView w items s)
  ∧ length (registered e ty (checkMobileView w items s))
    = length (registered e ty s)
      + (if (w <=? 768)%Z then length (filter (λ x, x = e) items) else 0).
Proof.
  intros Hty Hf. destruct (w <=? 768)%Z eqn:E.
  - replace (checkMobileView w items s) with (checkMobileView 0 items s)
      by (unfold checkMobileView; rewrite E; reflexivity).
    apply items_effect; assumption.
  - unfold checkMobileView. rewrite E. split; [exact Hf | lia].
Qed.

(** X18. Every call of [checkMobileView] made while the window is at most
    768 wide puts one more [touchstart] and one more [touchend] listener on
    each service item, and no call removes any: after the call at load and
    one per resize, an item carries as many of each as there were calls at
    such a width, on top of those it had. *)
Theorem touch_listeners_pile_up (widths : list Z) (serviceItems : list element)
    (s : state) (e : element) (ty : string) :
  NoDup serviceItems → e ∈ serviceItems → fresh s →
  ty = "touchstart" ∨ ty = "touchend" →
  length (registered e ty (checks widths serviceItems s))
  = length (registered e ty s) + length (filter (λ w, (w ≤ 768)%Z) widths).
Proof.
  intros Hnd Hin Hf Hty. revert s Hf.
  induction widths as [|w widths IH]; intros s Hf; [simpl; lia|].
  unfold checks in *. cbn [fold_left].
  destruct (check_effect w serviceItems s e ty Hty Hf) as [Hf' Hc].
  rewrite (IH _ Hf'), Hc, (once serviceItems e Hnd Hin).
  destruct (Z.leb_spec w 768).
  - rewrite filter_cons_True by assumption. simpl. lia.
  - rewrite filter_cons_False by lia. lia.
Qed.

Lemma touch_listeners_pile_up_witness :
  length (registered 7 "touchstart" (checks [600; 1024; 700; 768]%Z [7; 8] (State [] 0)))
  = length (registered 7 "touchstart" (State [] 0))
    + length (filter (λ w, (w ≤ 768)%Z) [600; 1024; 700; 768]%Z).
Proof.
  refine (touch_listeners_pile_up [600; 1024; 700; 768]%Z [7; 8] (State [] 0) 7
            "touchstart" _ _ _ (or_introl eq_refl)).
  - compute_done.
  - compute_done.
  - intros l Hl. apply elem_of_nil in Hl as [].
Defined.

End TouchListenersFacts.

(** ** Calls are invocations *)

Module CallsAreInvocations.
Import Timers TimersFacts.

Lemma throttle_calls_from {A : Type} (limit : nat) (tr : list (event A))
    (st : Throttle.state) (last : option nat) :
  long limit = limit → Throttle.follows limit last st →
  ∃ rest, Throttle.calls (Throttle.run limit tr st).1 = Throttle.calls st.1 ++ rest
          ∧ rest `sublist_of` stamps tr (now st.2).
Proof.
  intros Hk. revert st last. induction tr as [|[a|d] tr IH]; intros st last Hf.
  - exists []. simpl. rewrite app_nil_r. split; [reflexivity | constructor].
  - change (Throttle.run limit (Invoke a :: tr) st)
      with (Throttle.run limit tr (Throttle.wrapped limit a st)).
    destruct Hf as [[Hr Hl]|(t0 & Hc & ->)].
    + destruct (IH (Throttle.wrapped limit a st) (Some (now st.2))) as (rest & E & Hs).
      { right. exists (now st.2). split; [|reflexivity].
        apply ThrottleFacts.call_starts_cooldown; assumption. }
      rewrite (ThrottleFacts.call_ready limit Hk a st Hr) in E, Hs. simpl in E, Hs.
      exists ((now st.2, a) :: rest). split.
      * rewrite (ThrottleFacts.call_ready limit Hk a st Hr). rewrite E, <- app_assoc. reflexivity.
      * simpl. apply sublist_skip, Hs.
    + rewrite (ThrottleFacts.call_cooling limit a t0 st Hc).
      destruct (IH st (Some t0)) as (rest & E & Hs); [right; eauto|].
      exists rest. split; [exact E|]. simpl. apply sublist_cons, Hs.
  - change (Throttle.run limit (Elapse d :: tr) st)
      with (Throttle.run limit tr (elapse Throttle.release d st)).
    destruct (IH _ last (ThrottleFacts.tick_follows limit d last st Hf)) as (rest & E & Hs).
    exists rest. rewrite E, (ThrottleFacts.tick_calls limit d last st Hf). auto.
Qed.

Lemma leading_calls_sub {A : Type} (wait : nat) (tr : list (event A))
    (st : Debounce.state) :
  long wait = wait → Debounce.consistent wait st →
  ∃ rest, Debounce.calls (Debounce.run wait true tr st).1 = Debounce.calls st.1 ++ rest
          ∧ rest `sublist_of` stamps tr (now st.2).
Proof.
  intros Hk. revert st. induction tr as [|[a|d] tr IH]; intros st Hc.
  - exists []. simpl. rewrite app_nil_r. split; [reflexivity | constructor].
  - change (Debounce.run wait true (Invoke a :: tr) st)
      with (Debounce.run wait true tr (Debounce.executedFunction wait true a st)).
    pose proof (DebounceFacts.invoke_effect wait true Hk a st Hc) as Eff. cbn [andb] in Eff.
    destruct (IH _ (DebounceFacts.invoke_consistent wait true Hk a st Hc)) as (rest & E & Hs).
    rewrite Eff in E, Hs |- *. cbn [fst snd now Debounce.calls] in E, Hs |- *.
    destruct (negb (Js.truthy (Debounce.timeout st.1))).
    + exists ((now st.2, a) :: rest). rewrite E, <- app_assoc. split; [reflexivity|].
      simpl. apply sublist_skip, Hs.
    + exists rest. split; [exact E|]. simpl. apply sublist_cons, Hs.
  - change (Debounce.run wait true (Elapse d :: tr) st)
      with (Debounce.run wait true tr (elapse (Debounce.later true) d st)).
    destruct (IH _ (DebounceFacts.elapse_consistent wait true d st Hc)) as (rest & E & Hs).
    exists rest. rewrite E, (DebounceFacts.leading_tick_silent wait d st Hc). auto.
Qed.

(** X19. For every window, zero included, and every trace, the real calls
    of a throttled function and of a function debounced on the leading
    edge are invocations: the log of calls, with times and arguments, is
    the timeline of invocations with some of them left out.  No call is
    delayed, repeated, reordered or given other arguments. *)
Theorem immediate_calls_are_invocations {A : Type} (window : nat)
    (tr : list (event A)) :
  Throttle.calls (Throttle.run window tr Throttle.throttle).1 `sublist_of` stamps tr 0
  ∧ Debounce.calls (Debounce.run window true tr Debounce.debounce).1
    `sublist_of` stamps tr 0.
Proof.
  rewrite ThrottleFacts.throttle_run_long, DebounceFacts.debounce_run_long. split.
  - destruct (throttle_calls_from (long window) tr Throttle.throttle None
                (long_idem window) (ThrottleFacts.throttle_follows _))
      as (rest & -> & Hs).
    exact Hs.
  - destruct (leading_calls_sub (long window) tr Debounce.debounce
                (long_idem window) (DebounceFacts.debounce_consistent _))
      as (rest & -> & Hs).
    exact Hs.
Qed.

End CallsAreInvocations.

(** ** Pointer moves and leaves on one surface *)

Module PointerSequencesFacts.
Import Dom PointerEffects PointerSequences.

(** X20. Whatever pointer moves and leaves a hero button or a service
    item has received, they have written nothing but its transform, and
    when the last of them is a leave the transform is the resting one of
    that surface. *)
Theorem pointer_leave_restores_rest {num : Type} `{JsNumber num} (w : window num)
    (ps : list (pointer num)) (st : style) :
  let b := fold_left (on_button w) ps st in
  let i := fold_left (on_item w) ps st in
  opacity b = opacity st ∧ transition b = transition st
  ∧ opacity i = opacity st ∧ transition i = transition st
  ∧ transform (on_button w b Away) = "translate(0, 0) scale(1)"
  ∧ transform (on_item w i Away)
    = "perspective(1000px) rotateX(0) rotateY(0) translateY(0) scale(1)".
Proof.
  intros b i. split; [|split; [|split; [|split; [|split; reflexivity]]]].
  - unfold b. induction ps as [|p ps IH] using rev_ind; [reflexivity|].
    rewrite fold_left_app. cbn [fold_left]. destruct p; exact IH.
  - unfold b. induction ps as [|p ps IH] using rev_ind; [reflexivity|].
    rewrite fold_left_app. cbn [fold_left]. destruct p; exact IH.
  - unfold i. induction ps as [|p ps IH] using rev_ind; [reflexivity|].
    rewrite fold_left_app. cbn [fold_left]. destruct p; exact IH.
  - unfold i. induction ps as [|p ps IH] using rev_ind; [reflexivity|].
    rewrite fold_left_app. cbn [fold_left]. destruct p; exact IH.
Qed.

End PointerSequencesFacts.

(** ** The monitor on concrete deliveries *)

Module PerformanceMonitorRuns.
Import PerformanceMonitor PerformanceMonitorFacts.

#[local] Existing Instance Symbolic.number.
#[local] Existing Instance Symbolic.math.

Lemma cls_is_running_sum_witness :
  [[Shift false "0.1"; Shift true "0.7"]; []; [Shift false "0.02"]] ≠ []
  ∧ getMetrics
      (shifts "example.org"
         [[Shift false "0.1"; Shift true "0.7"]; []; [Shift false "0.02"]]
         (create (λ _, false) true))
    !! "CLS"
    = Some "((0 + 0.1) + 0.02)".
Proof.
  split; [discriminate|].
  exact (proj1 (cls_is_running_sum
                  "example.org"
                  [[Shift false "0.1"; Shift true "0.7"]; []; [Shift false "0.02"]]
                  ltac:(discriminate))).
Defined.

Lemma metrics_do_not_depend_on_host_witness :
  "example.org" ≠ "localhost" ∧ "example.org" ≠ "127.0.0.1"
  ∧ console (deliveries "example.org"
               [Paints [Paint "0" "1200"]; Inputs []; Shifts [Shift false "0.1"]]
               (create (λ _, false) true)).1
    = []
  ∧ (deliveries "example.org"
       [Paints [Paint "0" "1200"]; Inputs []; Shifts [Shift false "0.1"]]
       (create (λ _, false) true)).2
    = 1
  ∧ console (deliveries "localhost"
               [Paints [Paint "0" "1200"]; Inputs []; Shifts [Shift false "0.1"]]
               (create (λ _, false) true)).1
    = ["LCP: Math.round(1200)ms"; "CLS: Math.round(((0 + 0.1) * 1000))"].
Proof.
  split; [discriminate|]. split; [discriminate|].
  pose proof (metrics_do_not_depend_on_host
                "example.org" "localhost"
                [Paints [Paint "0" "1200"]; Inputs []; Shifts [Shift false "0.1"]]
                (create (λ _, false) true) ltac:(discriminate) ltac:(discriminate))
    as (Hc & _ & _ & _ & Hn).
  split; [exact Hc|]. split; [exact Hn | reflexivity].
Defined.

End PerformanceMonitorRuns.

(** ** Click ripple on a service item *)

Module RippleFacts.
Import Timers Ripple.

Section Item.
Context {num : Type} `{JsNumber num} `{JsMax num}.

Lemma fire_removes (n : nat) (ts : list (timer closure)) (v : vars) :
  children (fold_left (λ s x, remove (job x) (Nat.max n (due x)) s) ts v)
  = filter (λ c, rid c ∉ map removes ts) (children v)
  ∧ made (fold_left (λ s x, remove (job x) (Nat.max n (due x)) s) ts v) = made v.
Proof.
  revert v. induction ts as [|x ts IH]; intros v.
  - simpl. split; [|reflexivity]. induction (children v) as [|c cs IHc]; [reflexivity|].
    rewrite filter_cons_True by (intros Hc; apply elem_of_nil in Hc as []).
    f_equal. exact IHc.
  - cbn [fold_left]. destruct (IH (remove (job x) (Nat.max n (due x)) v)) as [-> ->].
    unfold remove, removes. destruct (job x) as [id] eqn:Ej. simpl. split; [|reflexivity].
    rewrite list_filter_filter. apply list_filter_iff. intros c.
    rewrite elem_of_cons. unfold removes. rewrite Ej. tauto.
Qed.

Lemma keep_unripe (limit : nat) (ps : list (timer closure)) (cs : list ripple) :
  map rid cs = map removes ps → NoDup (map removes ps) →
  map rid (filter (λ c, rid c ∉ map removes (by_due (ripe limit ps))) cs)
  = map removes (unripe limit ps).
Proof.
  assert (∀ id, id ∈ map removes (by_due (ripe limit ps))
                ↔ ∃ t, t ∈ ps ∧ due t ≤ limit ∧ removes t = id) as Hripe.
  { intros id. rewrite list_elem_of_fmap. split.
    - intros (t & -> & Ht). apply QueueFacts.elem_of_by_due, QueueFacts.elem_of_ripe in Ht.
      exists t. tauto.
    - intros (t & Hin & Hd & <-). exists t. split; [reflexivity|].
      apply QueueFacts.elem_of_by_due, QueueFacts.elem_of_ripe. auto. }
  revert Hripe. generalize (map removes (by_due (ripe limit ps))) as gone.
  intros gone Hgone. revert cs.
  assert (∀ qs cs, (∀ t, t ∈ qs → t ∈ ps) → NoDup (map removes qs) →
            (∀ t t', t ∈ qs → t' ∈ ps → removes t = removes t' → due t ≤ limit → due t' ≤ limit) →
            (∀ t t', t ∈ qs → t' ∈ ps → removes t = removes t' → due t' ≤ limit → due t ≤ limit) →
            map rid cs = map removes qs →
            map rid (filter (λ c, rid c ∉ gone) cs) = map removes (unripe limit qs)) as Hgen.
  { induction qs as [|q qs IH]; intros cs Hsub Hnd Hsame Hsame' Hmap.
    - destruct cs; [reflexivity | discriminate].
    - destruct cs as [|c cs]; [discriminate|]. simpl in Hmap. injection Hmap as Hc Hmap.
      simpl in Hnd. apply NoDup_cons in Hnd as [_ Hnd].
      assert (map rid (filter (λ c0, rid c0 ∉ gone) cs) = map removes (unripe limit qs)) as Hrest.
      { apply IH; auto.
        - intros t Ht. apply Hsub. right. exact Ht.
        - intros t t' Ht. apply Hsame. right. exact Ht.
        - intros t t' Ht. apply Hsame'. right. exact Ht. }
      cbn [unripe]. destruct (Nat.leb_spec (due q) limit) as [Hle|Hgt].
      + rewrite filter_cons_False; [exact Hrest|].
        intros Hn. apply Hn. apply Hgone. exists q. split; [apply Hsub; left|]. auto.
      + rewrite filter_cons_True.
        * simpl. rewrite Hc, Hrest. reflexivity.
        * intros Hin. apply Hgone in Hin as (t & Ht & Hd & Hr).
          assert (due q ≤ limit); [|lia].
          apply (Hsame' q t); [left | exact Ht | congruence | exact Hd]. }
  intros cs Hmap Hnd. apply Hgen; auto.
  - intros t t' Ht Ht' Hr Hd.
    assert (t = t') as <-; [|exact Hd].
    apply list_elem_of_lookup in Ht as [i Hi], Ht' as [j Hj].
    assert (i = j) as ->.
    { eapply NoDup_lookup; [exact Hnd| |]; rewrite list_lookup_fmap.
      - rewrite Hi. reflexivity.
      - rewrite Hj. simpl. rewrite Hr. reflexivity. }
    congruence.
  - intros t t' Ht Ht' Hr Hd.
    assert (t = t') as ->; [|exact Hd].
    apply list_elem_of_lookup in Ht as [i Hi], Ht' as [j Hj].
    assert (i = j) as ->.
    { eapply NoDup_lookup; [exact Hnd| |]; rewrite list_lookup_fmap.
      - rewrite Hi. reflexivity.
      - rewrite Hj. simpl. rewrite Hr. reflexivity. }
    congruence.
Qed.

Lemma unripe_sub (limit : nat) (ps : list (timer closure)) :
  unripe limit ps `sublist_of` ps.
Proof.
  induction ps as [|p ps IH]; [constructor|]. simpl.
  destruct (due p <=? limit); [apply sublist_cons | apply sublist_skip]; exact IH.
Qed.

Lemma step_paired (st : state) (ev : event num) : paired st → paired (step st ev).
Proof.
  intros (Hmap & Hnd & Hall). destruct ev as [r e|d].
  - destruct st as [[cs m] [n i ps]]. unfold paired, step, click. simpl in *.
    rewrite !map_app, Hmap. simpl. split; [reflexivity|]. split.
    + apply NoDup_app. split; [exact Hnd|]. split; [|apply NoDup_singleton].
      intros x Hx ->%list_elem_of_singleton.
      apply list_elem_of_fmap in Hx as (t & Ht & Hin).
      eapply Forall_forall in Hall; [|exact Hin]. unfold removes at 1 in Ht.
      simpl in Ht, Hall. lia.
    + apply Forall_app. split.
      * eapply Forall_impl; [exact Hall|]. simpl. intros t Ht. lia.
      * constructor; [unfold removes; simpl; lia | constructor].
  - unfold paired, step, elapse. cbn [fst snd pending now].
    destruct (fire_removes (now st.2) (by_due (ripe (now st.2 + d) (pending st.2))) st.1)
      as [-> ->].
    split; [apply keep_unripe; assumption|]. split.
    + apply (sublist_NoDup _ (map removes (pending st.2))); [exact Hnd|].
      apply (fmap_sublist removes), unripe_sub.
    + apply Forall_forall. intros t Ht.
      pose proof (elem_of_sublist _ _ _ Ht (unripe_sub _ _)) as Hin.
      eapply Forall_forall in Hall; [|exact Hin]. simpl in Hall |- *. lia.
Qed.

Lemma run_paired (es : list (event num)) : paired (run es).
Proof.
  induction es as [|ev es IH] using rev_ind.
  - split; [reflexivity|]. split; constructor.
  - unfold run. rewrite fold_left_app. apply step_paired, IH.
Qed.

End Item.

(** X21. Whatever clicks and waits a service item has seen, the ripples
    inside it are exactly those whose removal timer is still pending, in
    the order of the clicks; so once 600 have passed since the last click
    the item holds no ripple, however many were made. *)
Theorem ripples_do_not_outlive_their_timer {num : Type} `{JsNumber num} `{JsMax num}
    (es : list (event num)) (d : nat) :
  let st := run es in
  map rid (children st.1) = map removes (pending st.2)
  ∧ length (children st.1) ≤ made st.1
  ∧ (600 ≤ d →
       children (elapse remove d st).1 = [] ∧ pending (elapse remove d st).2 = []).
Proof.
  intros st. pose proof (run_paired es) as Hp. fold st in Hp.
  pose proof Hp as (Hmap & Hnd & Hall). split; [exact Hmap|]. split.
  - rewrite <- (length_map rid), Hmap.
    assert (∀ l, NoDup l → Forall (λ x, x < made st.1) l → length l ≤ made st.1) as Hcount.
    { intros l Hl Hb.
      assert (l ⊆+ seq 0 (made st.1)) as Hsub.
      { apply NoDup_submseteq; [exact Hl|]. intros x Hx.
        eapply Forall_forall in Hb; [|exact Hx]. apply elem_of_seq. lia. }
      apply submseteq_length in Hsub. rewrite length_seq in Hsub. exact Hsub. }
    apply Hcount; [exact Hnd|]. apply Forall_fmap.
    eapply Forall_impl; [exact Hall|]. simpl. intros t Ht. lia.
  - intros Hd. pose proof (step_paired st (Wait d) Hp) as (Hmap' & _).
    cbn [step] in Hmap'.
    assert (pending (elapse remove d st).2 = []) as Hnone.
    { unfold elapse. cbn [snd pending].
      apply (QueueFacts.ripe_all (now st.2 + d)).
      eapply Forall_impl; [exact Hall|]. simpl. intros t Ht. lia. }
    split; [|exact Hnone]. rewrite Hnone in Hmap'.
    destruct (children (elapse remove d st).1); [reflexivity | discriminate].
Qed.

End RippleFacts.

(** ** The service items under the listeners of the services script *)

Module ServiceItemsFacts.
Import Dom Timers QueueFacts PointerEffects ServiceItems.

Section Items.
Context {num : Type} `{JsNumber num}.
Variable w : window num.

Local Abbreviation item := ServiceObserver.item.
Local Abbreviation step := (step w).
Local Abbreviation run := (run w).

Lemma write_lookup (f : item → item) (x e : element) (v : vars) :
  items (write f x v) !! e
  = if decide (x = e) then f <$> items v !! e else items v !! e.
Proof.
  simpl. destruct (decide (x = e)) as [->|Hne];
    [apply lookup_alter_eq | apply lookup_alter_ne, Hne].
Qed.

Lemma each_registers (entries : list entry) (i : nat) (st : state) :
  items (each i entries st).1 = items st.1
  ∧ serviceItems (each i entries st).1 = serviceItems st.1
  ∧ touch (each i entries st).1 = touch st.1
  ∧ now (each i entries st).2 = now st.2
  ∧ ∃ new, pending (each i entries st).2 = pending st.2 ++ new
      ∧ (∀ x, x ∈ new →
           ∃ en, en ∈ entries ∧ isIntersecting en = true ∧ job x = Activate (target en))
      ∧ (∀ k en, entries !! k = Some en → isIntersecting en = true →
           ∃ x, x ∈ new ∧ job x = Activate (target en)
                ∧ due x = now st.2 + (i + k) * 100).
Proof.
  revert i st. induction entries as [|en rest IH]; intros i st.
  - simpl. repeat split; auto. exists []. rewrite app_nil_r. split; [reflexivity|].
    split; [intros x Hx; apply elem_of_nil in Hx as [] | intros k en Hk; discriminate].
  - cbn [each].
    destruct (IH (S i) (on_entry i en st)) as (E1 & E2 & E3 & E4 & new & E5 & Hjobs & Hdue).
    rewrite E1, E2, E3, E4, E5. unfold on_entry in *.
    destruct (isIntersecting en) eqn:Hi.
    + destruct st as [v l]. cbn [fst snd items serviceItems touch now pending setTimeout] in *.
      repeat split; auto.
      exists (Timer (next_id l) (now l + i * 100) (Activate (target en)) :: new).
      split; [rewrite <- app_assoc; reflexivity|]. split.
      * intros x Hx. apply elem_of_cons in Hx as [->|Hx].
        -- exists en. split; [left|]. auto.
        -- destruct (Hjobs x Hx) as (en' & H1 & H2). exists en'. split; [right|]; auto.
      * intros [|k] en' Hk Hint.
        -- injection Hk as <-. eexists. split; [left|]. simpl.
           split; [reflexivity | f_equal; lia].
        -- destruct (Hdue k en' Hk Hint) as (x & Hx & Hj & Hd). exists x.
           split; [right; exact Hx|]. split; [exact Hj|]. rewrite Hd. lia.
    + repeat split; auto. exists new. split; [reflexivity|]. split.
      * intros x Hx. destruct (Hjobs x Hx) as (en' & H1 & H2). exists en'.
        split; [right|]; auto.
      * intros [|k] en' Hk Hint.
        -- injection Hk as <-. congruence.
        -- destruct (Hdue k en' Hk Hint) as (x & Hx & Hj & Hd). exists x.
           split; [exact Hx|]. split; [exact Hj|]. rewrite Hd. lia.
Qed.

Lemma touchend_effect (e : element) (st : state) :
  (touchend e st).1 = st.1
  ∧ now (touchend e st).2 = now st.2
  ∧ ∃ new, pending (touchend e st).2 = pending st.2 ++ new
           ∧ ∀ x, x ∈ new → job x = Untouch e.
Proof.
  unfold touchend. generalize (TouchListeners.registered e "touchend" (touch st.1)).
  intros ls. revert st. induction ls as [|l ls IH]; intros st.
  - simpl. repeat split. exists []. rewrite app_nil_r. split; [reflexivity|].
    intros x Hx. apply elem_of_nil in Hx as [].
  - cbn [fold_left].
    destruct (IH (st.1, (setTimeout (Untouch e) 300 st.2).2)) as (E1 & E2 & new & E3 & Hj).
    rewrite E1, E2, E3. cbn [fst snd setTimeout now pending]. repeat split.
    eexists (_ :: new). split; [rewrite <- app_assoc; reflexivity|].
    intros x Hx. apply elem_of_cons in Hx as [->|Hx]; [reflexivity | auto].
Qed.

(** *** What the listeners keep *)

Section Kept.
Variable Q : item → Prop.
Variable e : element.
Hypothesis classes_kept :
  ∀ it, Q it → Q (add_class "touch-active" it) ∧ Q (remove_class "touch-active" it).

Lemma write_holds (f : item → item) (x : element) (v : vars) :
  (x = e → ∀ it, Q it → Q (f it)) → holds Q e v → holds Q e (write f x v).
Proof.
  intros Hf (it & Hit & HQ). unfold holds. rewrite write_lookup.
  destruct (decide (x = e)) as [Hx|Hx]; [|eauto].
  rewrite Hit. simpl. eauto.
Qed.

Lemma write_some (f : item → item) (x : element) (v : vars) :
  is_Some (items v !! e) → is_Some (items (write f x v) !! e).
Proof.
  intros [it Hit]. rewrite write_lookup.
  destruct (decide (x = e)); rewrite Hit; simpl; eauto.
Qed.

Lemma fire_some (k : closure) (t : nat) (v : vars) :
  is_Some (items v !! e) → is_Some (items (fire k t v) !! e).
Proof. destruct k; simpl fire; [apply write_some | auto | apply write_some]. Qed.

Lemma fire_holds (k : closure) (t : nat) (v : vars) :
  (k = Activate e → ∀ it, Q it → Q (ServiceObserver.reveal it)) →
  holds Q e v → holds Q e (fire k t v).
Proof.
  intros Hk Hv. destruct k as [x|x|x]; cbn [fire]; [| exact Hv |].
  - apply write_holds; [|exact Hv]. intros ->. apply Hk. reflexivity.
  - apply write_holds; [|exact Hv]. intros _ it HQ. apply classes_kept, HQ.
Qed.

Lemma fires_some (n : nat) (ts : list (timer closure)) (v : vars) :
  is_Some (items v !! e) →
  is_Some (items (fold_left (λ s x, fire (job x) (Nat.max n (due x)) s) ts v) !! e).
Proof.
  revert v. induction ts as [|x ts IH]; intros v Hs; [exact Hs|].
  cbn [fold_left]. apply IH, fire_some, Hs.
Qed.

Lemma fires_holds (n : nat) (ts : list (timer closure)) (v : vars) :
  (∀ x, x ∈ ts → job x = Activate e → ∀ it, Q it → Q (ServiceObserver.reveal it)) →
  holds Q e v →
  holds Q e (fold_left (λ s x, fire (job x) (Nat.max n (due x)) s) ts v).
Proof.
  revert v. induction ts as [|x ts IH]; intros v Hts Hv; [exact Hv|].
  cbn [fold_left]. apply IH.
  - intros y Hy. apply Hts. right. exact Hy.
  - apply fire_holds; [|exact Hv]. apply Hts. left.
Qed.

Lemma touchstart_holds (x : element) (st : state) :
  holds Q e st.1 → holds Q e (touchstart x st).1.
Proof.
  unfold touchstart. cbn [fst].
  generalize (TouchListeners.registered x "touchstart" (touch st.1)). intros ls.
  generalize st.1. induction ls as [|l ls IH]; intros v Hv; [exact Hv|].
  cbn [fold_left]. apply IH, write_holds; [|exact Hv].
  intros _ it HQ. apply classes_kept, HQ.
Qed.

Lemma touchstart_some (x : element) (st : state) :
  is_Some (items st.1 !! e) → is_Some (items (touchstart x st).1 !! e).
Proof.
  unfold touchstart. cbn [fst].
  generalize (TouchListeners.registered x "touchstart" (touch st.1)). intros ls.
  generalize st.1. induction ls as [|l ls IH]; intros v Hv; [exact Hv|].
  cbn [fold_left]. apply IH, write_some, Hv.
Qed.

(** An event other than the passing of time: the item keeps [Q], and the
    timers pending are still pending. *)
Lemma event_keeps (ev : event num) (st : state) :
  (∀ d, ev ≠ Wait d) → respects w Q e ev →
  (is_Some (items st.1 !! e) → is_Some (items (step st ev).1 !! e))
  ∧ (holds Q e st.1 → holds Q e (step st ev).1)
  ∧ now (step st ev).2 = now st.2
  ∧ ∃ new, pending (step st ev).2 = pending st.2 ++ new
           ∧ ∀ x, x ∈ new → job x = Activate e →
                  ∃ entries en, ev = Batch entries ∧ en ∈ entries
                                ∧ isIntersecting en = true ∧ target en = e.
Proof.
  intros Hev Hr.
  assert (∀ l : list (timer closure), ∃ new, l = l ++ new
            ∧ ∀ x, x ∈ new → job x = Activate e →
                   ∃ entries en, ev = Batch entries ∧ en ∈ entries
                                 ∧ isIntersecting en = true ∧ target en = e) as Hsame.
  { intros l. exists []. rewrite app_nil_r. split; [reflexivity|].
    intros x Hx. apply elem_of_nil in Hx as []. }
  destruct ev as [entries|d|x r m|x|x|x|x|width]; cbn [ServiceItems.step].
  - unfold callback.
    destruct (each_registers entries 0 st) as (E1 & _ & _ & E4 & new & E5 & Hjobs & _).
    unfold holds. rewrite E1, E4, E5. repeat split; auto.
    exists new. split; [reflexivity|]. intros y Hy Hj.
    destruct (Hjobs y Hy) as (en & Hen & Hi & Hj'). exists entries, en.
    repeat split; auto. congruence.
  - destruct (Hev d). reflexivity.
  - unfold mousemove. destruct (listens x st.1); [|repeat split; auto].
    cbn [fst snd]. repeat split; [apply write_some | | apply Hsame].
    apply write_holds. exact Hr.
  - unfold mouseleave. destruct (listens x st.1); [|repeat split; auto].
    cbn [fst snd]. repeat split; [apply write_some | | apply Hsame].
    apply write_holds. exact Hr.
  - unfold click. destruct (listens x st.1); [|repeat split; auto].
    cbn [fst snd setTimeout now pending]. repeat split; auto.
    eexists [_]. split; [reflexivity|]. intros y Hy Hj.
    apply list_elem_of_singleton in Hy as ->. discriminate Hj.
  - repeat split; [apply touchstart_some | apply touchstart_holds | apply Hsame].
  - destruct (touchend_effect x st) as (E1 & E2 & new & E3 & Hj).
    rewrite E1, E2, E3. repeat split; auto. exists new. split; [reflexivity|].
    intros y Hy Hact. rewrite (Hj y Hy) in Hact. discriminate Hact.
  - repeat split; auto.
Qed.

(** The passing of time. *)
Lemma wait_keeps (d : nat) (st : state) :
  (is_Some (items st.1 !! e) → is_Some (items (step st (Wait d)).1 !! e))
  ∧ now (step st (Wait d)).2 = now st.2 + d
  ∧ (∀ x, x ∈ pending (step st (Wait d)).2 ↔ x ∈ pending st.2 ∧ now st.2 + d < due x)
  ∧ (holds Q e st.1 →
     (∀ x, x ∈ pending st.2 → job x = Activate e →
           ∀ it, Q it → Q (ServiceObserver.reveal it)) →
     holds Q e (step st (Wait d)).1).
Proof.
  cbn [ServiceItems.step]. unfold elapse. cbn [fst snd now pending].
  split; [apply fires_some|]. split; [reflexivity|]. split; [apply elem_of_unripe|].
  intros Hv Hact. apply fires_holds; [|exact Hv].
  intros x Hx. apply elem_of_by_due, elem_of_ripe in Hx as [Hx _]. apply Hact, Hx.
Qed.

(** *** An item the observer has reported *)

Section Revealed.
Hypothesis revealed : ∀ it, Q (ServiceObserver.reveal it).

Lemma fires_reveal (n : nat) (ts : list (timer closure)) (v : vars) :
  is_Some (items v !! e) → (∃ x, x ∈ ts ∧ job x = Activate e) →
  holds Q e (fold_left (λ s x, fire (job x) (Nat.max n (due x)) s) ts v).
Proof.
  revert v. induction ts as [|x ts IH]; intros v Hs (y & Hy & Hj).
  - apply elem_of_nil in Hy as [].
  - cbn [fold_left]. destruct (job x) as [z|z|z] eqn:Ex.
    + destruct (decide (z = e)) as [->|Hne].
      * apply fires_holds; [intros; apply revealed|].
        destruct Hs as [it Hit]. unfold holds. cbn [fire]. rewrite write_lookup.
        destruct (decide (e = e)); [|contradiction]. rewrite Hit. simpl. eauto.
      * apply IH; [apply fire_some, Hs|].
        apply elem_of_cons in Hy as [->|Hy]; [congruence | eauto].
    + apply IH; [exact Hs|].
      apply elem_of_cons in Hy as [->|Hy]; [congruence | eauto].
    + apply IH; [apply fire_some, Hs|].
      apply elem_of_cons in Hy as [->|Hy]; [congruence | eauto].
Qed.

Lemma step_on_its_way (D : nat) (ev : event num) (st : state) :
  respects w Q e ev → on_its_way Q D e st →
  on_its_way Q D e (step st ev)
  ∧ (holds Q e st.1 → holds Q e (step st ev).1)
  ∧ (∀ d, ev = Wait d → D ≤ now st.2 + d → holds Q e (step st ev).1).
Proof.
  intros Hr [Hs Hwhy].
  assert ((∃ d, ev = Wait d) ∨ ∀ d, ev ≠ Wait d) as [[d ->]|Hev]
    by (destruct ev; eauto; right; discriminate).
  - destruct (wait_keeps d st) as (Hs' & _ & Hpend & Hkeep).
    assert (holds Q e st.1 → holds Q e (step st (Wait d)).1) as Hstay
      by (intros Hv; apply Hkeep; [exact Hv | intros; apply revealed]).
    assert (∀ t, t ∈ pending st.2 → job t = Activate e → due t ≤ now st.2 + d →
                 holds Q e (step st (Wait d)).1) as Hfires.
    { intros t Hin Hj Hd. cbn [ServiceItems.step]. unfold elapse. cbn [fst].
      apply fires_reveal; [exact Hs|]. exists t. split; [|exact Hj].
      apply elem_of_by_due, elem_of_ripe. auto. }
    split; [|split; [exact Hstay|]].
    + split; [apply Hs', Hs|]. destruct Hwhy as [Hv|(t & Hin & Hj & Hd)]; [left; auto|].
      destruct (le_lt_dec (due t) (now st.2 + d)) as [Hripe|Hlate].
      * left. apply (Hfires t); auto.
      * right. exists t. split; [apply Hpend; auto | auto].
    + intros d' [= <-] HD. destruct Hwhy as [Hv|(t & Hin & Hj & Hd)]; [auto|].
      apply (Hfires t); auto. lia.
  - destruct (event_keeps ev st Hev Hr) as (Hs' & Hkeep & _ & new & Hpend & _).
    split; [|split; [exact Hkeep|]].
    + split; [apply Hs', Hs|]. destruct Hwhy as [Hv|(t & Hin & Hj & Hd)]; [left; auto|].
      right. exists t. rewrite Hpend, elem_of_app. auto.
    + intros d ->. destruct (Hev d). reflexivity.
Qed.

Lemma run_on_its_way (D : nat) (es : list (event num)) (st : state) :
  Forall (respects w Q e) es → on_its_way Q D e st →
  on_its_way Q D e (run es st) ∧ (holds Q e st.1 → holds Q e (run es st).1).
Proof.
  intros Hall. revert st. induction Hall as [|ev es Hr _ IH]; intros st Hw; [auto|].
  cbn [ServiceItems.run fold_left].
  destruct (step_on_its_way D ev st Hr Hw) as (Hw' & Hkeep & _).
  destruct (IH _ Hw') as [Hw'' Hkeep']. auto.
Qed.

End Revealed.

(** *** An item the observer never reports *)

Lemma step_dormant (ev : event num) (st : state) :
  respects w Q e ev →
  (∀ entries en, ev = Batch entries → en ∈ entries → target en = e →
                 isIntersecting en = false) →
  dormant e st → holds Q e st.1 →
  dormant e (step st ev) ∧ holds Q e (step st ev).1.
Proof.
  intros Hr Hun Hd Hv.
  assert ((∃ d, ev = Wait d) ∨ ∀ d, ev ≠ Wait d) as [[d ->]|Hev]
    by (destruct ev; eauto; right; discriminate).
  - destruct (wait_keeps d st) as (_ & _ & Hpend & Hkeep). split.
    + intros x Hx. apply Hpend in Hx as [Hx _]. apply Hd, Hx.
    + apply Hkeep; [exact Hv|]. intros x Hx Hj. destruct (Hd x Hx Hj).
  - destruct (event_keeps ev st Hev Hr) as (_ & Hkeep & _ & new & Hpend & Hnew).
    split; [|apply Hkeep, Hv].
    intros x Hx Hj. rewrite Hpend in Hx. apply elem_of_app in Hx as [Hx|Hx].
    + apply (Hd x Hx Hj).
    + destruct (Hnew x Hx Hj) as (entries & en & -> & Hen & Hi & Ht).
      rewrite (Hun entries en eq_refl Hen Ht) in Hi. discriminate Hi.
Qed.

Lemma run_dormant (es : list (event num)) (st : state) :
  Forall (respects w Q e) es → unreported e es →
  dormant e st → holds Q e st.1 → holds Q e (run es st).1.
Proof.
  intros Hall. revert st. induction Hall as [|ev es Hr _ IH]; intros st Hun Hd Hv;
    [exact Hv|].
  cbn [ServiceItems.run fold_left].
  destruct (step_dormant ev st Hr) as [Hd' Hv']; auto.
  { intros entries en -> Hen Ht. apply (Hun entries en); [left | auto | auto]. }
  apply IH; auto.
  intros entries en Hb. apply (Hun entries en). right. exact Hb.
Qed.

End Kept.

Lemma shown_kept (it : item) :
  shown it → shown (add_class "touch-active" it) ∧ shown (remove_class "touch-active" it).
Proof.
  intros [Ho Hc]. split; (split; [exact Ho|]); simpl.
  - apply elem_of_union. right. exact Hc.
  - apply elem_of_difference. split; [exact Hc|].
    intros Heq. apply elem_of_singleton in Heq. discriminate Heq.
Qed.

Lemma shown_respected (e : element) (ev : event num) : respects w shown e ev.
Proof. destruct ev; simpl; auto; intros _ it Hs; exact Hs. Qed.

Lemma away_respects (Q : item → Prop) (e : element) (ev : event num) :
  away e ev → respects w Q e ev.
Proof. destruct ev; simpl; auto; intros Hne Heq; contradiction. Qed.

Lemma hidden_kept (it0 it : item) :
  hidden it0 it →
  hidden it0 (add_class "touch-active" it) ∧ hidden it0 (remove_class "touch-active" it).
Proof.
  intros (Ho & Ht & Hc). split; (split; [exact Ho|]; split; [exact Ht|]); simpl;
    intros c Hne; rewrite <- (Hc c Hne).
  - rewrite elem_of_union, elem_of_singleton. split; [intros [->|]; [contradiction | auto] | auto].
  - rewrite elem_of_difference, elem_of_singleton. split; [intros []; auto | auto].
Qed.

Lemma hidden_respected (it0 : item) (e : element) (ev : event num) :
  respects w (hidden it0) e ev.
Proof. destruct ev; simpl; auto; intros _ it Hs; exact Hs. Qed.

Lemma conceal_all (serviceItems : list element) (d : gmap element item) (e : element)
    (it : item) :
  d !! e = Some it → e ∈ serviceItems →
  fold_left (λ m x, alter ServiceObserver.conceal x m) serviceItems d !! e
  = Some (ServiceObserver.Item
            (Style "0" "translateY(30px)" "all 0.6s cubic-bezier(0.4, 0, 0.2, 1)")
            (ServiceObserver.classes it)).
Proof.
  intros Hit Hin.
  assert (∀ l (m : gmap element item) it',
            m !! e = Some it' →
            fold_left (λ m x, alter ServiceObserver.conceal x m) l m !! e
            = Some (if bool_decide (e ∈ l) then ServiceObserver.conceal it' else it')
              ∨ fold_left (λ m x, alter ServiceObserver.conceal x m) l m !! e
                = Some (ServiceObserver.conceal it')) as Hgen.
  { induction l as [|x l IH]; intros m it' Hm; [left; exact Hm|].
    cbn [fold_left]. destruct (decide (x = e)) as [->|Hne].
    - right. destruct (IH (alter ServiceObserver.conceal e m) (ServiceObserver.conceal it'))
        as [E|E]; [rewrite lookup_alter_eq, Hm; reflexivity | |].
      + rewrite E. destruct (bool_decide (e ∈ l)); reflexivity.
      + rewrite E. reflexivity.
    - destruct (IH (alter ServiceObserver.conceal x m) it') as [E|E];
        [rewrite lookup_alter_ne by exact Hne; exact Hm | |].
      + rewrite E. destruct (bool_decide_reflect (e ∈ l)) as [Hl|Hl].
        * right. reflexivity.
        * left. rewrite bool_decide_eq_false_2; [reflexivity|].
          intros Hx. apply elem_of_cons in Hx as [->|Hx]; contradiction.
      + right. exact E. }
  destruct (Hgen serviceItems d it Hit) as [E|E]; rewrite E.
  - rewrite bool_decide_eq_true_2 by exact Hin. reflexivity.
  - reflexivity.
Qed.

End Items.

(** X9. Once a batch has reported an item of the document as intersecting
    at rank [i], then whatever the services script's listeners on the items
    receive before and after (batches, pointer moves and leaves, clicks,
    touches, resizes, the passing of time), from the first turn of the
    event loop that reaches 100 * [i] after the delivery the item has
    opacity 1 and the class [animate-in], and none of these listeners takes
    them away again; its transform is [translateY(0)] as long as no
    pointer move or leave on the item is among the events. *)
Theorem reported_item_becomes_visible {num : Type} `{JsNumber num} (w : window num)
    (st : state) (entries : list entry) (i : nat) (en : entry)
    (es es' : list (event num)) (d : nat) :
  entries !! i = Some en → isIntersecting en = true →
  is_Some (items st.1 !! target en) →
  now st.2 + 100 * i ≤ now (run w es (callback entries st)).2 + d →
  ∃ it, items (run w (es ++ Wait d :: es') (callback entries st)).1 !! target en = Some it
        ∧ shown it
        ∧ (Forall (away (target en)) (es ++ es') →
           transform (ServiceObserver.style it) = "translateY(0)").
Proof.
  intros Hi Hint Hs Hd.
  assert (∀ Q : ServiceObserver.item → Prop,
            (∀ it, Q it → Q (add_class "touch-active" it)
                          ∧ Q (remove_class "touch-active" it)) →
            (∀ it, Q (ServiceObserver.reveal it)) →
            Forall (respects w Q (target en)) (es ++ es') →
            holds Q (target en)
              (run w (es ++ Wait d :: es') (callback entries st)).1) as Hgen.
  { intros Q Hclass Hrev Hall. apply Forall_app in Hall as [Hes Hes'].
    assert (on_its_way Q (now st.2 + 100 * i) (target en) (callback entries st)) as Hw.
    { unfold on_its_way, callback.
      destruct (each_registers entries 0 st) as (-> & _ & _ & _ & new & -> & _ & Hdue).
      split; [exact Hs|]. right.
      destruct (Hdue i en Hi Hint) as (x & Hin & Hj & Hx).
      exists x. rewrite elem_of_app. split; [auto|]. split; [exact Hj|]. lia. }
    destruct (run_on_its_way w Q (target en) Hclass Hrev _ es _ Hes Hw) as [Hw' _].
    destruct (step_on_its_way w Q (target en) Hclass Hrev _ (Wait d) _ I Hw')
      as (Hw'' & _ & Hnow).
    unfold run. rewrite fold_left_app. cbn [fold_left].
    apply (run_on_its_way w Q (target en) Hclass Hrev _ es' _ Hes' Hw'').
    apply (Hnow d eq_refl), Hd. }
  destruct (Hgen shown (shown_kept)) as (it & Hit & Hshown).
  { intros it. split; [reflexivity|]. simpl. apply elem_of_union. left.
    apply elem_of_singleton. reflexivity. }
  { apply Forall_forall. intros ev _. apply shown_respected. }
  exists it. split; [exact Hit|]. split; [exact Hshown|]. intros Haway.
  destruct (Hgen (λ it, transform (ServiceObserver.style it) = "translateY(0)"))
    as (it' & Hit' & Ht).
  { intros it0 Ht. split; exact Ht. }
  { intros it0. reflexivity. }
  { eapply Forall_impl; [exact Haway|]. intros ev. apply away_respects. }
  rewrite Hit in Hit'. injection Hit' as <-. exact Ht.
Qed.

(** X10. A service item that no delivered entry reports as intersecting
    keeps, whatever the services script's listeners on the items receive
    (batches, pointer moves and leaves, clicks, touches, resizes, the
    passing of time), what the script gave it at load: opacity 0 and the
    transition of the services section; its classes are those it had in
    the document, [touch-active] apart; and its transform is the offset of
    30px as long as no pointer move or leave on the item is among the
    events. *)
Theorem unreported_item_stays_hidden {num : Type} `{JsNumber num} (w : window num)
    (d : gmap element ServiceObserver.item) (serviceItems : list element)
    (innerWidth : Z) (es : list (event num)) (e : element)
    (it : ServiceObserver.item) :
  e ∈ serviceItems → d !! e = Some it → unreported e es →
  ∃ it', items (run w es (load d serviceItems innerWidth)).1 !! e = Some it'
         ∧ hidden it it'
         ∧ (Forall (away e) es →
            transform (ServiceObserver.style it') = "translateY(30px)").
Proof.
  intros Hin Hit Hun.
  pose proof (conceal_all serviceItems d e it Hit Hin) as Hload.
  assert (dormant e (load d serviceItems innerWidth)) as Hd
    by (intros x Hx; apply elem_of_nil in Hx as []).
  assert (holds (hidden it) e (load d serviceItems innerWidth).1) as Hv0
    by (eexists; split; [exact Hload|]; split; [reflexivity|]; split; [reflexivity|];
        intros c _; reflexivity).
  assert (Forall (respects w (hidden it) e) es) as Hall
    by (apply Forall_forall; intros ev _; apply hidden_respected).
  destruct (run_dormant w (hidden it) e (hidden_kept it) es _ Hall Hun Hd Hv0)
    as (it' & Hit' & Hh).
  exists it'. split; [exact Hit'|]. split; [exact Hh|]. intros Haway.
  assert (holds (λ it, transform (ServiceObserver.style it) = "translateY(30px)") e
            (load d serviceItems innerWidth).1) as Hv1
    by (eexists; split; [exact Hload | reflexivity]).
  assert (Forall (respects w
            (λ it, transform (ServiceObserver.style it) = "translateY(30px)") e) es)
    as Hall' by (eapply Forall_impl; [exact Haway | intros ev; apply away_respects]).
  destruct (run_dormant w
              (λ it, transform (ServiceObserver.style it) = "translateY(30px)") e
              (λ it0 Ht, conj Ht Ht) es _ Hall' Hun Hd Hv1)
    as (it'' & Hit'' & Ht).
  rewrite Hit' in Hit''. injection Hit'' as <-. exact Ht.
Qed.

End ServiceItemsFacts.

(** ** The service items on concrete events *)

Module ServiceItemsRuns.
Import Dom PointerEffects ServiceItems ServiceItemsFacts.

#[local] Existing Instance Symbolic.number.

Lemma reported_item_becomes_visible_witness :
  ∃ it,
    items (run (Window false true "1024" "700")
             ([MouseMove 6 (Rect "0" "0" "200" "100") (Mouse "50" "50"); TouchStart 6;
               Wait 50; Batch [Entry 4 true]]
              ++ Wait 150
              :: [MouseLeave 6; TouchEnd 6; Click 6; Resize 500; Wait 400;
                  Batch [Entry 6 false]])
             (callback [Entry 5 false; Entry 6 true]
                (load {[4 := ServiceObserver.Item blank ∅;
                        5 := ServiceObserver.Item blank ∅;
                        6 := ServiceObserver.Item blank ∅]} [4; 5; 6] 700))).1
    !! 6 = Some it
    ∧ shown it.
Proof.
  destruct (reported_item_becomes_visible (Window false true "1024" "700")
              (load {[4 := ServiceObserver.Item blank ∅;
                      5 := ServiceObserver.Item blank ∅;
                      6 := ServiceObserver.Item blank ∅]} [4; 5; 6] 700)
              [Entry 5 false; Entry 6 true] 1 (Entry 6 true)
              [MouseMove 6 (Rect "0" "0" "200" "100") (Mouse "50" "50"); TouchStart 6;
               Wait 50; Batch [Entry 4 true]]
              [MouseLeave 6; TouchEnd 6; Click 6; Resize 500; Wait 400;
               Batch [Entry 6 false]] 150
              eq_refl eq_refl)
    as (it & Hit & Hshown & _).
  - eexists. vm_compute. reflexivity.
  - vm_compute. lia.
  - exists it. split; [exact Hit | exact Hshown].
Defined.

Lemma unreported_item_stays_hidden_witness :
  ∃ it,
    items (run (Window false true "1024" "700")
             [Batch [Entry 4 true; Entry 5 false]; TouchStart 5; Click 5;
              MouseMove 4 (Rect "0" "0" "200" "100") (Mouse "50" "50"); Wait 500]
             (load {[4 := ServiceObserver.Item blank ∅;
                     5 := ServiceObserver.Item blank {["service-item"]}]} [4; 5] 700)).1
    !! 5 = Some it
    ∧ hidden (ServiceObserver.Item blank {["service-item"]}) it
    ∧ transform (ServiceObserver.style it) = "translateY(30px)".
Proof.
  destruct (unreported_item_stays_hidden (Window false true "1024" "700")
              {[4 := ServiceObserver.Item blank ∅;
                5 := ServiceObserver.Item blank {["service-item"]}]} [4; 5] 700
              [Batch [Entry 4 true; Entry 5 false]; TouchStart 5; Click 5;
               MouseMove 4 (Rect "0" "0" "200" "100") (Mouse "50" "50"); Wait 500]
              5 (ServiceObserver.Item blank {["service-item"]}))
    as (it & Hit & Hh & Ht).
  - apply elem_of_cons. right. apply elem_of_cons. left. reflexivity.
  - reflexivity.
  - intros entries en Hb Hen Htarget.
    apply elem_of_cons in Hb as [Hb|Hb].
    + injection Hb as ->.
      apply elem_of_cons in Hen as [->|Hen]; [discriminate Htarget|].
      apply list_elem_of_singleton in Hen as ->. reflexivity.
    + repeat (apply elem_of_cons in Hb as [Hb|Hb]; [discriminate Hb|]).
      apply elem_of_nil in Hb as [].
  - exists it. split; [exact Hit|]. split; [exact Hh|]. apply Ht.
    repeat constructor. simpl. discriminate.
Defined.

End ServiceItemsRuns.
